(** * MetabaseNet: utilities, time-series store and entry sequencer

    A shallow embedding of the parts of the MetabaseNet node that the
    specification makes promises about:

    - [mtbase/util.h]: the byte-swap functions, the hex encoders and the
      tolerant hex decoders, the two reversals of hex strings, the decimal
      and hex-numeric string tests, the routable-address test and the
      comparisons of doubles;
    - [blockchain/entry.cpp]: [CBbEntry::Initialize], [AttachModule],
      [InitializeModules], [GetRPCHostConfig], [PurgeStorage] and
      [RunInBackground];
    - the byte-block compression and the CTSDB engine, whose sources are not
      part of the repository excerpt and are modelled from the specification.

    Conventions.  A C++ [char] is an [ascii], a [std::string] is a [string],
    an [unsigned char] is a [byte], fixed-width unsigned integers are [Z]
    with the wrap-around written out, [size_t] indices that provably never
    wrap are [nat], a [double] is a binary64 [spec_float].  Calls into the
    C and C++ libraries ([tolower], [isdigit], [strcpy], [sprintf], [stoll],
    [std::regex_search], [std::swap_ranges], [create_directories]) are
    embedded as those libraries define them; an exception that the code does
    not catch is an outcome of its own. *)

From Stdlib Require Import ZArith NArith Lia List Bool Strings.Ascii Strings.String Strings.Byte.
From Stdlib Require Floats.SpecFloat.
From stdpp Require Import base option list gmap strings.

Local Open Scope Z_scope.

(** ** Fixed-width unsigned integers *)

Definition to_uint16 (x : Z) : Z := x mod 2 ^ 16.
Definition to_uint32 (x : Z) : Z := x mod 2 ^ 32.
Definition to_uint64 (x : Z) : Z := x mod 2 ^ 64.

(** ** util.h: byte swaps *)

(** [uint32 BSwap16(uint16 n)]: the operands are promoted to [int], the result
    is converted to [uint32]. *)
Definition BSwap16 (n : Z) : Z :=
  to_uint32 (Z.lor (Z.shiftl (Z.land n 0x00FF) 8) (Z.shiftr (Z.land n 0xFF00) 8)).

(** [uint32 BSwap32(uint32 n)]: every left shift is a 32-bit unsigned shift. *)
Definition BSwap32 (n : Z) : Z :=
  Z.lor (Z.lor (Z.lor (to_uint32 (Z.shiftl (Z.land n 0x000000FF) 24))
                      (to_uint32 (Z.shiftl (Z.land n 0x0000FF00) 8)))
               (Z.shiftr (Z.land n 0x00FF0000) 8))
        (Z.shiftr (Z.land n 0xFF000000) 24).

(** [uint64 BSwap64(uint64 n)]: three rounds, swapping bytes, then 16-bit
    halves, then 32-bit halves. *)
Definition BSwap64 (n : Z) : Z :=
  let n1 := Z.lor (Z.shiftr (Z.land n 0xff00ff00ff00ff00) 8)
                  (to_uint64 (Z.shiftl (Z.land n 0x00ff00ff00ff00ff) 8)) in
  let n2 := Z.lor (Z.shiftr (Z.land n1 0xffff0000ffff0000) 16)
                  (to_uint64 (Z.shiftl (Z.land n1 0x0000ffff0000ffff) 16)) in
  Z.lor (Z.shiftr n2 32) (to_uint64 (Z.shiftl n2 32)).

(** Bit [i] of a [w]-byte word after its bytes are reversed. *)
Definition flip_byte (w i : Z) : Z := 8 * (w - 1 - i / 8) + i mod 8.

(** A property of every bit position below [k], as a finite conjunction. *)
Fixpoint bits_below (k : nat) (P : Z -> Prop) : Prop :=
  match k with
  | O => True
  | S k' => P (Z.of_nat k') /\ bits_below k' P
  end.

(** ** util.h: hex encoding and decoding *)

(** The integer value of a [char] (a signed 8-bit type here). *)
Definition char_to_int (c : ascii) : Z :=
  let u := Z.of_N (N_of_ascii c) in
  if u <? 128 then u else u - 256.

(** [(unsigned char)x] for an [int] x. *)
Definition to_uchar (x : Z) : byte :=
  default x00 (Byte.of_N (Z.to_N (x mod 256))).

(** [int c = *p] for an [unsigned char]. *)
Definition uchar_to_int (b : byte) : Z := Z.of_N (Byte.to_N b).

(** [tolower] in the C locale. *)
Definition tolower (c : Z) : Z :=
  if (char_to_int "A" <=? c) && (c <=? char_to_int "Z") then c + 32 else c.

(** [s[i]] read through [c_str()]: the terminator is a NUL. *)
Definition char_at (s : string) (i : nat) : ascii :=
  default zero (String.get i s).

(** The string terminator. *)
Definition NUL : ascii := zero.

(** [const char hexc[17]], the digits of [ToHexString]. *)
Definition hexc : string := "0123456789abcdef".

(** The inner loop of [ToHexString]: at most [k] bytes of [p] go to the
    scratch buffer [hex]; returns the buffer and the advanced pointer. *)
Fixpoint ToHexString_chunk (k : nat) (p : list byte) : string * list byte :=
  match k, p with
  | S k', b :: p' =>
      let c := uchar_to_int b in
      let '(hex, rest) := ToHexString_chunk k' p' in
      (String (char_at hexc (Z.to_nat (Z.shiftr c 4)))
         (String (char_at hexc (Z.to_nat (Z.land c 15))) hex), rest)
  | _, _ => (EmptyString, p)
  end.

(** The outer loop: one 64-byte chunk per iteration while bytes remain. *)
Fixpoint ToHexString_loop (fuel : nat) (p : list byte) (strHex : string) : string :=
  match fuel with
  | O => strHex
  | S fuel' =>
      match p with
      | [] => strHex
      | _ :: _ =>
          let '(hex, p') := ToHexString_chunk 64 p in
          ToHexString_loop fuel' p' (strHex ++ hex)
      end
  end.

(** [ToHexString(const std::vector<unsigned char>&)]. *)
Definition ToHexString (vch : list byte) : string :=
  match vch with
  | [] => EmptyString
  | _ :: _ => ToHexString_loop (length vch) vch "0x"
  end.

(** [int CharToHex(char c)] *)
Definition CharToHex (c : ascii) : Z :=
  let c := char_to_int c in
  if (char_to_int "0" <=? c) && (c <=? char_to_int "9") then c - char_to_int "0"
  else if (char_to_int "a" <=? c) && (c <=? char_to_int "f") then c - char_to_int "a" + 10
  else if (char_to_int "A" <=? c) && (c <=? char_to_int "F") then c - char_to_int "A" + 10
  else -1.

(** The loop of [ParseHexString(const char* )]: two characters per round; the
    second read of a round may hit the terminator, which is no hex digit. *)
Fixpoint ParseHexString_loop (psz : string) (vch : list byte) : list byte :=
  match psz with
  | EmptyString => vch
  | String c1 psz1 =>
      if Ascii.eqb c1 NUL then vch
      else
        let h := CharToHex c1 in
        match psz1 with
        | EmptyString =>
            let l := CharToHex NUL in
            if (h <? 0) || (l <? 0) then vch
            else vch ++ [to_uchar (Z.lor (Z.shiftl h 4) l)]
        | String c2 psz2 =>
            let l := CharToHex c2 in
            if (h <? 0) || (l <? 0) then vch
            else ParseHexString_loop psz2 (vch ++ [to_uchar (Z.lor (Z.shiftl h 4) l)])
        end
  end.

(** [psz[0] == '0' && tolower(psz[1]) == 'x'] *)
Definition has_0x (psz : string) : bool :=
  Ascii.eqb (char_at psz 0) "0"
  && (tolower (char_to_int (char_at psz 1)) =? char_to_int "x").

(** [psz + n] for a pointer into a C string. *)
Fixpoint ptr_add (psz : string) (n : nat) {struct n} : string :=
  match n, psz with
  | S n', String _ psz' => ptr_add psz' n'
  | _, _ => psz
  end.

(** [std::vector<unsigned char> ParseHexString(const char* psz)] *)
Definition ParseHexString (psz : string) : list byte :=
  let psz := if has_0x psz then ptr_add psz 2 else psz in
  ParseHexString_loop psz [].

(** *** What the decoder is said to compute *)

(** Hex digits and their values, by position in the digit alphabets. *)
Fixpoint index_of (c : ascii) (s : string) : option nat :=
  match s with
  | EmptyString => None
  | String d s' => if Ascii.eqb c d then Some O else S <$> index_of c s'
  end.

(** The value of a hex digit, [None] for any other character. *)
Definition hex_digit_value (c : ascii) : option Z :=
  match index_of c "0123456789abcdef" with
  | Some i => Some (Z.of_nat i)
  | None => Z.of_nat <$> index_of c "0123456789ABCDEF"
  end.

(** One of the characters [0-9a-fA-F]. *)
Definition is_hex_digit (c : ascii) : bool := bool_decide (is_Some (hex_digit_value c)).

(** The input without an optional leading "0x" or "0X". *)
Definition strip_0x (s : string) : string :=
  match s with
  | String "0" (String "x" r) => r
  | String "0" (String "X" r) => r
  | _ => s
  end.

(** The characters before the first one that is no hex digit. *)
Fixpoint hex_run (s : string) : list ascii :=
  match s with
  | EmptyString => []
  | String c s' => if is_hex_digit c then c :: hex_run s' else []
  end.

(** The bytes of the complete digit pairs; a last single digit is dropped. *)
Fixpoint whole_bytes (ds : list ascii) : list byte :=
  match ds with
  | d1 :: d2 :: ds' =>
      to_uchar (16 * default 0 (hex_digit_value d1) + default 0 (hex_digit_value d2))
      :: whole_bytes ds'
  | _ => []
  end.

(** The numbers the complete digit pairs spell, sixteen times the first
    digit plus the second; a last single digit is dropped. *)
Fixpoint pair_values (ds : list ascii) : list Z :=
  match ds with
  | d1 :: d2 :: ds' =>
      (16 * default 0 (hex_digit_value d1) + default 0 (hex_digit_value d2)) :: pair_values ds'
  | _ => []
  end.

(** Bytes read as the numbers 0 to 255. *)
Definition byte_values (bs : list byte) : list Z :=
  map (fun b => Z.of_N (Byte.to_N b)) bs.

(** *** What the encoder is said to write *)

(** Two lowercase digits per byte, high nibble first. *)
Fixpoint hex_pairs (bs : list byte) : string :=
  match bs with
  | [] => EmptyString
  | b :: bs' =>
      String (char_at hexc (Z.to_nat (uchar_to_int b / 16)))
        (String (char_at hexc (Z.to_nat (uchar_to_int b mod 16))) (hex_pairs bs'))
  end.

(** One of the characters [0-9a-f]. *)
Definition is_lower_hex (c : ascii) : bool := bool_decide (is_Some (index_of c hexc)).

(** ** util.h: reversing a hex-numeric string *)

(** A character between [lo] and [hi] in code order. *)
Definition in_range (lo hi c : ascii) : bool :=
  ((N_of_ascii lo <=? N_of_ascii c) && (N_of_ascii c <=? N_of_ascii hi))%N.

(** The complement of the bracket expression [[^0-9a-fA-Fx-xX-X]]. *)
Definition hex_numeric_class (c : ascii) : bool :=
  in_range "0" "9" c || in_range "a" "f" c || in_range "A" "F" c
  || in_range "x" "x" c || in_range "X" "X" c.

(** [std::regex_search(str, sm, r)] for [r = [^0-9a-fA-Fx-xX-X]+]: a match
    exists iff some character lies outside the class. *)
Fixpoint regex_search_non_hex (str : string) : bool :=
  match str with
  | EmptyString => false
  | String c str' => negb (hex_numeric_class c) || regex_search_non_hex str'
  end.

(** [bool isHexNumeric(std::string const& str)] *)
Definition isHexNumeric (str : string) : bool :=
  match str with
  | EmptyString => false
  | _ => if regex_search_non_hex str then false else true
  end.

(** [s[i] = c] on a [std::string]; [None] stands for a write out of range. *)
Definition str_store (s : list ascii) (i : nat) (c : ascii) : option (list ascii) :=
  if decide (i < length s)%nat then Some (<[i:=c]> s) else None.

(** The loop of [ReverseHexNumericString].  [e >= 2] holds where [e - 1] and
    [e -= 2] are computed, so the [size_t] arithmetic never wraps. *)
Fixpoint ReverseHexNumericString_loop (fuel : nat) (strIn strOut : list ascii) (b e : nat)
  : option (list ascii) :=
  match fuel with
  | O => None
  | S fuel' =>
      if (2 <=? e)%nat then
        c ← strIn !! e;
        strOut ← str_store strOut (b + 1) c;
        if (e - 1 <? 2)%nat then str_store strOut b "0"%char
        else
          c' ← strIn !! (e - 1)%nat;
          strOut ← str_store strOut b c';
          ReverseHexNumericString_loop fuel' strIn strOut (b + 2) (e - 2)
      else Some strOut
  end.

(** [strIn.size() >= 2 && strIn[0] == '0' && tolower(strIn[1]) == 'x'] *)
Definition has_0x_sized (strIn : string) : bool :=
  (2 <=? String.length strIn)%nat && has_0x strIn.

(** [std::string ReverseHexNumericString(const std::string& strIn)]; [None]
    would be an access out of range or a loop that outlives its fuel. *)
Definition ReverseHexNumericString (strIn : string) : option string :=
  if negb (isHexNumeric strIn) then Some EmptyString
  else if negb (has_0x_sized strIn) then Some EmptyString
  else
    let size := String.length strIn in
    let strOut := replicate (size + size mod 2) NUL in
    strOut ← str_store strOut 0 "0"%char;
    strOut ← str_store strOut 1 "x"%char;
    string_of_list_ascii
      <$> ReverseHexNumericString_loop size (list_ascii_of_string strIn) strOut 2 (size - 1).

(** *** What the reversal is said to compute *)

(** The digits taken two at a time. *)
Fixpoint digit_pairs (ds : list ascii) : list (ascii * ascii) :=
  match ds with
  | d1 :: d2 :: ds' => (d1, d2) :: digit_pairs ds'
  | _ => []
  end.

(** The pairs written out again, in the order given. *)
Definition unpair (ps : list (ascii * ascii)) : list ascii :=
  flat_map (fun p => [fst p; snd p]) ps.

(** An odd run of digits gets a leading "0". *)
Definition zero_pad (ds : list ascii) : list ascii :=
  if Nat.odd (length ds) then "0"%char :: ds else ds.

(** The digits, zero-padded to whole bytes, with the bytes in reverse order. *)
Definition byte_reverse (ds : list ascii) : list ascii :=
  unpair (rev (digit_pairs (zero_pad ds))).

(** The characters [isHexNumeric] lets through. *)
Definition accepted_char (c : ascii) : bool :=
  bool_decide (is_Some (index_of c "0123456789abcdefABCDEFxX")).

(** The string starts with "0x" or "0X". *)
Definition starts_with_0x (s : string) : Prop :=
  exists r : string, s = String "0" (String "x" r) \/ s = String "0" (String "X" r).

(** ** util.h: reversing the byte order of a hex string *)

(** [std::swap_ranges(first1, first1 + n, first2)] within one string, by
    position; [None] stands for an access out of range. *)
Fixpoint swap_ranges (s : list ascii) (first1 n first2 : nat) : option (list ascii) :=
  match n with
  | O => Some s
  | S n' =>
      x ← s !! first1;
      y ← s !! first2;
      swap_ranges (<[first2:=x]> (<[first1:=y]> s)) (S first1) n' (S first2)
  end.

(** The loop of [ReverseHexString]: [itBegin] and [itEnd] as offsets from
    [strOut.begin()]. *)
Fixpoint ReverseHexString_loop (fuel : nat) (strOut : list ascii) (itBegin itEnd : nat)
  : option (list ascii) :=
  match fuel with
  | O => None
  | S fuel' =>
      if (itBegin <? itEnd)%nat then
        strOut ← swap_ranges strOut itBegin 2 itEnd;
        ReverseHexString_loop fuel' strOut (itBegin + 2) (itEnd - 2)
      else Some strOut
  end.

(** [std::string ReverseHexString(const std::string& strIn)]; [None] would be
    an access out of range or a loop that outlives its fuel. *)
Definition ReverseHexString (strIn : string) : option string :=
  let size := String.length strIn in
  if negb (size mod 2 =? 0)%nat || negb (has_0x_sized strIn) then Some EmptyString
  else
    string_of_list_ascii
      <$> ReverseHexString_loop size (list_ascii_of_string strIn) 2 (size - 2).

(** The characters taken two at a time, the pairs in reverse order. *)
Definition pair_reverse (ds : list ascii) : list ascii := unpair (rev (digit_pairs ds)).

(** "0x" in place of the first two characters. *)
Definition lower_prefix (s : string) : string :=
  match s with
  | String _ (String _ r) => String "0" (String "x" r)
  | _ => s
  end.

(** ** util.h: decoding hex into a caller's buffer *)

(** [*p = b] for a pointer at offset [i] of a buffer; [None] stands for a
    write outside the buffer. *)
Definition buf_store (buf : list byte) (i : nat) (b : byte) : option (list byte) :=
  if decide (i < length buf)%nat then Some (<[i:=b]> buf) else None.

(** The loop of [ParseHexString(const char*, unsigned char*, size_t)]: the
    buffer is the [n] bytes from the [p] of the call, the pointer [p] is an
    offset into it, [end] is its length. *)
Fixpoint ParseHexString_into_loop (psz : string) (buf : list byte) (p : nat)
  : option (list byte * nat) :=
  match psz with
  | EmptyString => Some (buf, p)
  | String c1 psz1 =>
      if Ascii.eqb c1 NUL || (p =? length buf)%nat then Some (buf, p)
      else
        let h := CharToHex c1 in
        match psz1 with
        | EmptyString =>
            let l := CharToHex NUL in
            if (h <? 0) || (l <? 0) then Some (buf, p)
            else
              buf ← buf_store buf p (to_uchar (Z.lor (Z.shiftl h 4) l));
              Some (buf, S p)
        | String c2 psz2 =>
            let l := CharToHex c2 in
            if (h <? 0) || (l <? 0) then Some (buf, p)
            else
              buf ← buf_store buf p (to_uchar (Z.lor (Z.shiftl h 4) l));
              ParseHexString_into_loop psz2 buf (S p)
        end
  end.

(** [std::size_t ParseHexString(const char* psz, unsigned char* p, std::size_t n)]:
    the count returned and the buffer as the call leaves it. *)
Definition ParseHexString_into (psz : string) (buf : list byte) : option (nat * list byte) :=
  let n := length buf in
  let psz := if (2 <=? n)%nat && has_0x psz then ptr_add psz 2 else psz in
  '(buf, p) ← ParseHexString_into_loop psz buf 0;
  Some ((n - (n - p))%nat, buf).

(** ** util.h: fixed-width hex of an unsigned integer *)

(** [strcpy(dst + i, src)] into a [char] array: the characters of [src] and
    the terminator; [None] stands for a write outside the array. *)
Fixpoint strcpy (dst : list ascii) (i : nat) (src : string) : option (list ascii) :=
  match src with
  | EmptyString => str_store dst i NUL
  | String c src' => dst ← str_store dst i c; strcpy dst (S i) src'
  end.

(** [std::string(const char* )] of a [char] array: the characters before the
    first NUL; [None] stands for an array without one, a read past its end. *)
Fixpoint string_of_c_str (hex : list ascii) : option string :=
  match hex with
  | [] => None
  | c :: hex' => if Ascii.eqb c NUL then Some EmptyString else String c <$> string_of_c_str hex'
  end.

(** The loop of [UIntToHexString<T>], for a [T] of [sizeof_T] bytes. *)
Fixpoint UIntToHexString_loop (fuel sizeof_T : nat) (t : Z) (hex : list ascii) (i : nat)
  : option (list ascii) :=
  match fuel with
  | O => None
  | S fuel' =>
      if (i <? sizeof_T)%nat then
        let byte := Z.land (Z.shiftr t (Z.of_nat ((sizeof_T - i - 1) * 8))) 0xFF in
        hex ← str_store hex (2 + i * 2) (char_at hexc (Z.to_nat (Z.shiftr byte 4)));
        hex ← str_store hex (2 + i * 2 + 1) (char_at hexc (Z.to_nat (Z.land byte 15)));
        UIntToHexString_loop fuel' sizeof_T t hex (S i)
      else Some hex
  end.

(** [template <typename T> std::string UIntToHexString(const T& t)]; [hex] is
    the array [char hex[sizeof(T) * 2 + 2 + 1]] as the function finds it. *)
Definition UIntToHexString (sizeof_T : nat) (t : Z) (hex : list ascii) : option string :=
  hex ← strcpy hex 0 "0x";
  hex ← UIntToHexString_loop (S sizeof_T) sizeof_T t hex 0;
  hex ← str_store hex (2 + sizeof_T * 2) NUL;
  string_of_c_str hex.

(** The [k] bytes of [t], most significant first, and the number they spell. *)
Definition be_bytes (k : nat) (t : Z) : list byte :=
  map (fun i => to_uchar (t / 256 ^ Z.of_nat (k - 1 - i))) (seq 0 k).

Definition be_value (bs : list byte) : Z :=
  fold_left (fun acc b => 256 * acc + uchar_to_int b) bs 0.

(** ** util.h: decimal strings *)

(** [std::isdigit] in the C locale. *)
Definition isdigit (c : ascii) : bool := in_range "0" "9" c.

(** [std::find_if(s.begin(), s.end(), pred)], as an offset from [s.begin()];
    [s.end()] is the length. *)
Fixpoint find_if (pred : ascii -> bool) (s : string) : nat :=
  match s with
  | EmptyString => 0
  | String c s' => if pred c then 0 else S (find_if pred s')
  end.

(** [bool IsNumber(const std::string& s)] *)
Definition IsNumber (s : string) : bool :=
  negb (String.length s =? 0)%nat
  && (find_if (fun c => negb (isdigit c)) s =? String.length s)%nat.

(** [c] occurs in [chars]. *)
Fixpoint char_in (c : ascii) (chars : string) : bool :=
  match chars with
  | EmptyString => false
  | String d chars' => Ascii.eqb c d || char_in c chars'
  end.

(** [str.find_first_not_of(chars)]; [None] is [std::string::npos]. *)
Fixpoint find_first_not_of (str chars : string) : option nat :=
  match str with
  | EmptyString => None
  | String c str' =>
      if char_in c chars then S <$> find_first_not_of str' chars else Some O
  end.

(** [bool isNumeric(std::string const& str)] *)
Definition isNumeric (str : string) : bool :=
  negb (String.length str =? 0)%nat
  && bool_decide (find_first_not_of str "0123456789" = None).

(** A decimal digit, by character code. *)
Definition decimal_digit (c : ascii) : Prop := (48 <= N_of_ascii c <= 57)%N.

(** ** util.h: hex of a number through [sprintf], and back through [stoll] *)

(** The conversion [%x] of [printf] for a number of at most [digits] hex
    digits: lowercase, most significant digit first, no leading zeros, "0"
    for zero. *)
Fixpoint printf_x (digits : nat) (n : Z) : string :=
  match digits with
  | O => EmptyString
  | S d =>
      (if n / 16 =? 0 then EmptyString else printf_x d (n / 16))
      +:+ String (char_at hexc (Z.to_nat (n mod 16))) EmptyString
  end.

(** [std::string ToHexString(const uint32 n)]: [sprintf(obuf, "0x%x", n)]. *)
Definition ToHexString_uint32 (n : Z) : string := "0x" +:+ printf_x 8 n.

(** [std::string ToHexString(const uint64 n)]: [sprintf(obuf, "0x%lx", n)]. *)
Definition ToHexString_uint64 (n : Z) : string := "0x" +:+ printf_x 16 n.

(** [isspace] in the C locale: space, and the controls 9 to 13. *)
Definition isspace (c : ascii) : bool :=
  Ascii.eqb c " " || ((9 <=? N_of_ascii c) && (N_of_ascii c <=? 13))%N.

Fixpoint skip_spaces (s : string) : string :=
  match s with
  | String c s' => if isspace c then skip_spaces s' else s
  | EmptyString => s
  end.

(** What [std::stoll] does: return a value, or throw one of two exceptions. *)
Inductive stoll_result := stoll_value (v : Z) | invalid_argument | out_of_range.

Definition LLONG_MAX : Z := 2 ^ 63 - 1.
Definition LLONG_MIN : Z := - 2 ^ 63.

(** The number a run of hex digits spells. *)
Definition hex_value (ds : list ascii) : Z :=
  fold_left (fun acc d => 16 * acc + default 0 (hex_digit_value d)) ds 0.

(** [std::stoll(str, nullptr, 16)], that is [strtoll] in base 16: white space,
    an optional sign, an optional "0x" or "0X" when a hex digit follows it,
    then the longest run of hex digits.  No digit at all is
    [invalid_argument], a value outside [long long] is [out_of_range]. *)
Definition stoll_16 (str : string) : stoll_result :=
  let s := skip_spaces str in
  let '(negative, s) :=
    match s with
    | String "-" r => (true, r)
    | String "+" r => (false, r)
    | _ => (false, s)
    end in
  let s :=
    match s with
    | String "0" (String x (String d r)) =>
        if (Ascii.eqb x "x" || Ascii.eqb x "X") && is_hex_digit d then String d r else s
    | _ => s
    end in
  match hex_run s with
  | [] => invalid_argument
  | ds =>
      let v := if negative : bool then - hex_value ds else hex_value ds in
      if (v <? LLONG_MIN) || (LLONG_MAX <? v) then out_of_range else stoll_value v
  end.

(** [uint64 ParseNumericHexString(const std::string& str)]: the value of
    [stoll] converted to [uint64], or the exception that [stoll] throws. *)
Definition ParseNumericHexString (str : string) : stoll_result :=
  match stoll_16 str with
  | stoll_value v => stoll_value (to_uint64 v)
  | e => e
  end.

(** The byte that two hex digits spell. *)
Definition byte_of_pair (p : ascii * ascii) : byte :=
  to_uchar (16 * default 0 (hex_digit_value (fst p)) + default 0 (hex_digit_value (snd p))).

(** The two hex digits of a byte. *)
Definition byte_digits (b : byte) : ascii * ascii :=
  (char_at hexc (Z.to_nat (uchar_to_int b / 16)), char_at hexc (Z.to_nat (uchar_to_int b mod 16))).

(** ** util.h: what the embedded functions satisfy *)

(** *** Byte swaps: bit-level reasoning *)

Lemma testbit_small (m : Z) (k : nat) (i : Z) :
  0 <= m < 2 ^ Z.of_nat k -> Z.of_nat k <= i -> Z.testbit m i = false.
Proof.
  intros [H0 H1] Hi.
  destruct (Z.eq_dec m 0) as [->|Hm]; [apply Z.bits_0|].
  apply Z.bits_above_log2; [lia|].
  assert (Z.log2 m < Z.of_nat k); [|lia].
  apply Z.log2_lt_pow2; lia.
Qed.

Lemma bits_below_spec (k : nat) (P : Z -> Prop) :
  bits_below k P -> forall i, 0 <= i < Z.of_nat k -> P i.
Proof.
  induction k as [|k IH]; simpl; intros H i Hi; [lia|].
  destruct H as [Hk H].
  destruct (Z.eq_dec i (Z.of_nat k)) as [->|]; [exact Hk|].
  apply IH; [exact H|lia].
Qed.

Lemma lt_pow2_of_bits (k : nat) (a : Z) :
  0 <= a -> (forall i, Z.of_nat k <= i -> Z.testbit a i = false) -> a < 2 ^ Z.of_nat k.
Proof.
  intros H0 H.
  assert (E : a = a mod 2 ^ Z.of_nat k).
  { apply Z.bits_inj'. intros i Hi.
    destruct (Z_lt_le_dec i (Z.of_nat k)).
    - now rewrite Z.mod_pow2_bits_low by lia.
    - rewrite Z.mod_pow2_bits_high by lia. auto. }
  rewrite E. apply Z.mod_pos_bound. lia.
Qed.

Ltac bit_step :=
  first
    [ rewrite Z.lor_spec
    | rewrite Z.land_spec
    | rewrite Z.shiftr_spec by lia
    | rewrite Z.shiftl_spec by lia
    | rewrite Z.mod_pow2_bits_low by lia
    | rewrite Z.mod_pow2_bits_high by lia
    | rewrite Z.testbit_neg_r by lia ].

Ltac bits := unfold to_uint16, to_uint32, to_uint64; repeat bit_step.

Ltac bool_tidy :=
  repeat rewrite ?andb_false_r, ?andb_true_r, ?orb_false_r, ?orb_false_l.

Lemma flip_byte_range (w i : Z) : 0 <= i < 8 * w -> 0 <= flip_byte w i < 8 * w.
Proof. unfold flip_byte. intros H. Z.div_mod_to_equations. lia. Qed.

Lemma flip_byte_involutive (w i : Z) : 0 <= i < 8 * w -> flip_byte w (flip_byte w i) = i.
Proof. unfold flip_byte. intros H. Z.div_mod_to_equations. lia. Qed.

(** Each swap moves bit [i] to the mirrored byte and leaves nothing above the
    word. *)

Lemma BSwap16_bits (n : Z) :
  bits_below 16 (fun i => Z.testbit (BSwap16 n) i = Z.testbit n (flip_byte 2 i)).
Proof.
  unfold BSwap16. cbn [bits_below]. repeat split; bits; cbn; bool_tidy; reflexivity.
Qed.

Lemma BSwap16_bit (n i : Z) :
  0 <= i < 16 -> Z.testbit (BSwap16 n) i = Z.testbit n (flip_byte 2 i).
Proof. intros Hi. apply (bits_below_spec 16 _ (BSwap16_bits n)). exact Hi. Qed.

Lemma BSwap16_high (n i : Z) : 16 <= i -> Z.testbit (BSwap16 n) i = false.
Proof.
  intros Hi. unfold BSwap16, to_uint32.
  destruct (Z_lt_le_dec i 32).
  - rewrite Z.mod_pow2_bits_low by lia. bits.
    rewrite (testbit_small 0x00FF 8), (testbit_small 0xFF00 16) by (cbn; lia).
    now rewrite !andb_false_r.
  - now rewrite Z.mod_pow2_bits_high by lia.
Qed.

Lemma BSwap32_bits (n : Z) :
  bits_below 32 (fun i => Z.testbit (BSwap32 n) i = Z.testbit n (flip_byte 4 i)).
Proof.
  unfold BSwap32. cbn [bits_below]. repeat split; bits; cbn; bool_tidy; reflexivity.
Qed.

Lemma BSwap32_bit (n i : Z) :
  0 <= i < 32 -> Z.testbit (BSwap32 n) i = Z.testbit n (flip_byte 4 i).
Proof. intros Hi. apply (bits_below_spec 32 _ (BSwap32_bits n)). exact Hi. Qed.

Lemma BSwap32_high (n i : Z) : 32 <= i -> Z.testbit (BSwap32 n) i = false.
Proof.
  intros Hi. unfold BSwap32. bits.
  rewrite (testbit_small 0x00FF0000 32), (testbit_small 0xFF000000 32) by (cbn; lia).
  now rewrite !andb_false_r.
Qed.

Lemma BSwap64_bits (n : Z) :
  bits_below 64 (fun i => Z.testbit (BSwap64 n) i = Z.testbit n (flip_byte 8 i)).
Proof.
  unfold BSwap64. cbv zeta. cbn [bits_below]. repeat split; bits; cbn; bool_tidy; reflexivity.
Qed.

Lemma BSwap64_bit (n i : Z) :
  0 <= i < 64 -> Z.testbit (BSwap64 n) i = Z.testbit n (flip_byte 8 i).
Proof. intros Hi. apply (bits_below_spec 64 _ (BSwap64_bits n)). exact Hi. Qed.

Lemma BSwap64_high (n i : Z) : 64 <= i -> Z.testbit (BSwap64 n) i = false.
Proof.
  intros Hi. unfold BSwap64. cbv zeta. bits.
  rewrite (testbit_small 0xffff0000ffff0000 64) by (cbn; lia).
  now rewrite !andb_false_r.
Qed.

Lemma BSwap16_range (n : Z) : 0 <= BSwap16 n < 2 ^ 16.
Proof.
  assert (H0 : 0 <= BSwap16 n) by (unfold BSwap16, to_uint32; apply Z.mod_pos_bound; lia).
  split; [exact H0|].
  apply (lt_pow2_of_bits 16); [exact H0|]. intros i Hi. apply BSwap16_high. lia.
Qed.

Lemma swap_involutive (w : nat) (f : Z -> Z) :
  (forall n i, 0 <= i < 8 * Z.of_nat w -> Z.testbit (f n) i = Z.testbit n (flip_byte (Z.of_nat w) i)) ->
  (forall n i, 8 * Z.of_nat w <= i -> Z.testbit (f n) i = false) ->
  forall n, 0 <= n < 2 ^ Z.of_nat (8 * w) -> f (f n) = n.
Proof.
  intros Hbit Hhigh n Hn. apply Z.bits_inj'. intros i Hi.
  destruct (Z_lt_le_dec i (8 * Z.of_nat w)) as [Hlt|Hge].
  - rewrite !Hbit by (try apply flip_byte_range; lia).
    now rewrite flip_byte_involutive by lia.
  - rewrite Hhigh by lia. symmetry.
    apply (testbit_small n (8 * w)); [exact Hn|lia].
Qed.

(** C9. Each byte swap is an involution on its word: swapping a 16-bit value
    twice (the intermediate [uint32] result truncated to the [uint16]
    parameter) gives the value back, and so do two 32-bit and two 64-bit
    swaps. *)
Theorem BSwap_involutive :
  (forall n, 0 <= n < 2 ^ 16 -> BSwap16 (to_uint16 (BSwap16 n)) = n) /\
  (forall n, 0 <= n < 2 ^ 32 -> BSwap32 (BSwap32 n) = n) /\
  (forall n, 0 <= n < 2 ^ 64 -> BSwap64 (BSwap64 n) = n).
Proof.
  split; [|split].
  - intros n Hn.
    assert (E : to_uint16 (BSwap16 n) = BSwap16 n).
    { unfold to_uint16. apply Z.mod_small, BSwap16_range. }
    rewrite E. apply (swap_involutive 2 BSwap16); auto using BSwap16_bit, BSwap16_high.
  - apply (swap_involutive 4 BSwap32); auto using BSwap32_bit, BSwap32_high.
  - apply (swap_involutive 8 BSwap64); auto using BSwap64_bit, BSwap64_high.
Qed.

Lemma BSwap_involutive_witness :
  BSwap16 (to_uint16 (BSwap16 0x1234)) = 0x1234 /\
  BSwap32 (BSwap32 0x12345678) = 0x12345678 /\
  BSwap64 (BSwap64 0x0123456789abcdef) = 0x0123456789abcdef.
Proof.
  destruct BSwap_involutive as (H16 & H32 & H64).
  split; [|split]; [apply H16|apply H32|apply H64]; lia.
Defined.

Example BSwap16_example : BSwap16 0x1234 = 0x3412.
Proof. reflexivity. Qed.

Example BSwap32_example : BSwap32 0x12345678 = 0x78563412.
Proof. reflexivity. Qed.

Example BSwap64_example : BSwap64 0x0123456789abcdef = 0xefcdab8967452301.
Proof. reflexivity. Qed.

(** *** The hex decoder *)

Example ToHexString_three_bytes : ToHexString [x01; xab; xff] = "0x01abff"%string. Proof. reflexivity. Qed.
Example ParseHexString_upper_prefix : ParseHexString "0X01aBfg12" = [x01; xab]. Proof. reflexivity. Qed.
Example ParseHexString_odd_digits : ParseHexString "01aBf" = [x01; xab]. Proof. reflexivity. Qed.
Example ParseHexString_single_digit : ParseHexString "0" = []. Proof. reflexivity. Qed.

Lemma CharToHex_spec (c : ascii) :
  CharToHex c = default (-1) (hex_digit_value c).
Proof. destruct c as [[] [] [] [] [] [] [] []]; reflexivity. Qed.

Lemma is_hex_digit_CharToHex (c : ascii) : is_hex_digit c = negb (CharToHex c <? 0).
Proof. destruct c as [[] [] [] [] [] [] [] []]; reflexivity. Qed.

Lemma CharToHex_range (c : ascii) : -1 <= CharToHex c < 16.
Proof. destruct c as [[] [] [] [] [] [] [] []]; vm_compute; split; congruence. Qed.

Lemma NUL_not_hex (c : ascii) : Ascii.eqb c NUL = true -> is_hex_digit c = false.
Proof. intros ->%Ascii.eqb_eq. reflexivity. Qed.

Lemma nibbles_lor (h l : Z) : 0 <= h < 16 -> 0 <= l < 16 -> Z.lor (Z.shiftl h 4) l = 16 * h + l.
Proof.
  intros Hh Hl.
  assert (Eh : h = 0 \/ h = 1 \/ h = 2 \/ h = 3 \/ h = 4 \/ h = 5 \/ h = 6 \/ h = 7 \/ h = 8
               \/ h = 9 \/ h = 10 \/ h = 11 \/ h = 12 \/ h = 13 \/ h = 14 \/ h = 15) by lia.
  assert (El : l = 0 \/ l = 1 \/ l = 2 \/ l = 3 \/ l = 4 \/ l = 5 \/ l = 6 \/ l = 7 \/ l = 8
               \/ l = 9 \/ l = 10 \/ l = 11 \/ l = 12 \/ l = 13 \/ l = 14 \/ l = 15) by lia.
  repeat (destruct Eh as [->|Eh]); try subst h; repeat (destruct El as [->|El]); try subst l; reflexivity.
Qed.

Lemma decode_pair (c1 c2 : ascii) :
  is_hex_digit c1 = true -> is_hex_digit c2 = true ->
  to_uchar (Z.lor (Z.shiftl (CharToHex c1) 4) (CharToHex c2))
  = to_uchar (16 * default 0 (hex_digit_value c1) + default 0 (hex_digit_value c2)).
Proof.
  intros H1 H2.
  pose proof (CharToHex_range c1) as R1. pose proof (CharToHex_range c2) as R2.
  rewrite is_hex_digit_CharToHex in H1, H2.
  apply negb_true_iff, Z.ltb_ge in H1, H2.
  rewrite nibbles_lor by lia.
  rewrite !CharToHex_spec in *.
  destruct (hex_digit_value c1), (hex_digit_value c2); simpl in *; try lia; reflexivity.
Qed.

Lemma ParseHexString_loop_spec (psz : string) :
  forall vch, ParseHexString_loop psz vch = vch ++ whole_bytes (hex_run psz).
Proof.
  enough (H : (forall vch, ParseHexString_loop psz vch = vch ++ whole_bytes (hex_run psz))
              /\ (forall c vch, ParseHexString_loop (String c psz) vch
                                = vch ++ whole_bytes (hex_run (String c psz)))) by apply H.
  induction psz as [|c2 psz [IH1 IH2]].
  - split; intros; simpl; [now rewrite app_nil_r|].
    destruct (Ascii.eqb c NUL) eqn:E0.
    + rewrite (NUL_not_hex _ E0). now rewrite app_nil_r.
    + rewrite orb_true_r. destruct (is_hex_digit c); simpl; now rewrite app_nil_r.
  - split; [apply IH2|]. intros c1 vch.
    cbn [ParseHexString_loop hex_run].
    destruct (Ascii.eqb c1 NUL) eqn:E0.
    { rewrite (NUL_not_hex _ E0). now rewrite app_nil_r. }
    rewrite (is_hex_digit_CharToHex c1), (is_hex_digit_CharToHex c2).
    destruct (CharToHex c1 <? 0) eqn:E1; simpl; [now rewrite app_nil_r|].
    destruct (CharToHex c2 <? 0) eqn:E2; simpl; [now rewrite app_nil_r|].
    rewrite IH1, <- app_assoc. simpl. f_equal. f_equal.
    apply decode_pair; rewrite is_hex_digit_CharToHex; [rewrite E1|rewrite E2]; reflexivity.
Qed.

Lemma skip_prefix_spec (psz : string) :
  (if has_0x psz then ptr_add psz 2 else psz) = strip_0x psz.
Proof.
  destruct psz as [|c0 [|c1 r]].
  - reflexivity.
  - destruct c0 as [[] [] [] [] [] [] [] []]; reflexivity.
  - destruct c0 as [[] [] [] [] [] [] [] []]; try reflexivity.
    destruct c1 as [[] [] [] [] [] [] [] []]; reflexivity.
Qed.

Lemma strip_0x_digits (d1 d2 : ascii) (r : string) :
  is_hex_digit d2 = true -> strip_0x (String d1 (String d2 r)) = String d1 (String d2 r).
Proof.
  intros H.
  destruct d1 as [[] [] [] [] [] [] [] []]; try reflexivity.
  destruct d2 as [[] [] [] [] [] [] [] []]; try reflexivity; discriminate H.
Qed.

Lemma strip_0x_not_digit (c : ascii) (r : string) :
  is_hex_digit c = false -> strip_0x (String c r) = String c r.
Proof.
  intros H. destruct c as [[] [] [] [] [] [] [] []]; try reflexivity; discriminate H.
Qed.

Lemma hex_run_digits (ds : list ascii) (c : ascii) (rest : string) :
  Forall (fun d => is_hex_digit d = true) ds -> is_hex_digit c = false ->
  hex_run (string_of_list_ascii ds ++ String c rest) = ds.
Proof.
  intros Hds Hc. induction Hds as [|d ds Hd _ IH]; simpl.
  - now rewrite Hc.
  - rewrite Hd. now f_equal.
Qed.

Lemma whole_bytes_length (ds : list ascii) :
  length (whole_bytes ds) = Nat.div2 (length ds).
Proof.
  enough (H : length (whole_bytes ds) = Nat.div2 (length ds)
              /\ forall d, length (whole_bytes (d :: ds)) = Nat.div2 (length (d :: ds))) by apply H.
  induction ds as [|d' ds [IH1 IH2]]; [split; reflexivity|].
  split; [apply IH2|]. intros d. simpl. now rewrite IH1.
Qed.

Lemma ParseHexString_whole_bytes (s : string) :
  ParseHexString s = whole_bytes (hex_run (strip_0x s)).
Proof. unfold ParseHexString. now rewrite skip_prefix_spec, ParseHexString_loop_spec. Qed.

Lemma hex_run_Forall (s : string) : Forall (fun d => is_hex_digit d = true) (hex_run s).
Proof.
  induction s as [|c s IH]; cbn [hex_run]; [constructor|].
  destruct (is_hex_digit c) eqn:E; constructor; assumption.
Qed.

Lemma hex_digit_value_range (c : ascii) :
  is_hex_digit c = true -> 0 <= default 0 (hex_digit_value c) < 16.
Proof.
  intros H. pose proof (CharToHex_range c) as R.
  rewrite is_hex_digit_CharToHex in H. apply negb_true_iff, Z.ltb_ge in H.
  rewrite CharToHex_spec in *.
  destruct (hex_digit_value c); simpl in *; lia.
Qed.

Lemma to_uchar_value (x : Z) : 0 <= x < 256 -> Z.of_N (Byte.to_N (to_uchar x)) = x.
Proof.
  intros H. unfold to_uchar. rewrite Z.mod_small by exact H.
  destruct (Byte.of_N (Z.to_N x)) as [b|] eqn:E.
  - apply Byte.to_of_N in E. change (default x00 (Some b)) with b. rewrite E. lia.
  - apply Byte.of_N_None_iff in E. lia.
Qed.

Lemma whole_bytes_values (ds : list ascii) :
  Forall (fun d => is_hex_digit d = true) ds -> byte_values (whole_bytes ds) = pair_values ds.
Proof.
  enough (H : (Forall (fun d => is_hex_digit d = true) ds ->
               byte_values (whole_bytes ds) = pair_values ds)
              /\ forall d, Forall (fun d => is_hex_digit d = true) (d :: ds) ->
                           byte_values (whole_bytes (d :: ds)) = pair_values (d :: ds))
    by apply H.
  induction ds as [|d2 ds [IH1 IH2]]; [split; reflexivity|].
  split; [apply IH2|]. intros d1 Hall.
  apply Forall_cons in Hall as [H1 Hall]. apply Forall_cons in Hall as [H2 Hall].
  cbn [whole_bytes pair_values]. unfold byte_values in *. cbn [map].
  rewrite IH1 by exact Hall. f_equal.
  pose proof (hex_digit_value_range d1 H1). pose proof (hex_digit_value_range d2 H2).
  apply to_uchar_value. lia.
Qed.

(** C4. The decoder skips an optional "0x" or "0X", stops at the first
    character that is no hex digit, and returns the bytes of the complete
    digit pairs before it, each byte being sixteen times the first digit of
    its pair plus the second; in particular [n] pairs followed by such a
    character give exactly those [n] bytes, with or without the prefix. *)
Theorem ParseHexString_tolerant :
  (forall s : string,
     byte_values (ParseHexString s) = pair_values (hex_run (strip_0x s))) /\
  (forall (pre : string) (ds : list ascii) (c : ascii) (rest : string) (n : nat),
     pre = ""%string \/ pre = "0x"%string \/ pre = "0X"%string ->
     Forall (fun d => is_hex_digit d = true) ds ->
     length ds = (2 * n)%nat ->
     is_hex_digit c = false ->
     byte_values (ParseHexString (pre ++ string_of_list_ascii ds ++ String c rest))
     = pair_values ds
     /\ length (ParseHexString (pre ++ string_of_list_ascii ds ++ String c rest)) = n).
Proof.
  split.
  { intros s. rewrite ParseHexString_whole_bytes. apply whole_bytes_values, hex_run_Forall. }
  intros pre ds c rest n Hpre Hds Hlen Hc.
  assert (E : ParseHexString (pre ++ string_of_list_ascii ds ++ String c rest) = whole_bytes ds).
  { rewrite ParseHexString_whole_bytes.
    assert (E : strip_0x (pre ++ string_of_list_ascii ds ++ String c rest)
                = (string_of_list_ascii ds ++ String c rest)%string).
    { destruct Hpre as [->|[->| ->]]; [|reflexivity|reflexivity].
      destruct ds as [|d1 [|d2 ds]]; simpl.
      - now apply strip_0x_not_digit.
      - simpl in Hlen. lia.
      - apply strip_0x_digits. inversion Hds as [|? ? _ Hds']. now inversion Hds'. }
    rewrite E. now rewrite hex_run_digits. }
  rewrite E. split; [now apply whole_bytes_values|].
  rewrite whole_bytes_length, Hlen.
  replace (2 * n)%nat with (n + n)%nat by lia. clear. induction n as [|n IH]; [reflexivity|].
  replace (S n + S n)%nat with (S (S (n + n))) by lia. simpl. now f_equal.
Qed.

Lemma ParseHexString_tolerant_witness :
  byte_values (ParseHexString "0x12aBg34") = [0x12; 0xab]
  /\ length (ParseHexString "0x12aBg34") = 2%nat.
Proof.
  exact (proj2 ParseHexString_tolerant "0x"%string ["1"; "2"; "a"; "B"]%char "g"%char
           "34"%string 2%nat (or_intror (or_introl eq_refl))
           ltac:(repeat constructor) eq_refl eq_refl).
Defined.

(** *** The hex encoder and the round trip *)

Lemma string_app_cons (x : ascii) (a b : string) :
  (String x a ++ b)%string = String x (a ++ b).
Proof. reflexivity. Qed.

Lemma string_app_assoc (a b c : string) : ((a ++ b) ++ c = a ++ (b ++ c))%string.
Proof.
  induction a as [|x a IH]; [reflexivity|].
  now rewrite !string_app_cons, IH.
Qed.

Lemma string_app_nil_r (a : string) : (a ++ "")%string = a.
Proof.
  induction a as [|x a IH]; [reflexivity|].
  now rewrite string_app_cons, IH.
Qed.

Lemma hex_pairs_app (bs1 bs2 : list byte) :
  hex_pairs (bs1 ++ bs2) = (hex_pairs bs1 ++ hex_pairs bs2)%string.
Proof.
  induction bs1 as [|b bs1 IH]; [reflexivity|].
  cbn [hex_pairs app]. now rewrite !string_app_cons, IH.
Qed.

Lemma ToHexString_chunk_spec (k : nat) (p : list byte) :
  ToHexString_chunk k p = (hex_pairs (take k p), drop k p).
Proof.
  revert p. induction k as [|k IH]; intros [|b p]; simpl; try reflexivity.
  rewrite IH. f_equal. f_equal; [|f_equal]; f_equal; f_equal.
  - apply Z.shiftr_div_pow2. lia.
  - change 15 with (Z.ones 4). rewrite Z.land_ones by lia. reflexivity.
Qed.

Lemma ToHexString_loop_spec (fuel : nat) :
  forall (p : list byte) (strHex : string),
    (length p <= fuel)%nat ->
    ToHexString_loop fuel p strHex = (strHex ++ hex_pairs p)%string.
Proof.
  induction fuel as [|fuel IH]; intros p strHex Hlen.
  - destruct p; [simpl; now rewrite string_app_nil_r|simpl in Hlen; lia].
  - destruct p as [|b p]; [simpl; now rewrite string_app_nil_r|].
    cbn [ToHexString_loop]. rewrite ToHexString_chunk_spec.
    rewrite IH.
    + rewrite string_app_assoc, <- hex_pairs_app, take_drop. reflexivity.
    + rewrite length_drop. simpl in *. lia.
Qed.

Lemma ToHexString_spec (vch : list byte) :
  ToHexString vch = match vch with [] => EmptyString | _ => ("0x" ++ hex_pairs vch)%string end.
Proof.
  destruct vch as [|b vch]; [reflexivity|].
  unfold ToHexString. now rewrite ToHexString_loop_spec.
Qed.

Lemma ParseHexString_loop_pair (b : byte) (rest : string) (vch : list byte) :
  ParseHexString_loop
    (String (char_at hexc (Z.to_nat (uchar_to_int b / 16)))
       (String (char_at hexc (Z.to_nat (uchar_to_int b mod 16))) rest)) vch
  = ParseHexString_loop rest (vch ++ [b]).
Proof. destruct b; reflexivity. Qed.

Lemma ParseHexString_loop_pairs (bs : list byte) :
  forall vch, ParseHexString_loop (hex_pairs bs) vch = vch ++ bs.
Proof.
  induction bs as [|b bs IH]; intros vch; simpl hex_pairs.
  - simpl. now rewrite app_nil_r.
  - rewrite ParseHexString_loop_pair, IH, <- app_assoc. reflexivity.
Qed.

Lemma hex_pairs_lower (bs : list byte) :
  Forall (fun c => is_lower_hex c = true) (list_ascii_of_string (hex_pairs bs))
  /\ String.length (hex_pairs bs) = (2 * length bs)%nat.
Proof.
  induction bs as [|b bs [IH1 IH2]]; simpl; [split; [constructor|reflexivity]|].
  split.
  - constructor; [destruct b; reflexivity|]. constructor; [destruct b; reflexivity|]. exact IH1.
  - rewrite IH2. lia.
Qed.

(** C10. Encoding a byte vector and decoding the result gives the vector
    back; the encoding of the empty vector is the empty string, and any other
    is "0x" followed by two lowercase hex digits per byte. *)
Theorem ParseHexString_ToHexString :
  forall v : list byte,
    ParseHexString (ToHexString v) = v
    /\ (v = [] -> ToHexString v = EmptyString)
    /\ (v <> [] ->
        exists digits : string,
          ToHexString v = ("0x" ++ digits)%string
          /\ String.length digits = (2 * length v)%nat
          /\ Forall (fun c => is_lower_hex c = true) (list_ascii_of_string digits)).
Proof.
  intros v. rewrite ToHexString_spec. split; [|split].
  - destruct v as [|b v]; [reflexivity|].
    unfold ParseHexString. rewrite skip_prefix_spec.
    change (strip_0x ("0x" ++ hex_pairs (b :: v))) with (hex_pairs (b :: v)).
    now rewrite ParseHexString_loop_pairs.
  - now intros ->.
  - intros Hv. destruct v as [|b v]; [congruence|].
    exists (hex_pairs (b :: v)). destruct (hex_pairs_lower (b :: v)) as [H1 H2]. auto.
Qed.

Example ToHexString_example : ToHexString [x00; x7f; xff] = "0x007fff"%string.
Proof. reflexivity. Qed.

(** *** The reversal of hex-numeric strings *)

Example ReverseHexNumericString_0x9 : ReverseHexNumericString "0x9" = Some "0x09"%string. Proof. reflexivity. Qed.
Example ReverseHexNumericString_0x1234 : ReverseHexNumericString "0x1234" = Some "0x3412"%string. Proof. reflexivity. Qed.
Example ReverseHexNumericString_0x123 : ReverseHexNumericString "0x123" = Some "0x2301"%string. Proof. reflexivity. Qed.
Example ReverseHexNumericString_bare_prefix : ReverseHexNumericString "0x" = Some "0x"%string. Proof. reflexivity. Qed.
Example ReverseHexNumericString_inner_x : ReverseHexNumericString "0x1x3" = Some "0xx301"%string. Proof. reflexivity. Qed.
Example ReverseHexNumericString_bad_char : ReverseHexNumericString "0X1g" = Some ""%string. Proof. reflexivity. Qed.
Example ReverseHexNumericString_no_prefix : ReverseHexNumericString "123" = Some ""%string. Proof. reflexivity. Qed.
Example ReverseHexNumericString_upper_prefix : ReverseHexNumericString "0Xabc" = Some "0xbc0a"%string. Proof. reflexivity. Qed.

Lemma str_store_middle (l1 l2 : list ascii) (x c : ascii) :
  str_store (l1 ++ x :: l2) (length l1) c = Some (l1 ++ c :: l2).
Proof.
  unfold str_store. rewrite decide_True by (rewrite length_app; simpl; lia).
  f_equal. induction l1 as [|y l1 IH]; simpl; [reflexivity|]. now rewrite IH.
Qed.

Lemma digit_pairs_snoc (ds : list ascii) (d1 d2 : ascii) :
  Nat.even (length ds) = true -> digit_pairs (ds ++ [d1; d2]) = digit_pairs ds ++ [(d1, d2)].
Proof.
  enough (H : (Nat.even (length ds) = true ->
               digit_pairs (ds ++ [d1; d2]) = digit_pairs ds ++ [(d1, d2)])
              /\ forall d, Nat.even (length (d :: ds)) = true ->
                   digit_pairs ((d :: ds) ++ [d1; d2]) = digit_pairs (d :: ds) ++ [(d1, d2)])
    by apply H.
  induction ds as [|d' ds [IH1 IH2]].
  - split; [reflexivity|]. intros d H. discriminate H.
  - split; [apply IH2|]. intros d H. cbn [app digit_pairs]. rewrite IH1; [reflexivity|exact H].
Qed.

Lemma byte_reverse_snoc (ds : list ascii) (d1 d2 : ascii) :
  byte_reverse (ds ++ [d1; d2]) = d1 :: d2 :: byte_reverse ds.
Proof.
  unfold byte_reverse, zero_pad. rewrite length_app. cbn [length].
  replace (length ds + 2)%nat with (S (S (length ds))) by lia.
  rewrite Nat.odd_succ_succ.
  destruct (Nat.odd (length ds)) eqn:E.
  - change ("0"%char :: ds ++ [d1; d2]) with (("0"%char :: ds) ++ [d1; d2]).
    rewrite digit_pairs_snoc, rev_unit; [reflexivity|].
    cbn [length]. rewrite Nat.even_succ. exact E.
  - rewrite digit_pairs_snoc, rev_unit; [reflexivity|].
    rewrite <- Nat.negb_odd, E. reflexivity.
Qed.

Lemma pad_length_snoc2 (n : nat) :
  (n + 2 + (n + 2) mod 2 = 2 + (n + n mod 2))%nat.
Proof.
  replace ((n + 2) mod 2)%nat with (n mod 2)%nat; [lia|].
  replace (n + 2)%nat with (n + 1 * 2)%nat by lia. now rewrite Nat.Div0.mod_add.
Qed.

Lemma ReverseHexNumericString_loop_spec (fuel : nat) :
  forall (pre todo done out : list ascii),
    length pre = 2%nat ->
    (length todo < fuel)%nat ->
    ReverseHexNumericString_loop fuel (pre ++ todo ++ done)
      (out ++ replicate (length todo + length todo mod 2) NUL)
      (length out) (length todo + 1)
    = Some (out ++ byte_reverse todo).
Proof.
  induction fuel as [|fuel IH]; intros pre todo done out Hpre Hfuel; [lia|].
  destruct todo as [|d2 todo' _] using rev_ind.
  { simpl. reflexivity. }
  destruct todo' as [|d1 todo _] using rev_ind.
  { (* a single digit is left: the high nibble is padded *)
    change ([] ++ [d2]) with [d2]. change (length [d2] + 1)%nat with 2%nat.
    change (replicate (length [d2] + length [d2] mod 2) NUL) with [NUL; NUL].
    cbn [ReverseHexNumericString_loop Nat.leb].
    assert (E2 : (pre ++ [d2] ++ done) !! 2%nat = Some d2).
    { rewrite lookup_app_r by lia. now rewrite Hpre. }
    rewrite E2. cbn [mbind option_bind].
    replace (out ++ [NUL; NUL]) with ((out ++ [NUL]) ++ [NUL]) by now rewrite <- app_assoc.
    replace (length out + 1)%nat with (length (out ++ [NUL])) by (rewrite length_app; simpl; lia).
    rewrite str_store_middle. cbn [mbind option_bind Nat.ltb Nat.leb Nat.sub].
    rewrite <- app_assoc. cbn [app]. rewrite str_store_middle. reflexivity. }
  rewrite <- !app_assoc. cbn [app].
  rewrite !length_app. cbn [length].
  cbn [ReverseHexNumericString_loop].
  replace (2 <=? length todo + 2 + 1)%nat with true by (symmetry; apply Nat.leb_le; lia).
  (* strIn[e] *)
  assert (E2 : (pre ++ todo ++ d1 :: d2 :: done) !! (length todo + 2 + 1)%nat = Some d2).
  { rewrite lookup_app_r by lia. rewrite lookup_app_r by lia.
    replace (length todo + 2 + 1 - length pre - length todo)%nat with 1%nat by lia. reflexivity. }
  assert (E1 : (pre ++ todo ++ d1 :: d2 :: done) !! (length todo + 2 + 1 - 1)%nat = Some d1).
  { rewrite lookup_app_r by lia. rewrite lookup_app_r by lia.
    replace (length todo + 2 + 1 - 1 - length pre - length todo)%nat with 0%nat by lia. reflexivity. }
  rewrite E2. cbn [mbind option_bind].
  rewrite pad_length_snoc2. cbn [replicate Nat.add].
  replace (out ++ NUL :: NUL :: replicate (length todo + length todo mod 2) NUL)
    with ((out ++ [NUL]) ++ NUL :: replicate (length todo + length todo mod 2) NUL)
    by now rewrite <- app_assoc.
  replace (length out + 1)%nat with (length (out ++ [NUL])) by (rewrite length_app; simpl; lia).
  rewrite str_store_middle. cbn [mbind option_bind].
  replace (length todo + 2 + 1 - 1 <? 2)%nat with false by (symmetry; apply Nat.ltb_ge; lia).
  rewrite E1. cbn [mbind option_bind].
  rewrite <- app_assoc. cbn [app]. rewrite str_store_middle. cbn [mbind option_bind].
  replace (out ++ d1 :: d2 :: replicate (length todo + length todo mod 2) NUL)
    with ((out ++ [d1; d2]) ++ replicate (length todo + length todo mod 2) NUL)
    by now rewrite <- app_assoc.
  replace (length out + 2)%nat with (length (out ++ [d1; d2]))
    by (rewrite !length_app; simpl; lia).
  replace (length todo + 2 + 1 - 2)%nat with (length todo + 1)%nat by lia.
  change (pre ++ todo ++ d1 :: d2 :: done) with (pre ++ todo ++ ([d1; d2] ++ done)).
  rewrite IH by (try rewrite !length_app in Hfuel; simpl in *; lia).
  rewrite <- app_assoc. cbn [app].
  change (todo ++ [d1] ++ [d2]) with (todo ++ [d1; d2]).
  now rewrite byte_reverse_snoc.
Qed.

Lemma hex_numeric_class_spec (c : ascii) : hex_numeric_class c = accepted_char c.
Proof. destruct c as [[] [] [] [] [] [] [] []]; reflexivity. Qed.

Lemma regex_search_non_hex_spec (s : string) :
  regex_search_non_hex s = false <-> Forall (fun c => accepted_char c = true) (list_ascii_of_string s).
Proof.
  induction s as [|c s IH]; simpl.
  - split; [constructor|reflexivity].
  - rewrite orb_false_iff, negb_false_iff, hex_numeric_class_spec, IH. split.
    + intros [H1 H2]. now constructor.
    + intros H. inversion H. auto.
Qed.

Lemma has_0x_spec (s : string) : has_0x s = true <-> starts_with_0x s.
Proof.
  split.
  - intros H. destruct s as [|c0 [|c1 r]].
    + discriminate H.
    + destruct c0 as [[] [] [] [] [] [] [] []]; discriminate H.
    + destruct c0 as [[] [] [] [] [] [] [] []]; try discriminate H.
      destruct c1 as [[] [] [] [] [] [] [] []]; try discriminate H; exists r; auto.
  - intros [r [-> | ->]]; reflexivity.
Qed.

Lemma has_0x_sized_spec (s : string) : has_0x_sized s = true <-> starts_with_0x s.
Proof.
  unfold has_0x_sized. rewrite andb_true_iff, has_0x_spec. split; [tauto|].
  intros H. split; [|exact H]. destruct H as [r [-> | ->]]; reflexivity.
Qed.

Lemma length_list_ascii_of_string (s : string) :
  length (list_ascii_of_string s) = String.length s.
Proof. induction s as [|c s IH]; simpl; [reflexivity|]. now rewrite IH. Qed.

(** Past its two guards the function reverses whatever follows the first two
    characters, and no access leaves its string. *)
Lemma ReverseHexNumericString_body (c0 c1 : ascii) (ds : list ascii) :
  let strIn := String c0 (String c1 (string_of_list_ascii ds)) in
  isHexNumeric strIn = true -> has_0x_sized strIn = true ->
  ReverseHexNumericString strIn
  = Some (String "0" (String "x" (string_of_list_ascii (byte_reverse ds)))).
Proof.
  intros strIn H1 H2. unfold ReverseHexNumericString. rewrite H1, H2. cbn [negb].
  assert (Hsize : String.length strIn = S (S (length ds))).
  { unfold strIn. cbn [String.length]. now rewrite <- length_list_ascii_of_string, list_ascii_of_string_of_list_ascii. }
  rewrite Hsize.
  assert (Hpad : (S (S (length ds)) + S (S (length ds)) mod 2
                  = 2 + (length ds + length ds mod 2))%nat).
  { rewrite <- pad_length_snoc2. f_equal; [lia|f_equal; lia]. }
  rewrite Hpad. cbn [Nat.add replicate].
  change (str_store (NUL :: NUL :: replicate (length ds + length ds mod 2) NUL) 0 "0"%char)
    with (str_store ([] ++ NUL :: NUL :: replicate (length ds + length ds mod 2) NUL) (length (@nil ascii)) "0"%char).
  rewrite str_store_middle. cbn [app mbind option_bind].
  change (str_store ("0"%char :: NUL :: replicate (length ds + length ds mod 2) NUL) 1 "x"%char)
    with (str_store (["0"%char] ++ NUL :: replicate (length ds + length ds mod 2) NUL) (length ["0"%char]) "x"%char).
  rewrite str_store_middle. cbn [app mbind option_bind].
  unfold strIn. cbn [list_ascii_of_string]. rewrite list_ascii_of_string_of_list_ascii.
  pose proof (ReverseHexNumericString_loop_spec (S (S (length ds))) [c0; c1] ds [] ["0"; "x"]%char) as L.
  rewrite app_nil_r in L. cbn [app length] in L.
  replace (S (S (length ds)) - 1)%nat with (length ds + 1)%nat by lia.
  rewrite L by (auto; lia). reflexivity.
Qed.

Lemma zero_pad_odd (ds : list ascii) :
  Nat.odd (length ds) = true -> byte_reverse ds = unpair (rev (digit_pairs ("0"%char :: ds))).
Proof. intros H. unfold byte_reverse, zero_pad. now rewrite H. Qed.

(** C5 (amended). For "0x" or "0X" followed by an odd number of characters
    that [isHexNumeric] lets through (hex digits, and also "x" and "X"), the
    result is "0x" followed by the characters, zero-padded on the left and
    reversed pair by pair; an input that does not start with "0x" or "0X", or
    that holds a character outside [0-9a-fA-FxX], gives the empty string. *)
Theorem ReverseHexNumericString_odd :
  (forall (p : ascii) (ds : list ascii),
     p = "x"%char \/ p = "X"%char ->
     Forall (fun c => accepted_char c = true) ds ->
     Nat.odd (length ds) = true ->
     ReverseHexNumericString (String "0" (String p (string_of_list_ascii ds)))
     = Some (String "0" (String "x"
               (string_of_list_ascii (unpair (rev (digit_pairs ("0"%char :: ds))))))))
  /\ (forall s : string,
        ~ starts_with_0x s
        \/ Exists (fun c => accepted_char c = false) (list_ascii_of_string s) ->
        ReverseHexNumericString s = Some EmptyString)
  /\ ReverseHexNumericString "0x9" = Some "0x09"%string
  /\ ReverseHexNumericString "0x123" = Some "0x2301"%string.
Proof.
  split; [|split; [|split; reflexivity]].
  - intros p ds Hp Hds Hodd. rewrite <- zero_pad_odd by exact Hodd.
    apply ReverseHexNumericString_body.
    + unfold isHexNumeric.
      replace (regex_search_non_hex _) with false; [reflexivity|].
      symmetry. apply regex_search_non_hex_spec. cbn [list_ascii_of_string].
      rewrite list_ascii_of_string_of_list_ascii.
      constructor; [reflexivity|]. constructor; [destruct Hp as [-> | ->]; reflexivity|exact Hds].
    + apply has_0x_sized_spec. exists (string_of_list_ascii ds). destruct Hp as [-> | ->]; auto.
  - intros s [Hno | Hbad]; unfold ReverseHexNumericString.
    + destruct (isHexNumeric s); [|reflexivity]. cbn [negb].
      destruct (has_0x_sized s) eqn:E; [|reflexivity].
      exfalso. apply Hno. now apply has_0x_sized_spec.
    + replace (isHexNumeric s) with false; [reflexivity|].
      unfold isHexNumeric. destruct s as [|c s]; [reflexivity|].
      destruct (regex_search_non_hex (String c s)) eqn:E; [reflexivity|].
      apply regex_search_non_hex_spec in E. exfalso.
      apply Exists_exists in Hbad as (x & Hin & Hx).
      rewrite Forall_forall in E. specialize (E x Hin). congruence.
Qed.

Lemma ReverseHexNumericString_odd_witness :
  ReverseHexNumericString (String "0" (String "X" (string_of_list_ascii ["a"; "b"; "c"]%char)))
  = Some "0xbc0a"%string
  /\ ReverseHexNumericString "1234" = Some EmptyString.
Proof.
  destruct ReverseHexNumericString_odd as (H1 & H2 & _). split.
  - apply (H1 "X"%char ["a"; "b"; "c"]%char).
    + right; reflexivity.
    + repeat constructor.
    + reflexivity.
  - apply H2. left. intros [r [H | H]]; discriminate H.
Defined.

(** The claim as first stated fails: "x" is no hex digit, yet an input with an
    "x" among its digits is reversed like any other. *)
Lemma ReverseHexNumericString_passes_x :
  ~ (forall s : string,
       (exists c, In c (list_ascii_of_string (strip_0x s)) /\ is_hex_digit c = false) ->
       ReverseHexNumericString s = Some EmptyString).
Proof.
  intros H. specialize (H "0x1x3"%string).
  assert (E : ReverseHexNumericString "0x1x3" = Some "0xx301"%string) by reflexivity.
  rewrite E in H. 
  assert (Some "0xx301"%string = Some EmptyString); [|discriminate].
  apply H. exists "x"%char. split; [simpl; auto|reflexivity].
Qed.

(** *** Further facts about util.h *)

(** X1. [ReverseHexNumericString] never reads or writes outside its strings and
    always returns: the empty string when a guard fails, else "0x" followed
    by the characters after the prefix, zero-padded and reversed pair by
    pair. *)
Theorem ReverseHexNumericString_total (s : string) :
  ReverseHexNumericString s
  = Some (if isHexNumeric s && has_0x_sized s
          then String "0" (String "x"
                 (string_of_list_ascii (byte_reverse (drop 2 (list_ascii_of_string s)))))
          else EmptyString).
Proof.
  destruct (isHexNumeric s) eqn:E1; [|unfold ReverseHexNumericString; now rewrite E1].
  destruct (has_0x_sized s) eqn:E2; [|unfold ReverseHexNumericString; now rewrite E1, E2].
  cbn [andb].
  pose proof E2 as E3. apply has_0x_sized_spec in E3 as [r Hr].
  assert (Hs : exists c1, s = String "0" (String c1 (string_of_list_ascii (list_ascii_of_string r))))
    by (rewrite string_of_list_ascii_of_string; destruct Hr as [-> | ->]; eauto).
  destruct Hs as [c1 Hs]. rewrite Hs in E1, E2 |- *.
  rewrite (ReverseHexNumericString_body _ _ _ E1 E2).
  cbn [list_ascii_of_string drop]. now rewrite list_ascii_of_string_of_list_ascii.
Qed.

(** X2. [CharToHex] gives the value of a hex digit, between 0 and 15, and -1
    for every other character. *)
Theorem CharToHex_value (c : ascii) :
  CharToHex c = default (-1) (hex_digit_value c)
  /\ -1 <= CharToHex c < 16
  /\ (CharToHex c = -1 <-> is_hex_digit c = false).
Proof.
  split; [apply CharToHex_spec|]. split; [apply CharToHex_range|].
  rewrite is_hex_digit_CharToHex, negb_false_iff, Z.ltb_lt.
  pose proof (CharToHex_range c). lia.
Qed.

(** X3. Each swap mirrors the bytes of its word bit for bit and leaves no
    bit above the word. *)
Theorem BSwap_bits (n i : Z) :
  0 <= i ->
  Z.testbit (BSwap16 n) i = (if i <? 16 then Z.testbit n (flip_byte 2 i) else false)
  /\ Z.testbit (BSwap32 n) i = (if i <? 32 then Z.testbit n (flip_byte 4 i) else false)
  /\ Z.testbit (BSwap64 n) i = (if i <? 64 then Z.testbit n (flip_byte 8 i) else false).
Proof.
  intros Hi. repeat split.
  - destruct (i <? 16) eqn:E; [apply BSwap16_bit|apply BSwap16_high]; lia.
  - destruct (i <? 32) eqn:E; [apply BSwap32_bit|apply BSwap32_high]; lia.
  - destruct (i <? 64) eqn:E; [apply BSwap64_bit|apply BSwap64_high]; lia.
Qed.

Lemma BSwap_bits_witness :
  Z.testbit (BSwap16 0x0123) 3 = Z.testbit 0x0123 11
  /\ Z.testbit (BSwap32 0x0123) 3 = Z.testbit 0x0123 27
  /\ Z.testbit (BSwap64 0x0123) 3 = Z.testbit 0x0123 59.
Proof. apply (BSwap_bits 0x0123 3). lia. Defined.

(** X4. [isHexNumeric] holds exactly for the non-empty strings over
    [0-9a-fA-FxX]. *)
Theorem isHexNumeric_spec (s : string) :
  isHexNumeric s = true
  <-> s <> EmptyString
      /\ Forall (fun c => accepted_char c = true) (list_ascii_of_string s).
Proof.
  unfold isHexNumeric. destruct s as [|c s].
  - split; [discriminate|]. intros [H _]. now destruct H.
  - rewrite <- regex_search_non_hex_spec.
    destruct (regex_search_non_hex (String c s)); split; try discriminate; auto.
    intros [_ H]. discriminate H.
Qed.

(** *** More of util.h: shared facts *)

Lemma uchar_range (b : byte) : 0 <= uchar_to_int b < 256.
Proof. destruct b; vm_compute; split; congruence. Qed.

Lemma lower_hex_is_hex (c : ascii) : is_lower_hex c = true -> is_hex_digit c = true.
Proof. destruct c as [[] [] [] [] [] [] [] []]; (reflexivity || discriminate). Qed.

(** *** Reversing the byte order of a hex string *)

Example ReverseHexString_ex1 : ReverseHexString "0x123456" = Some "0x563412"%string.
Proof. reflexivity. Qed.
Example ReverseHexString_ex2 : ReverseHexString "0X12345678" = Some "0X78563412"%string.
Proof. reflexivity. Qed.
Example ReverseHexString_ex3 : ReverseHexString "0x123" = Some ""%string.
Proof. reflexivity. Qed.
Example ReverseHexString_ex4 : ReverseHexString "0x" = Some "0x"%string.
Proof. reflexivity. Qed.
Example ReverseHexString_ex5 : ReverseHexString "0xzzyy" = Some "0xyyzz"%string.
Proof. reflexivity. Qed.
Example ReverseHexString_ex6 : ReverseHexString "" = Some ""%string.
Proof. reflexivity. Qed.

Lemma insert_middle (l1 l2 : list ascii) (x c : ascii) (i : nat) :
  i = length l1 -> <[i:=c]> (l1 ++ x :: l2) = l1 ++ c :: l2.
Proof. intros ->. now rewrite insert_app_r_alt, Nat.sub_diag by lia. Qed.

(** One exchange of [swap_ranges]. *)
Lemma swap_step (l1 m l2 : list ascii) (a z : ascii) (i j n : nat) :
  i = length l1 -> j = (length l1 + 1 + length m)%nat ->
  swap_ranges (l1 ++ a :: m ++ z :: l2) i (S n) j
  = swap_ranges (l1 ++ z :: m ++ a :: l2) (S i) n (S j).
Proof.
  intros Hi Hj. cbn [swap_ranges].
  rewrite (list_lookup_middle l1 _ a i Hi). cbn [mbind option_bind].
  assert (Hj' : j = length (l1 ++ a :: m)) by (rewrite length_app; cbn [length]; lia).
  assert (Hj'' : j = length (l1 ++ z :: m)) by (rewrite length_app; cbn [length]; lia).
  assert (E : forall x y, l1 ++ x :: m ++ y :: l2 = (l1 ++ x :: m) ++ y :: l2)
    by (intros; now rewrite <- app_assoc).
  rewrite (E a z), (list_lookup_middle _ _ z j Hj'). cbn [mbind option_bind].
  rewrite <- (E a z), (insert_middle l1 _ a z i Hi).
  rewrite (E z z), (insert_middle _ _ z a j Hj''), <- (E z a). reflexivity.
Qed.

Lemma swap_ranges_pair (l1 m l2 : list ascii) (a1 a2 z1 z2 : ascii) :
  swap_ranges (l1 ++ a1 :: a2 :: m ++ z1 :: z2 :: l2) (length l1) 2 (length l1 + 2 + length m)
  = Some (l1 ++ z1 :: z2 :: m ++ a1 :: a2 :: l2).
Proof.
  rewrite (swap_step l1 (a2 :: m) (z2 :: l2) a1 z1 _ _ 1 eq_refl)
    by (cbn [length]; lia).
  replace (l1 ++ z1 :: (a2 :: m) ++ a1 :: z2 :: l2)
    with ((l1 ++ [z1]) ++ a2 :: (m ++ [a1]) ++ z2 :: l2)
    by (rewrite <- !app_assoc; reflexivity).
  rewrite (swap_step (l1 ++ [z1]) (m ++ [a1]) l2 a2 z2 _ _ 0)
    by (rewrite !length_app; cbn [length]; lia).
  cbn [swap_ranges]. rewrite <- !app_assoc. reflexivity.
Qed.

Lemma even_list_cases (A : Type) (l : list A) :
  Nat.even (length l) = true ->
  l = [] \/ (exists a1 a2, l = [a1; a2])
  \/ exists a1 a2 m z1 z2, l = a1 :: a2 :: m ++ [z1; z2] /\ Nat.even (length m) = true.
Proof.
  intros H. destruct l as [|a1 [|a2 r]]; [auto|discriminate H|].
  right. cbn [length] in H. rewrite Nat.even_succ_succ in H.
  destruct r as [|z2 r' _] using rev_ind; [left; eauto|].
  destruct r' as [|z1 m _] using rev_ind.
  { discriminate H. }
  right. exists a1, a2, m, z1, z2. rewrite <- app_assoc. split; [reflexivity|].
  rewrite !length_app in H. cbn [length] in H.
  replace (length m + 1 + 1)%nat with (S (S (length m))) in H by lia.
  now rewrite Nat.even_succ_succ in H.
Qed.

Lemma unpair_app (ps qs : list (ascii * ascii)) : unpair (ps ++ qs) = unpair ps ++ unpair qs.
Proof. unfold unpair. apply flat_map_app. Qed.

Lemma pair_reverse_ends (a1 a2 z1 z2 : ascii) (m : list ascii) :
  Nat.even (length m) = true ->
  pair_reverse (a1 :: a2 :: m ++ [z1; z2]) = z1 :: z2 :: pair_reverse m ++ [a1; a2].
Proof.
  intros H. unfold pair_reverse. cbn [digit_pairs].
  rewrite digit_pairs_snoc by exact H.
  cbn [rev]. rewrite rev_unit. cbn [app]. unfold unpair. cbn [flat_map fst snd app].
  now rewrite flat_map_app.
Qed.

Lemma ReverseHexString_loop_spec (fuel : nat) :
  forall l1 mid l2 : list ascii,
    Nat.even (length mid) = true -> (2 <= length l1)%nat -> (length mid < fuel)%nat ->
    ReverseHexString_loop fuel (l1 ++ mid ++ l2) (length l1) (length l1 + length mid - 2)
    = Some (l1 ++ pair_reverse mid ++ l2).
Proof.
  induction fuel as [|fuel IH]; intros l1 mid l2 Hev Hl1 Hfuel; [lia|].
  cbn [ReverseHexString_loop].
  destruct (even_list_cases _ mid Hev) as [->|[(a1 & a2 & ->)|(a1 & a2 & m & z1 & z2 & -> & Hm)]].
  - replace (length l1 <? length l1 + length (@nil ascii) - 2)%nat with false
      by (symmetry; apply Nat.ltb_ge; cbn [length]; lia).
    reflexivity.
  - replace (length l1 <? length l1 + length [a1; a2] - 2)%nat with false
      by (symmetry; apply Nat.ltb_ge; cbn [length]; lia).
    reflexivity.
  - cbn [length] in *. rewrite length_app in *. cbn [length] in *.
    replace (length l1 <? length l1 + S (S (length m + 2)) - 2)%nat with true
      by (symmetry; apply Nat.ltb_lt; lia).
    replace (length l1 + S (S (length m + 2)) - 2)%nat with (length l1 + 2 + length m)%nat by lia.
    replace (l1 ++ (a1 :: a2 :: m ++ [z1; z2]) ++ l2)
      with (l1 ++ a1 :: a2 :: m ++ z1 :: z2 :: l2)
      by (cbn [app]; now rewrite <- app_assoc).
    rewrite swap_ranges_pair. cbn [mbind option_bind].
    replace (l1 ++ z1 :: z2 :: m ++ a1 :: a2 :: l2)
      with ((l1 ++ [z1; z2]) ++ m ++ ([a1; a2] ++ l2))
      by (now rewrite <- app_assoc).
    replace (length l1 + 2)%nat with (length (l1 ++ [z1; z2]))
      by (rewrite length_app; reflexivity).
    replace (length l1 + 2 + length m - 2)%nat with (length (l1 ++ [z1; z2]) + length m - 2)%nat
      by (rewrite length_app; cbn [length]; lia).
    rewrite IH by (try rewrite length_app; cbn [length]; try exact Hm; lia).
    rewrite pair_reverse_ends by exact Hm.
    cbn [app]. rewrite <- !app_assoc. reflexivity.
Qed.

Lemma has_0x_sized_head (c0 c1 : ascii) (r r' : string) :
  has_0x_sized (String c0 (String c1 r)) = has_0x_sized (String c0 (String c1 r')).
Proof. reflexivity. Qed.

Lemma has_0x_sized_split (s : string) :
  has_0x_sized s = true -> exists c0 c1 r, s = String c0 (String c1 r).
Proof.
  destruct s as [|c0 [|c1 r]]; [discriminate|discriminate|eauto].
Qed.

Lemma even_mod2 (n : nat) : (n mod 2 =? 0)%nat = Nat.even n.
Proof.
  destruct (Nat.even n) eqn:E.
  - apply Nat.even_spec in E as [k ->]. apply Nat.eqb_eq.
    rewrite Nat.mul_comm. apply Nat.Div0.mod_mul.
  - apply Nat.eqb_neq. intros H. apply Nat.Div0.mod_divides in H as [k ->].
    now rewrite Nat.even_mul in E.
Qed.

Lemma ReverseHexString_body (c0 c1 : ascii) (ds : list ascii) :
  Nat.even (length ds) = true ->
  has_0x_sized (String c0 (String c1 (string_of_list_ascii ds))) = true ->
  ReverseHexString (String c0 (String c1 (string_of_list_ascii ds)))
  = Some (String c0 (String c1 (string_of_list_ascii (pair_reverse ds)))).
Proof.
  intros Hev Hpre. unfold ReverseHexString. cbv zeta. rewrite Hpre, even_mod2.
  assert (Hsize : String.length (String c0 (String c1 (string_of_list_ascii ds))) = S (S (length ds))).
  { cbn [String.length]. now rewrite <- length_list_ascii_of_string, list_ascii_of_string_of_list_ascii. }
  rewrite Hsize, Nat.even_succ_succ, Hev. cbn [negb orb].
  cbn [list_ascii_of_string]. rewrite list_ascii_of_string_of_list_ascii.
  pose proof (ReverseHexString_loop_spec (S (S (length ds))) [c0; c1] ds []) as L.
  rewrite !app_nil_r in L. cbn [app length] in L.
  replace (S (S (length ds)) - 2)%nat with (2 + length ds - 2)%nat by lia.
  rewrite L by (auto; lia). reflexivity.
Qed.

Lemma ReverseHexString_rejects (s : string) :
  Nat.even (String.length s) && has_0x_sized s = false -> ReverseHexString s = Some EmptyString.
Proof.
  intros E. unfold ReverseHexString. cbv zeta. rewrite even_mod2.
  apply andb_false_iff in E as [-> | ->]; [reflexivity|].
  cbn [negb]. now rewrite orb_true_r.
Qed.

Lemma accepted_split (s : string) :
  has_0x_sized s = true ->
  exists c0 c1 ds, s = String c0 (String c1 (string_of_list_ascii ds))
                   /\ String.length s = S (S (length ds)).
Proof.
  intros H. destruct (has_0x_sized_split s H) as (c0 & c1 & r & ->).
  exists c0, c1, (list_ascii_of_string r).
  rewrite string_of_list_ascii_of_string. split; [reflexivity|].
  cbn [String.length]. now rewrite length_list_ascii_of_string.
Qed.

(** X7. [ReverseHexString] never leaves its string and always returns: the
    empty string for an input of odd length or without a leading "0x" or
    "0X", otherwise the input with its first two characters kept and the
    rest reversed two characters at a time.  The characters are not checked
    to be hex digits. *)
Theorem ReverseHexString_spec (s : string) :
  ReverseHexString s
  = Some (if Nat.even (String.length s) && has_0x_sized s
          then string_of_list_ascii
                 (take 2 (list_ascii_of_string s) ++ pair_reverse (drop 2 (list_ascii_of_string s)))
          else EmptyString).
Proof.
  destruct (Nat.even (String.length s) && has_0x_sized s) eqn:E;
    [|now apply ReverseHexString_rejects].
  apply andb_true_iff in E as [E1 E2].
  destruct (accepted_split s E2) as (c0 & c1 & ds & -> & Hlen).
  rewrite Hlen, Nat.even_succ_succ in E1.
  rewrite ReverseHexString_body by assumption.
  cbn [list_ascii_of_string take drop app string_of_list_ascii].
  now rewrite !list_ascii_of_string_of_list_ascii.
Qed.

Lemma digit_pairs_unpair (ps : list (ascii * ascii)) : digit_pairs (unpair ps) = ps.
Proof.
  induction ps as [|[a b] ps IH]; [reflexivity|].
  unfold unpair in *. cbn [flat_map fst snd app digit_pairs]. now rewrite IH.
Qed.

Lemma unpair_digit_pairs (ds : list ascii) :
  Nat.even (length ds) = true -> unpair (digit_pairs ds) = ds.
Proof.
  enough (H : (Nat.even (length ds) = true -> unpair (digit_pairs ds) = ds)
              /\ forall d, Nat.even (length (d :: ds)) = true ->
                           unpair (digit_pairs (d :: ds)) = d :: ds) by apply H.
  induction ds as [|d' ds [IH1 IH2]].
  - split; [reflexivity|]. intros d H. discriminate H.
  - split; [apply IH2|]. intros d H. cbn [length] in H. rewrite Nat.even_succ_succ in H.
    cbn [digit_pairs]. unfold unpair in *. cbn [flat_map fst snd app]. now rewrite IH1.
Qed.

Lemma unpair_length (ps : list (ascii * ascii)) : length (unpair ps) = (2 * length ps)%nat.
Proof.
  induction ps as [|p ps IH]; [reflexivity|].
  unfold unpair in *. cbn [flat_map length app]. rewrite IH. lia.
Qed.

Lemma pair_reverse_even (ds : list ascii) : Nat.even (length (pair_reverse ds)) = true.
Proof.
  unfold pair_reverse. rewrite unpair_length. apply Nat.even_spec. now exists (length (rev (digit_pairs ds))).
Qed.

Lemma pair_reverse_involutive (ds : list ascii) :
  Nat.even (length ds) = true -> pair_reverse (pair_reverse ds) = ds.
Proof.
  intros H. unfold pair_reverse.
  now rewrite digit_pairs_unpair, rev_involutive, unpair_digit_pairs.
Qed.

(** X8. Reversing twice gives an accepted input back; a rejected input gives
    the empty string both times. *)
Theorem ReverseHexString_involutive (s : string) :
  ReverseHexString s ≫= ReverseHexString
  = Some (if Nat.even (String.length s) && has_0x_sized s then s else EmptyString).
Proof.
  destruct (Nat.even (String.length s) && has_0x_sized s) eqn:E;
    [|now rewrite ReverseHexString_rejects].
  apply andb_true_iff in E as [E1 E2].
  destruct (accepted_split s E2) as (c0 & c1 & ds & -> & Hlen).
  rewrite Hlen, Nat.even_succ_succ in E1.
  rewrite ReverseHexString_body by assumption. cbn [mbind option_bind].
  rewrite ReverseHexString_body by (apply pair_reverse_even || exact E2).
  now rewrite pair_reverse_involutive.
Qed.

Lemma zero_pad_even (ds : list ascii) :
  Nat.even (length ds) = true -> zero_pad ds = ds.
Proof. intros H. unfold zero_pad. now rewrite <- Nat.negb_even, H. Qed.

Lemma zero_pad_length (ds : list ascii) : Nat.even (length (zero_pad ds)) = true.
Proof.
  unfold zero_pad. destruct (Nat.odd (length ds)) eqn:E.
  - cbn [length]. now rewrite Nat.even_succ.
  - now rewrite <- Nat.negb_odd, E.
Qed.

(** X9. On an input of even length, [ReverseHexNumericString] is
    [ReverseHexString] restricted to the hex-numeric strings, with the prefix
    written as "0x". *)
Theorem ReverseHexNumericString_even (s : string) :
  Nat.even (String.length s) = true ->
  ReverseHexNumericString s
  = if isHexNumeric s then lower_prefix <$> ReverseHexString s else Some EmptyString.
Proof.
  intros Hev. destruct (isHexNumeric s) eqn:E1;
    [|unfold ReverseHexNumericString; now rewrite E1].
  destruct (has_0x_sized s) eqn:E2.
  - destruct (accepted_split s E2) as (c0 & c1 & ds & -> & Hlen).
    rewrite Hlen, Nat.even_succ_succ in Hev.
    rewrite (ReverseHexNumericString_body _ _ _ E1 E2), ReverseHexString_body by assumption.
    unfold byte_reverse. now rewrite zero_pad_even.
  - rewrite ReverseHexString_rejects by (rewrite E2; apply andb_false_r).
    unfold ReverseHexNumericString. now rewrite E1, E2.
Qed.

Lemma ReverseHexNumericString_even_witness :
  ReverseHexNumericString "0X12ab" = Some "0xab12"%string.
Proof. exact (ReverseHexNumericString_even "0X12ab" eq_refl). Defined.

Lemma digit_pairs_Forall (P : ascii -> Prop) (ds : list ascii) :
  Forall P ds -> Forall (fun p => P (fst p) /\ P (snd p)) (digit_pairs ds).
Proof.
  enough (H : (Forall P ds -> Forall (fun p => P (fst p) /\ P (snd p)) (digit_pairs ds))
              /\ forall d, Forall P (d :: ds) ->
                           Forall (fun p => P (fst p) /\ P (snd p)) (digit_pairs (d :: ds)))
    by apply H.
  induction ds as [|d' ds [IH1 IH2]].
  - split; intros; constructor.
  - split; [apply IH2|]. intros d H. inversion H as [|? ? Hd H']. inversion H' as [|? ? Hd' H''].
    cbn [digit_pairs]. constructor; [split; assumption|auto].
Qed.

Lemma unpair_Forall (P : ascii -> Prop) (ps : list (ascii * ascii)) :
  Forall (fun p => P (fst p) /\ P (snd p)) ps -> Forall P (unpair ps).
Proof.
  induction 1 as [|p ps [H1 H2] _ IH]; [constructor|].
  unfold unpair in *. cbn [flat_map app]. now repeat constructor.
Qed.

Lemma byte_reverse_Forall (P : ascii -> Prop) (ds : list ascii) :
  P "0"%char -> Forall P ds -> Forall P (byte_reverse ds).
Proof.
  intros H0 H. unfold byte_reverse. apply unpair_Forall.
  apply List.Forall_rev, digit_pairs_Forall.
  unfold zero_pad. destruct (Nat.odd (length ds)); [now constructor|exact H].
Qed.

Lemma byte_reverse_involutive (ds : list ascii) :
  byte_reverse (byte_reverse ds) = zero_pad ds.
Proof.
  unfold byte_reverse at 1. fold (pair_reverse (zero_pad (byte_reverse ds))).
  unfold byte_reverse. fold (pair_reverse (zero_pad ds)).
  rewrite (zero_pad_even (pair_reverse _)) by apply pair_reverse_even.
  apply pair_reverse_involutive, zero_pad_length.
Qed.

Lemma isHexNumeric_Forall (s : string) :
  isHexNumeric s = true
  <-> s <> EmptyString /\ Forall (fun c => accepted_char c = true) (list_ascii_of_string s).
Proof.
  unfold isHexNumeric. destruct s as [|c s].
  - split; [discriminate|]. intros [H _]. now destruct H.
  - rewrite <- regex_search_non_hex_spec.
    destruct (regex_search_non_hex (String c s)); split; try discriminate; auto.
    intros [_ H]. discriminate H.
Qed.

(** X10. Reversing a hex-numeric string twice gives its normal form: the
    prefix "0x", and the digits with a leading zero when they were odd in
    number. *)
Theorem ReverseHexNumericString_twice (s : string) :
  ReverseHexNumericString s ≫= ReverseHexNumericString
  = Some (if isHexNumeric s && has_0x_sized s
          then String "0" (String "x"
                 (string_of_list_ascii (zero_pad (drop 2 (list_ascii_of_string s)))))
          else EmptyString).
Proof.
  destruct (isHexNumeric s) eqn:E1; [|unfold ReverseHexNumericString; now rewrite E1].
  destruct (has_0x_sized s) eqn:E2; [|unfold ReverseHexNumericString; now rewrite E1, E2].
  destruct (accepted_split s E2) as (c0 & c1 & ds & -> & Hlen).
  rewrite (ReverseHexNumericString_body _ _ _ E1 E2). cbn [mbind option_bind andb].
  rewrite ReverseHexNumericString_body.
  - rewrite byte_reverse_involutive. cbn [list_ascii_of_string drop].
    now rewrite list_ascii_of_string_of_list_ascii.
  - apply isHexNumeric_Forall in E1 as [_ E1]. apply isHexNumeric_Forall.
    split; [discriminate|].
    cbn [list_ascii_of_string] in *. rewrite list_ascii_of_string_of_list_ascii in *.
    inversion E1 as [|? ? _ E1']. inversion E1' as [|? ? _ E1''].
    constructor; [reflexivity|]. constructor; [reflexivity|].
    now apply byte_reverse_Forall.
  - reflexivity.
Qed.

(** *** Decoding into a caller's buffer *)

Example ParseHexString_into_ex1 :
  ParseHexString_into "0x0102ff" [x00; x00; x00; x00] = Some (3%nat, [x01; x02; xff; x00]).
Proof. reflexivity. Qed.
Example ParseHexString_into_ex2 :
  ParseHexString_into "0x0102ff" [xaa; xaa] = Some (2%nat, [x01; x02]).
Proof. reflexivity. Qed.
Example ParseHexString_into_ex3 :
  ParseHexString_into "0x0102ff" [xaa] = Some (0%nat, [xaa]).
Proof. reflexivity. Qed.
Example ParseHexString_into_ex4 :
  ParseHexString_into "0102ff" [xaa] = Some (1%nat, [x01]).
Proof. reflexivity. Qed.

Lemma buf_store_middle (l1 l2 : list byte) (x c : byte) :
  buf_store (l1 ++ x :: l2) (length l1) c = Some (l1 ++ c :: l2).
Proof.
  unfold buf_store. rewrite decide_True by (rewrite length_app; simpl; lia).
  now rewrite insert_app_r_alt, Nat.sub_diag by lia.
Qed.

Lemma at_end (done rest : list byte) :
  (length done =? length (done ++ rest))%nat = match rest with [] => true | _ => false end.
Proof.
  rewrite length_app. destruct rest; cbn [length].
  - apply Nat.eqb_eq. lia.
  - apply Nat.eqb_neq. lia.
Qed.

Lemma ParseHexString_into_loop_spec (psz : string) :
  forall done rest : list byte,
    ParseHexString_into_loop psz (done ++ rest) (length done)
    = let bs := whole_bytes (hex_run psz) in
      Some (done ++ take (length rest) bs ++ drop (length bs) rest,
            (length done + Nat.min (length rest) (length bs))%nat).
Proof.
  enough (H : (forall done rest,
                 ParseHexString_into_loop psz (done ++ rest) (length done)
                 = let bs := whole_bytes (hex_run psz) in
                   Some (done ++ take (length rest) bs ++ drop (length bs) rest,
                         (length done + Nat.min (length rest) (length bs))%nat))
              /\ (forall c done rest,
                    ParseHexString_into_loop (String c psz) (done ++ rest) (length done)
                    = let bs := whole_bytes (hex_run (String c psz)) in
                      Some (done ++ take (length rest) bs ++ drop (length bs) rest,
                            (length done + Nat.min (length rest) (length bs))%nat))) by apply H.
  assert (Hnil : forall done rest : list byte,
            Some (done ++ rest, length done)
            = Some (done ++ take (length rest) [] ++ drop (length (@nil byte)) rest,
                    (length done + Nat.min (length rest) (length (@nil byte)))%nat)).
  { intros. cbn [length drop]. rewrite take_nil, Nat.min_0_r, Nat.add_0_r. reflexivity. }
  induction psz as [|c2 psz [IH1 IH2]].
  - split; [intros; apply Hnil|]. intros c done rest. cbv zeta.
    replace (whole_bytes (hex_run (String c ""))) with (@nil byte)
      by (cbn; now destruct (is_hex_digit c)).
    cbn [ParseHexString_into_loop].
    destruct (Ascii.eqb c NUL || _); [apply Hnil|].
    rewrite orb_true_r. apply Hnil.
  - split; [apply IH2|]. intros c1 done rest. cbv zeta.
    cbn [ParseHexString_into_loop hex_run]. rewrite at_end.
    destruct (Ascii.eqb c1 NUL) eqn:E0.
    { rewrite (NUL_not_hex _ E0). apply Hnil. }
    cbn [orb].
    rewrite (is_hex_digit_CharToHex c1), (is_hex_digit_CharToHex c2).
    destruct rest as [|r rest].
    { cbn [length]. rewrite take_0, drop_nil, Nat.min_0_l, Nat.add_0_r. reflexivity. }
    destruct (CharToHex c1 <? 0) eqn:E1; cbn [orb negb]; [apply Hnil|].
    destruct (CharToHex c2 <? 0) eqn:E2; cbn [orb negb]; [apply Hnil|].
    rewrite buf_store_middle. cbn [mbind option_bind].
    replace (done ++ to_uchar (Z.lor (Z.shiftl (CharToHex c1) 4) (CharToHex c2)) :: rest)
      with ((done ++ [to_uchar (Z.lor (Z.shiftl (CharToHex c1) 4) (CharToHex c2))]) ++ rest)
      by now rewrite <- app_assoc.
    replace (S (length done))
      with (length (done ++ [to_uchar (Z.lor (Z.shiftl (CharToHex c1) 4) (CharToHex c2))]))
      by (rewrite length_app; cbn [length]; lia).
    rewrite IH1. cbv zeta. cbn [whole_bytes length take drop].
    rewrite <- decode_pair
      by (rewrite is_hex_digit_CharToHex, ?E1, ?E2; reflexivity).
    rewrite <- app_assoc, length_app. cbn [app length]. do 2 f_equal. lia.
Qed.

(** X11. The buffer variant of [ParseHexString] never writes outside the [n]
    bytes it is given: it stores the first [n] of the bytes that the vector
    variant returns, leaves the rest of the buffer as it was, and returns the
    number of bytes stored.  The prefix "0x" is skipped only when [n >= 2]:
    with a smaller buffer an input with the prefix stores nothing. *)
Theorem ParseHexString_into_spec (psz : string) (buf : list byte) :
  let bs := if (length buf <? 2)%nat && has_0x psz then [] else ParseHexString psz in
  let count := Nat.min (length buf) (length bs) in
  let buf' := take (length buf) bs ++ drop (length bs) buf in
  ParseHexString_into psz buf = Some (count, buf')
  /\ (count <= length buf)%nat
  /\ length buf' = length buf
  /\ drop count buf' = drop count buf.
Proof.
  cbv zeta. split; [|split; [lia|split]].
  - unfold ParseHexString_into. cbv zeta.
    pose proof (ParseHexString_into_loop_spec
                  (if (2 <=? length buf)%nat && has_0x psz then ptr_add psz 2 else psz) [] buf) as L.
    cbn [app length Nat.add] in L. rewrite L. cbv zeta. cbn [mbind option_bind].
    assert (Hret : forall k, (length buf - (length buf - Nat.min (length buf) k)
                              = Nat.min (length buf) k)%nat) by (intros; lia).
    rewrite Hret.
    destruct (has_0x psz) eqn:Ex.
    + destruct (2 <=? length buf)%nat eqn:En.
      * replace (length buf <? 2)%nat with false
          by (symmetry; apply Nat.ltb_ge; now apply Nat.leb_le).
        cbn [andb]. unfold ParseHexString. rewrite Ex, ParseHexString_loop_spec. reflexivity.
      * replace (length buf <? 2)%nat with true
          by (symmetry; apply Nat.ltb_lt; now apply Nat.leb_gt).
        cbn [andb].
        replace (whole_bytes (hex_run psz)) with (@nil byte); [reflexivity|].
        apply has_0x_spec in Ex as [r [-> | ->]]; reflexivity.
    + rewrite !andb_false_r. unfold ParseHexString. rewrite Ex, ParseHexString_loop_spec.
      reflexivity.
  - rewrite length_app, length_take, length_drop. lia.
  - set (bs := if (length buf <? 2)%nat && has_0x psz then [] else ParseHexString psz).
    destruct (Nat.le_gt_cases (length bs) (length buf)) as [Hle|Hgt].
    + rewrite Nat.min_r by lia. rewrite take_ge by lia.
      rewrite drop_app_length. reflexivity.
    + rewrite Nat.min_l by lia. rewrite (drop_ge buf (length bs)) by lia.
      rewrite app_nil_r, !drop_ge; [reflexivity|lia|rewrite length_take; lia].
Qed.

(** *** Fixed-width hex of an unsigned integer *)

Example UIntToHexString_ex1 :
  UIntToHexString 4 0x12ab (replicate 11 "?"%char) = Some "0x000012ab"%string.
Proof. reflexivity. Qed.
Example UIntToHexString_ex2 :
  UIntToHexString 2 0xffff (replicate 7 "?"%char) = Some "0xffff"%string.
Proof. reflexivity. Qed.
Example UIntToHexString_ex3 :
  UIntToHexString 8 0x0123456789abcdef (replicate 19 NUL) = Some "0x0123456789abcdef"%string.
Proof. reflexivity. Qed.

Lemma uchar_to_int_to_uchar (x : Z) : uchar_to_int (to_uchar x) = x mod 256.
Proof.
  unfold uchar_to_int, to_uchar.
  assert (H : 0 <= x mod 256 < 256) by (apply Z.mod_pos_bound; lia).
  destruct (Byte.of_N (Z.to_N (x mod 256))) as [b|] eqn:E.
  - apply Byte.to_of_N in E. change (default x00 (Some b)) with b. rewrite E. lia.
  - apply Byte.of_N_None_iff in E. lia.
Qed.

Lemma digits_of_byte (t : Z) (k : nat) :
  let byte := Z.land (Z.shiftr t (Z.of_nat (k * 8))) 0xFF in
  let b := to_uchar (t / 256 ^ Z.of_nat k) in
  Z.shiftr byte 4 = uchar_to_int b / 16 /\ Z.land byte 15 = uchar_to_int b mod 16.
Proof.
  cbv zeta. rewrite uchar_to_int_to_uchar.
  change 0xFF with (Z.ones 8). change 15 with (Z.ones 4).
  rewrite !Z.land_ones, !Z.shiftr_div_pow2 by lia.
  replace (2 ^ Z.of_nat (k * 8)) with (256 ^ Z.of_nat k).
  2:{ rewrite Nat2Z.inj_mul, Z.mul_comm, Z.pow_mul_r by lia. reflexivity. }
  split; reflexivity.
Qed.

Lemma UIntToHexString_loop_spec (fuel sizeof_T : nat) (t : Z) :
  forall (i : nat) (done rest : list ascii),
    (i <= sizeof_T)%nat -> (sizeof_T - i < fuel)%nat ->
    length done = (2 + i * 2)%nat -> length rest = (2 * (sizeof_T - i))%nat ->
    forall tail,
    UIntToHexString_loop fuel sizeof_T t (done ++ rest ++ tail) i
    = Some (done
            ++ list_ascii_of_string
                 (hex_pairs (map (fun j => to_uchar (t / 256 ^ Z.of_nat (sizeof_T - 1 - j)))
                                 (seq i (sizeof_T - i))))
            ++ tail).
Proof.
  induction fuel as [|fuel IH]; intros i done rest Hi Hfuel Hdone Hrest tail; [lia|].
  cbn [UIntToHexString_loop].
  destruct (i <? sizeof_T)%nat eqn:E.
  - apply Nat.ltb_lt in E.
    destruct rest as [|r1 [|r2 rest]]; [cbn [length] in Hrest; lia|cbn [length] in Hrest; lia|].
    cbv zeta.
    replace (sizeof_T - i - 1)%nat with (sizeof_T - 1 - i)%nat by lia.
    destruct (digits_of_byte t (sizeof_T - 1 - i)) as [-> ->].
    set (b := to_uchar (t / 256 ^ Z.of_nat (sizeof_T - 1 - i))).
    set (c1 := char_at hexc (Z.to_nat (uchar_to_int b / 16))).
    set (c2 := char_at hexc (Z.to_nat (uchar_to_int b mod 16))).
    rewrite <- Hdone. cbn [app]. rewrite str_store_middle. cbn [mbind option_bind].
    replace (done ++ c1 :: r2 :: rest ++ tail) with ((done ++ [c1]) ++ r2 :: rest ++ tail)
      by now rewrite <- app_assoc.
    replace (length done + 1)%nat with (length (done ++ [c1]))
      by (rewrite length_app; reflexivity).
    rewrite str_store_middle. cbn [mbind option_bind].
    rewrite <- app_assoc. cbn [app].
    replace (done ++ c1 :: c2 :: rest ++ tail) with ((done ++ [c1; c2]) ++ rest ++ tail)
      by now rewrite <- app_assoc.
    rewrite IH.
    + replace (sizeof_T - i)%nat with (S (sizeof_T - S i)) by lia.
      cbn [seq map hex_pairs list_ascii_of_string]. rewrite <- app_assoc. reflexivity.
    + lia.
    + lia.
    + rewrite length_app. cbn [length]. lia.
    + cbn [length] in Hrest. lia.
  - apply Nat.ltb_ge in E. replace (sizeof_T - i)%nat with 0%nat in * by lia.
    destruct rest; [|discriminate Hrest]. reflexivity.
Qed.

Lemma string_of_c_str_app (l r : list ascii) :
  Forall (fun c => Ascii.eqb c NUL = false) l ->
  string_of_c_str (l ++ NUL :: r) = Some (string_of_list_ascii l).
Proof.
  induction 1 as [|c l Hc _ IH]; [reflexivity|].
  cbn [app string_of_c_str string_of_list_ascii]. now rewrite Hc, IH.
Qed.

Lemma lower_hex_not_NUL (c : ascii) : is_lower_hex c = true -> Ascii.eqb c NUL = false.
Proof. destruct c as [[] [] [] [] [] [] [] []]; (reflexivity || discriminate). Qed.

Lemma be_bytes_S (k : nat) (t : Z) :
  be_bytes (S k) t = be_bytes k (t / 256) ++ [to_uchar t].
Proof.
  unfold be_bytes. rewrite seq_S, map_app. cbn [map Nat.add]. f_equal.
  - apply map_ext_in. intros i Hi. apply in_seq in Hi.
    replace (S k - 1 - i)%nat with (S (k - 1 - i)) by lia.
    rewrite Nat2Z.inj_succ, Z.pow_succ_r, Z.div_div by lia. reflexivity.
  - replace (S k - 1 - k)%nat with 0%nat by lia. now rewrite Z.div_1_r.
Qed.

Lemma be_bytes_length (k : nat) (t : Z) : length (be_bytes k t) = k.
Proof. unfold be_bytes. now rewrite length_map, length_seq. Qed.

Lemma be_value_be_bytes (k : nat) :
  forall t, 0 <= t < 256 ^ Z.of_nat k -> be_value (be_bytes k t) = t.
Proof.
  induction k as [|k IH]; intros t Ht.
  - cbn in *. lia.
  - rewrite be_bytes_S. unfold be_value in *. rewrite fold_left_app. cbn [fold_left].
    rewrite IH, uchar_to_int_to_uchar.
    + pose proof (Z.div_mod t 256). lia.
    + rewrite Nat2Z.inj_succ, Z.pow_succ_r in Ht by lia.
      split; [apply Z.div_pos; lia|apply Z.div_lt_upper_bound; lia].
Qed.

Lemma ParseHexString_hex_pairs (bs : list byte) :
  ParseHexString ("0x" ++ hex_pairs bs) = bs.
Proof.
  unfold ParseHexString. rewrite skip_prefix_spec.
  change (strip_0x ("0x" ++ hex_pairs bs)) with (hex_pairs bs).
  now rewrite ParseHexString_loop_pairs.
Qed.

Lemma UIntToHexString_eq (sizeof_T : nat) (t : Z) (hex : list ascii) :
  length hex = (sizeof_T * 2 + 2 + 1)%nat ->
  UIntToHexString sizeof_T t hex = Some ("0x" ++ hex_pairs (be_bytes sizeof_T t))%string.
Proof.
  intros Hlen.
  destruct hex as [|h0 [|h1 [|h2 R]]]; try (cbn [length] in Hlen; lia).
  unfold UIntToHexString. cbn [length] in Hlen.
  assert (E : strcpy (h0 :: h1 :: h2 :: R) 0 "0x" = Some ("0"%char :: "x"%char :: NUL :: R))
    by reflexivity.
  rewrite E. cbn [mbind option_bind].
  assert (HR : NUL :: R = take (2 * sizeof_T) (NUL :: R) ++ drop (2 * sizeof_T) (NUL :: R))
    by now rewrite take_drop.
  destruct (drop (2 * sizeof_T) (NUL :: R)) as [|z [|z' tl]] eqn:Ed.
  - apply (f_equal length) in Ed. rewrite length_drop in Ed. cbn [length] in Ed. lia.
  - change ("0"%char :: "x"%char :: NUL :: R) with (["0"%char; "x"%char] ++ NUL :: R).
    rewrite HR.
    rewrite (UIntToHexString_loop_spec (S sizeof_T) sizeof_T t 0 ["0"; "x"]%char)
      by (try rewrite length_take; cbn [length]; lia).
    cbn [mbind option_bind]. rewrite Nat.sub_0_r. fold (be_bytes sizeof_T t).
    rewrite app_assoc.
    replace (2 + sizeof_T * 2)%nat
      with (length (["0"%char; "x"%char] ++ list_ascii_of_string (hex_pairs (be_bytes sizeof_T t)))).
    2:{ rewrite length_app, length_list_ascii_of_string.
        destruct (hex_pairs_lower (be_bytes sizeof_T t)) as [_ ->].
        rewrite be_bytes_length. cbn [length]. lia. }
    rewrite str_store_middle. cbn [mbind option_bind].
    rewrite string_of_c_str_app.
    + cbn [app string_of_list_ascii]. now rewrite string_of_list_ascii_of_string.
    + constructor; [reflexivity|]. constructor; [reflexivity|].
      destruct (hex_pairs_lower (be_bytes sizeof_T t)) as [H _].
      eapply Forall_impl; [exact H|]. intros c. apply lower_hex_not_NUL.
  - apply (f_equal length) in Ed. rewrite length_drop in Ed. cbn [length] in Ed. lia.
Qed.

(** X12. For an unsigned [T] of [sizeof_T] bytes, [UIntToHexString] stays
    inside its array and returns "0x" followed by two lowercase digits per
    byte, most significant byte first, whatever the array held before;
    [ParseHexString] gives these bytes back, and they spell [t].  For
    [sizeof_T > 0] the result is [ToHexString] of the big-endian bytes. *)
Theorem UIntToHexString_spec (sizeof_T : nat) (t : Z) (hex : list ascii) :
  length hex = (sizeof_T * 2 + 2 + 1)%nat ->
  0 <= t < 256 ^ Z.of_nat sizeof_T ->
  UIntToHexString sizeof_T t hex = Some ("0x" ++ hex_pairs (be_bytes sizeof_T t))%string
  /\ String.length ("0x" ++ hex_pairs (be_bytes sizeof_T t)) = (2 + 2 * sizeof_T)%nat
  /\ ParseHexString ("0x" ++ hex_pairs (be_bytes sizeof_T t)) = be_bytes sizeof_T t
  /\ be_value (be_bytes sizeof_T t) = t
  /\ (sizeof_T <> 0%nat ->
      UIntToHexString sizeof_T t hex = Some (ToHexString (be_bytes sizeof_T t))).
Proof.
  intros Hlen Ht.
  split; [now apply UIntToHexString_eq|]. split; [|split; [|split]].
  - change ("0x" ++ hex_pairs (be_bytes sizeof_T t))%string
      with (String "0" (String "x" (hex_pairs (be_bytes sizeof_T t)))).
    cbn [String.length]. destruct (hex_pairs_lower (be_bytes sizeof_T t)) as [_ ->].
    now rewrite be_bytes_length.
  - apply ParseHexString_hex_pairs.
  - now apply be_value_be_bytes.
  - intros Hne. rewrite UIntToHexString_eq, ToHexString_spec by exact Hlen.
    destruct (be_bytes sizeof_T t) eqn:E; [|reflexivity].
    apply (f_equal length) in E. rewrite be_bytes_length in E. cbn in E. lia.
Qed.

Lemma UIntToHexString_spec_witness :
  UIntToHexString 4 0x12ab (replicate 11 "?"%char) = Some "0x000012ab"%string
  /\ be_value (ParseHexString "0x000012ab") = 0x12ab.
Proof.
  destruct (UIntToHexString_spec 4 0x12ab (replicate 11 "?"%char) eq_refl) as (H1 & _ & H3 & H4 & _).
  - lia.
  - split; [exact H1|]. exact H4.
Defined.

(** *** Decimal strings *)

Lemma isdigit_spec (c : ascii) : isdigit c = true <-> decimal_digit c.
Proof.
  unfold isdigit, in_range, decimal_digit. rewrite andb_true_iff, !N.leb_le. reflexivity.
Qed.

Lemma char_in_digits (c : ascii) : char_in c "0123456789" = isdigit c.
Proof. destruct c as [[] [] [] [] [] [] [] []]; reflexivity. Qed.

Lemma isdigit_accepted (c : ascii) : isdigit c = true -> accepted_char c = true.
Proof. destruct c as [[] [] [] [] [] [] [] []]; (reflexivity || discriminate). Qed.

Lemma find_if_end (s : string) :
  (find_if (fun c => negb (isdigit c)) s =? String.length s)%nat = true
  <-> Forall (fun c => isdigit c = true) (list_ascii_of_string s).
Proof.
  induction s as [|c s IH]; cbn [find_if String.length list_ascii_of_string].
  - split; [constructor|reflexivity].
  - destruct (isdigit c) eqn:E; cbn [negb].
    + change (S (find_if _ s) =? S (String.length s))%nat
        with (find_if (fun c => negb (isdigit c)) s =? String.length s)%nat.
      rewrite IH. split; [now constructor|]. intros H. now inversion H.
    + split; [discriminate|]. intros H. inversion H. congruence.
Qed.

Lemma find_first_not_of_npos (s : string) :
  find_first_not_of s "0123456789" = None
  <-> Forall (fun c => isdigit c = true) (list_ascii_of_string s).
Proof.
  induction s as [|c s IH]; cbn [find_first_not_of list_ascii_of_string].
  - split; [constructor|reflexivity].
  - rewrite char_in_digits. destruct (isdigit c) eqn:E.
    + rewrite fmap_None, IH. split; [now constructor|]. intros H. now inversion H.
    + split; [discriminate|]. intros H. inversion H. congruence.
Qed.

Lemma nonempty_length (s : string) : negb (String.length s =? 0)%nat = true <-> s <> EmptyString.
Proof. destruct s; cbn; split; congruence. Qed.

(** X13. [IsNumber] and [isNumeric] are the same predicate: true exactly for
    the non-empty strings of decimal digits.  Every such string is also
    hex-numeric. *)
Theorem IsNumber_isNumeric (s : string) :
  IsNumber s = isNumeric s
  /\ (isNumeric s = true
      <-> s <> EmptyString /\ Forall decimal_digit (list_ascii_of_string s))
  /\ (isNumeric s = true -> isHexNumeric s = true).
Proof.
  assert (H1 : IsNumber s = true
               <-> s <> EmptyString /\ Forall (fun c => isdigit c = true) (list_ascii_of_string s)).
  { unfold IsNumber. now rewrite andb_true_iff, nonempty_length, find_if_end. }
  assert (H2 : isNumeric s = true
               <-> s <> EmptyString /\ Forall (fun c => isdigit c = true) (list_ascii_of_string s)).
  { unfold isNumeric.
    now rewrite andb_true_iff, nonempty_length, bool_decide_eq_true, find_first_not_of_npos. }
  split; [|split].
  - apply eq_true_iff_eq. now rewrite H1, H2.
  - rewrite H2. split; intros [Hne H]; (split; [exact Hne|]);
      (eapply Forall_impl; [exact H|]); intros c; apply isdigit_spec.
  - intros H. apply H2 in H as [Hne H]. apply isHexNumeric_Forall.
    split; [exact Hne|]. eapply Forall_impl; [exact H|]. exact isdigit_accepted.
Qed.

(** *** Hex of a number and back *)

Example ToHexString_uint32_ex : ToHexString_uint32 0x12ab = "0x12ab"%string.
Proof. reflexivity. Qed.
Example ToHexString_uint32_zero : ToHexString_uint32 0 = "0x0"%string.
Proof. reflexivity. Qed.
Example ToHexString_uint64_max : ToHexString_uint64 (2 ^ 64 - 1) = "0xffffffffffffffff"%string.
Proof. reflexivity. Qed.
Example ParseNumericHexString_ex1 : ParseNumericHexString "0x12ab" = stoll_value 0x12ab.
Proof. reflexivity. Qed.
Example ParseNumericHexString_ex2 : ParseNumericHexString "12AB" = stoll_value 0x12ab.
Proof. reflexivity. Qed.
Example ParseNumericHexString_ex3 : ParseNumericHexString "0x" = stoll_value 0.
Proof. reflexivity. Qed.
Example ParseNumericHexString_ex4 : ParseNumericHexString "xyz" = invalid_argument.
Proof. reflexivity. Qed.
Example ParseNumericHexString_ex5 : ParseNumericHexString "-1" = stoll_value (2 ^ 64 - 1).
Proof. reflexivity. Qed.
Example ParseNumericHexString_ex6 : ParseNumericHexString "0xffffffffffffffff" = out_of_range.
Proof. reflexivity. Qed.
Example ParseNumericHexString_ex7 : ParseNumericHexString "  0x7fffffffffffffffg" = stoll_value (2 ^ 63 - 1).
Proof. reflexivity. Qed.

Lemma list_ascii_of_string_app (a b : string) :
  list_ascii_of_string (a ++ b) = list_ascii_of_string a ++ list_ascii_of_string b.
Proof.
  induction a as [|c a IH]; [reflexivity|].
  rewrite string_app_cons. cbn [list_ascii_of_string app]. now rewrite IH.
Qed.

Lemma hexc_digit (v : Z) :
  0 <= v < 16 ->
  is_hex_digit (char_at hexc (Z.to_nat v)) = true
  /\ hex_digit_value (char_at hexc (Z.to_nat v)) = Some v.
Proof.
  intros Hv.
  assert (E : v = 0 \/ v = 1 \/ v = 2 \/ v = 3 \/ v = 4 \/ v = 5 \/ v = 6 \/ v = 7 \/ v = 8
              \/ v = 9 \/ v = 10 \/ v = 11 \/ v = 12 \/ v = 13 \/ v = 14 \/ v = 15) by lia.
  repeat (destruct E as [->|E]); try subst v; split; reflexivity.
Qed.

Lemma hex_value_snoc (ds : list ascii) (d : ascii) :
  hex_value (ds ++ [d]) = 16 * hex_value ds + default 0 (hex_digit_value d).
Proof. unfold hex_value. now rewrite fold_left_app. Qed.

Lemma printf_x_spec (digits : nat) :
  forall n, 0 <= n < 16 ^ Z.of_nat digits -> (0 < digits)%nat ->
    let ds := list_ascii_of_string (printf_x digits n) in
    Forall (fun d => is_hex_digit d = true) ds
    /\ hex_value ds = n
    /\ (1 <= length ds <= digits)%nat.
Proof.
  induction digits as [|d IH]; intros n Hn Hd; [lia|].
  cbv zeta. cbn [printf_x]. rewrite list_ascii_of_string_app.
  cbn [list_ascii_of_string].
  assert (Hmod : 0 <= n mod 16 < 16) by (apply Z.mod_pos_bound; lia).
  destruct (hexc_digit (n mod 16) Hmod) as [Hdig Hval].
  rewrite Forall_app, hex_value_snoc, length_app, Hval. cbn [default length].
  destruct (Z.eqb_spec (n / 16) 0) as [E|E].
  - cbn [list_ascii_of_string length]. split; [split; [constructor|now repeat constructor]|].
    split; [|lia]. change (hex_value []) with 0. unfold id. pose proof (Z.div_mod n 16). lia.
  - assert (Hq : 0 <= n / 16 < 16 ^ Z.of_nat d).
    { rewrite Nat2Z.inj_succ, Z.pow_succ_r in Hn by lia.
      split; [apply Z.div_pos; lia|apply Z.div_lt_upper_bound; lia]. }
    assert (Hd' : (0 < d)%nat).
    { destruct d; [|lia]. cbn in Hq. lia. }
    destruct (IH (n / 16) Hq Hd') as (H1 & H2 & H3).
    split; [split; [exact H1|now repeat constructor]|].
    rewrite H2. split; [|lia]. unfold id. pose proof (Z.div_mod n 16). lia.
Qed.

Lemma hex_run_all (s : string) :
  Forall (fun d => is_hex_digit d = true) (list_ascii_of_string s) ->
  hex_run s = list_ascii_of_string s.
Proof.
  induction s as [|c s IH]; [reflexivity|]. cbn [list_ascii_of_string hex_run].
  intros H. inversion H as [|? ? Hc Hs]. rewrite Hc. now rewrite IH.
Qed.

Lemma hex_digit_nonneg (c : ascii) : 0 <= default 0 (hex_digit_value c).
Proof. destruct c as [[] [] [] [] [] [] [] []]; vm_compute; congruence. Qed.

Lemma hex_fold_nonneg (l : list ascii) :
  forall acc, 0 <= acc ->
    0 <= fold_left (fun acc d => 16 * acc + default 0 (hex_digit_value d)) l acc.
Proof.
  induction l as [|y l IHl]; intros acc Hacc; [exact Hacc|]. cbn [fold_left]. apply IHl.
  pose proof (hex_digit_nonneg y). lia.
Qed.

Lemma stoll_16_0x (digits : string) :
  let ds := list_ascii_of_string digits in
  Forall (fun d => is_hex_digit d = true) ds -> ds <> [] ->
  stoll_16 ("0x" ++ digits)
  = if LLONG_MAX <? hex_value ds then out_of_range else stoll_value (hex_value ds).
Proof.
  cbv zeta. intros Hds Hne.
  destruct digits as [|d r]; [now destruct Hne|].
  pose proof Hds as Hds'. cbn [list_ascii_of_string] in Hds'.
  apply Forall_cons in Hds' as [Hd Hr].
  change ("0x" ++ String d r)%string with (String "0" (String "x" (String d r))).
  unfold stoll_16. cbn [skip_spaces]. change (isspace "0") with false. cbv iota beta zeta.
  change (Ascii.eqb "x" "x" || Ascii.eqb "x" "X") with true. rewrite Hd. cbn [andb].
  rewrite (hex_run_all (String d r)) by exact Hds.
  cbn [list_ascii_of_string].
  pose proof (hex_fold_nonneg (d :: list_ascii_of_string r) 0 ltac:(lia)) as Hnonneg.
  fold (hex_value (d :: list_ascii_of_string r)) in Hnonneg.
  replace (hex_value (d :: list_ascii_of_string r) <? LLONG_MIN) with false
    by (symmetry; apply Z.ltb_ge; unfold LLONG_MIN; lia).
  reflexivity.
Qed.

Lemma ParseNumericHexString_printf (digits : nat) (n : Z) :
  (0 < digits <= 16)%nat -> 0 <= n < 16 ^ Z.of_nat digits ->
  ParseNumericHexString ("0x" +:+ printf_x digits n)
  = if LLONG_MAX <? n then out_of_range else stoll_value n.
Proof.
  intros Hd Hn. destruct (printf_x_spec digits n Hn ltac:(lia)) as (H1 & H2 & H3).
  unfold ParseNumericHexString. rewrite stoll_16_0x.
  - rewrite H2. destruct (LLONG_MAX <? n); [reflexivity|].
    unfold to_uint64. rewrite Z.mod_small; [reflexivity|].
    assert (16 ^ Z.of_nat digits <= 16 ^ 16) by (apply Z.pow_le_mono_r; lia).
    change (16 ^ 16) with (2 ^ 64) in *. lia.
  - exact H1.
  - intros E. rewrite E in H3. cbn in H3. lia.
Qed.

(** X14. [ParseNumericHexString] reads back what [ToHexString] writes for a
    [uint32], and for a [uint64] below 2^63; the text fits the 64 characters
    of [obuf].  For a [uint64] from 2^63 on, [stoll] throws [out_of_range],
    although the function returns a [uint64]. *)
Theorem ParseNumericHexString_ToHexString :
  (forall n, 0 <= n < 2 ^ 32 ->
     ParseNumericHexString (ToHexString_uint32 n) = stoll_value n
     /\ (3 <= String.length (ToHexString_uint32 n) <= 10)%nat)
  /\ (forall n, 0 <= n < 2 ^ 63 ->
        ParseNumericHexString (ToHexString_uint64 n) = stoll_value n
        /\ (3 <= String.length (ToHexString_uint64 n) <= 18)%nat)
  /\ (forall n, 2 ^ 63 <= n < 2 ^ 64 ->
        ParseNumericHexString (ToHexString_uint64 n) = out_of_range).
Proof.
  assert (Hlen : forall digits n, (0 < digits)%nat -> 0 <= n < 16 ^ Z.of_nat digits ->
            (3 <= String.length ("0x" +:+ printf_x digits n) <= 2 + digits)%nat).
  { intros digits n Hd Hn. destruct (printf_x_spec digits n Hn Hd) as (_ & _ & H3).
    change ("0x" +:+ printf_x digits n) with (String "0" (String "x" (printf_x digits n))).
    cbn [String.length]. rewrite <- length_list_ascii_of_string. lia. }
  split; [|split]; intros n Hn.
  - split; [|apply (Hlen 8%nat); [lia|change (16 ^ Z.of_nat 8) with (2 ^ 32); lia]].
    unfold ToHexString_uint32. rewrite ParseNumericHexString_printf.
    + replace (LLONG_MAX <? n) with false; [reflexivity|].
      symmetry. apply Z.ltb_ge. unfold LLONG_MAX. lia.
    + lia.
    + change (16 ^ Z.of_nat 8) with (2 ^ 32). lia.
  - split; [|apply (Hlen 16%nat); [lia|change (16 ^ Z.of_nat 16) with (2 ^ 64); lia]].
    unfold ToHexString_uint64. rewrite ParseNumericHexString_printf.
    + replace (LLONG_MAX <? n) with false; [reflexivity|].
      symmetry. apply Z.ltb_ge. unfold LLONG_MAX. lia.
    + lia.
    + change (16 ^ Z.of_nat 16) with (2 ^ 64). lia.
  - unfold ToHexString_uint64. rewrite ParseNumericHexString_printf.
    + replace (LLONG_MAX <? n) with true; [reflexivity|].
      symmetry. apply Z.ltb_lt. unfold LLONG_MAX. lia.
    + lia.
    + change (16 ^ Z.of_nat 16) with (2 ^ 64). lia.
Qed.

Lemma ParseNumericHexString_ToHexString_witness :
  ParseNumericHexString (ToHexString_uint32 0x12ab) = stoll_value 0x12ab
  /\ ParseNumericHexString (ToHexString_uint64 (2 ^ 63 - 1)) = stoll_value (2 ^ 63 - 1)
  /\ ParseNumericHexString (ToHexString_uint64 (2 ^ 63)) = out_of_range.
Proof.
  destruct ParseNumericHexString_ToHexString as (H1 & H2 & H3).
  split; [apply (H1 0x12ab); lia|].
  split; [apply (H2 (2 ^ 63 - 1)); lia|apply (H3 (2 ^ 63)); lia].
Defined.


Lemma hex_value_hex_pairs (bs : list byte) :
  forall acc,
    fold_left (fun acc d => 16 * acc + default 0 (hex_digit_value d))
      (list_ascii_of_string (hex_pairs bs)) acc
    = fold_left (fun acc b => 256 * acc + uchar_to_int b) bs acc.
Proof.
  induction bs as [|b bs IH]; intros acc; [reflexivity|].
  cbn [hex_pairs list_ascii_of_string fold_left]. rewrite IH. f_equal.
  pose proof (uchar_range b) as Hb.
  destruct (hexc_digit (uchar_to_int b / 16)) as [_ ->];
    [split; [apply Z.div_pos; lia|apply Z.div_lt_upper_bound; lia]|].
  destruct (hexc_digit (uchar_to_int b mod 16)) as [_ ->]; [apply Z.mod_pos_bound; lia|].
  cbn [default from_option]. unfold id. pose proof (Z.div_mod (uchar_to_int b) 16). lia.
Qed.

(** X15. The fixed-width text of [UIntToHexString] is read back by
    [ParseNumericHexString] for every value below 2^63 of a type of one to
    eight bytes; from 2^63 on [stoll] throws [out_of_range]. *)
Theorem ParseNumericHexString_UIntToHexString (sizeof_T : nat) (t : Z) (hex : list ascii) :
  (1 <= sizeof_T <= 8)%nat ->
  length hex = (sizeof_T * 2 + 2 + 1)%nat ->
  0 <= t < 256 ^ Z.of_nat sizeof_T ->
  ParseNumericHexString <$> UIntToHexString sizeof_T t hex
  = Some (if 2 ^ 63 <=? t then out_of_range else stoll_value t).
Proof.
  intros Hsize Hlen Ht. rewrite UIntToHexString_eq by exact Hlen. cbn [fmap option_fmap option_map].
  f_equal. unfold ParseNumericHexString.
  destruct (hex_pairs_lower (be_bytes sizeof_T t)) as [Hlow Hl].
  assert (Hval : hex_value (list_ascii_of_string (hex_pairs (be_bytes sizeof_T t))) = t).
  { unfold hex_value. rewrite hex_value_hex_pairs. now apply be_value_be_bytes. }
  rewrite stoll_16_0x.
  - rewrite Hval. unfold LLONG_MAX.
    destruct (Z.ltb_spec (2 ^ 63 - 1) t), (Z.leb_spec (2 ^ 63) t); try lia; [reflexivity|].
    unfold to_uint64. rewrite Z.mod_small; [reflexivity|lia].
  - eapply Forall_impl; [exact Hlow|]. intros c. apply lower_hex_is_hex.
  - intros E. apply (f_equal length) in E.
    rewrite length_list_ascii_of_string, Hl, be_bytes_length in E. cbn in E. lia.
Qed.

Lemma ParseNumericHexString_UIntToHexString_witness :
  ParseNumericHexString <$> UIntToHexString 8 (2 ^ 63 + 1) (replicate 19 NUL) = Some out_of_range
  /\ ParseNumericHexString <$> UIntToHexString 2 0x12ab (replicate 7 NUL)
     = Some (stoll_value 0x12ab).
Proof.
  split.
  - apply (ParseNumericHexString_UIntToHexString 8 (2 ^ 63 + 1) (replicate 19 NUL));
      [lia|reflexivity|lia].
  - apply (ParseNumericHexString_UIntToHexString 2 0x12ab (replicate 7 NUL));
      [lia|reflexivity|lia].
Defined.

(** *** How the hex functions compose *)

Lemma whole_bytes_pairs (ds : list ascii) :
  whole_bytes ds = map byte_of_pair (digit_pairs ds).
Proof.
  enough (H : whole_bytes ds = map byte_of_pair (digit_pairs ds)
              /\ forall d, whole_bytes (d :: ds) = map byte_of_pair (digit_pairs (d :: ds)))
    by apply H.
  induction ds as [|d' ds [IH1 IH2]]; [split; reflexivity|].
  split; [apply IH2|]. intros d. cbn [whole_bytes digit_pairs map]. now rewrite IH1.
Qed.

Lemma whole_bytes_pair_reverse (ds : list ascii) :
  whole_bytes (pair_reverse ds) = rev (whole_bytes ds).
Proof.
  unfold pair_reverse. now rewrite !whole_bytes_pairs, digit_pairs_unpair, map_rev.
Qed.

Lemma hex_run_list (ds : list ascii) :
  Forall (fun d => is_hex_digit d = true) ds -> hex_run (string_of_list_ascii ds) = ds.
Proof.
  induction 1 as [|d ds Hd _ IH]; [reflexivity|].
  cbn [string_of_list_ascii hex_run]. now rewrite Hd, IH.
Qed.

Lemma ParseHexString_prefixed (p : ascii) (ds : list ascii) :
  p = "x"%char \/ p = "X"%char ->
  Forall (fun d => is_hex_digit d = true) ds ->
  ParseHexString (String "0" (String p (string_of_list_ascii ds))) = whole_bytes ds.
Proof.
  intros Hp Hds. unfold ParseHexString. rewrite skip_prefix_spec, ParseHexString_loop_spec.
  replace (strip_0x (String "0" (String p (string_of_list_ascii ds))))
    with (string_of_list_ascii ds) by (destruct Hp as [-> | ->]; reflexivity).
  cbn [app]. now rewrite hex_run_list.
Qed.

Lemma pair_reverse_Forall (P : ascii -> Prop) (ds : list ascii) :
  Forall P ds -> Forall P (pair_reverse ds).
Proof.
  intros H. unfold pair_reverse. apply unpair_Forall, List.Forall_rev, digit_pairs_Forall, H.
Qed.

Lemma hex_digit_accepted (c : ascii) : is_hex_digit c = true -> accepted_char c = true.
Proof. destruct c as [[] [] [] [] [] [] [] []]; (reflexivity || discriminate). Qed.

(** X27. [ReverseHexString] reverses the bytes: for "0x" or "0X" and an even
    number of hex digits, the result decodes to the bytes of the input in
    reverse order. *)
Theorem ReverseHexString_bytes (p : ascii) (ds : list ascii) :
  p = "x"%char \/ p = "X"%char ->
  Forall (fun d => is_hex_digit d = true) ds ->
  Nat.even (length ds) = true ->
  let s := String "0" (String p (string_of_list_ascii ds)) in
  ParseHexString <$> ReverseHexString s = Some (rev (ParseHexString s)).
Proof.
  intros Hp Hds Hev s. unfold s.
  rewrite ReverseHexString_body.
  - cbn [fmap option_fmap option_map]. f_equal.
    rewrite !ParseHexString_prefixed by (auto using pair_reverse_Forall).
    apply whole_bytes_pair_reverse.
  - exact Hev.
  - apply has_0x_sized_spec. exists (string_of_list_ascii ds). destruct Hp as [-> | ->]; auto.
Qed.

Lemma ReverseHexString_bytes_witness :
  ParseHexString <$> ReverseHexString "0x0102ff" = Some [xff; x02; x01].
Proof.
  apply (ReverseHexString_bytes "x" ["0"; "1"; "0"; "2"; "f"; "f"]%char).
  - left; reflexivity.
  - repeat constructor.
  - reflexivity.
Defined.

(** X28. [ReverseHexNumericString] gives the bytes least significant first:
    for "0x" or "0X" and hex digits, the result decodes to the bytes of the
    zero-padded digits in reverse order. *)
Theorem ReverseHexNumericString_bytes (p : ascii) (ds : list ascii) :
  p = "x"%char \/ p = "X"%char ->
  Forall (fun d => is_hex_digit d = true) ds ->
  ParseHexString <$> ReverseHexNumericString (String "0" (String p (string_of_list_ascii ds)))
  = Some (rev (whole_bytes (zero_pad ds))).
Proof.
  intros Hp Hds.
  rewrite ReverseHexNumericString_body.
  - cbn [fmap option_fmap option_map]. f_equal.
    assert (Hpad : Forall (fun d => is_hex_digit d = true) (zero_pad ds)).
    { unfold zero_pad. destruct (Nat.odd (length ds)); [now constructor|exact Hds]. }
    rewrite ParseHexString_prefixed; [|now left|].
    + unfold byte_reverse. apply whole_bytes_pair_reverse.
    + unfold byte_reverse. now apply pair_reverse_Forall.
  - apply isHexNumeric_Forall. split; [discriminate|].
    cbn [list_ascii_of_string]. rewrite list_ascii_of_string_of_list_ascii.
    constructor; [reflexivity|]. constructor; [destruct Hp as [-> | ->]; reflexivity|].
    eapply Forall_impl; [exact Hds|]. exact hex_digit_accepted.
  - apply has_0x_sized_spec. exists (string_of_list_ascii ds). destruct Hp as [-> | ->]; auto.
Qed.

Lemma ReverseHexNumericString_bytes_witness :
  ParseHexString <$> ReverseHexNumericString "0x123" = Some [x23; x01].
Proof.
  apply (ReverseHexNumericString_bytes "x" ["1"; "2"; "3"]%char).
  - left; reflexivity.
  - repeat constructor.
Defined.

Lemma lower_hex_digit (d : ascii) :
  is_lower_hex d = true ->
  exists v, 0 <= v < 16 /\ hex_digit_value d = Some v /\ char_at hexc (Z.to_nat v) = d.
Proof.
  destruct d as [[] [] [] [] [] [] [] []]; try discriminate; intros _;
    eexists; (split; [|split; [reflexivity|reflexivity]]); lia.
Qed.

Lemma hex_pairs_whole_bytes (ds : list ascii) :
  Forall (fun d => is_lower_hex d = true) ds -> Nat.even (length ds) = true ->
  hex_pairs (whole_bytes ds) = string_of_list_ascii ds.
Proof.
  enough (H : (Forall (fun d => is_lower_hex d = true) ds -> Nat.even (length ds) = true ->
               hex_pairs (whole_bytes ds) = string_of_list_ascii ds)
              /\ forall d, Forall (fun d => is_lower_hex d = true) (d :: ds) ->
                           Nat.even (length (d :: ds)) = true ->
                           hex_pairs (whole_bytes (d :: ds)) = string_of_list_ascii (d :: ds))
    by apply H.
  induction ds as [|d2 ds [IH1 IH2]].
  - split; [reflexivity|]. intros d _ H. discriminate H.
  - split; [apply IH2|]. intros d1 Hall Hev.
    apply Forall_cons in Hall as [H1 Hall]. apply Forall_cons in Hall as [H2 Hall].
    cbn [length] in Hev. rewrite Nat.even_succ_succ in Hev.
    cbn [whole_bytes hex_pairs string_of_list_ascii]. rewrite IH1 by assumption.
    destruct (lower_hex_digit d1 H1) as (v1 & R1 & -> & E1).
    destruct (lower_hex_digit d2 H2) as (v2 & R2 & -> & E2).
    cbn [default from_option]. unfold id. rewrite uchar_to_int_to_uchar.
    rewrite (Z.mod_small (16 * v1 + v2)) by lia.
    replace ((16 * v1 + v2) / 16) with v1 by (apply (Z.div_unique _ _ _ v2); lia).
    replace ((16 * v1 + v2) mod 16) with v2 by (apply (Z.mod_unique _ _ v1); lia).
    now rewrite E1, E2.
Qed.

(** X29. Decoding and encoding again gives the text back when it is "0x"
    followed by a non-empty run of lowercase hex digits, even in number. *)
Theorem ToHexString_ParseHexString (ds : list ascii) :
  ds <> [] ->
  Forall (fun d => is_lower_hex d = true) ds ->
  Nat.even (length ds) = true ->
  ToHexString (ParseHexString (String "0" (String "x" (string_of_list_ascii ds))))
  = String "0" (String "x" (string_of_list_ascii ds)).
Proof.
  intros Hne Hlow Hev.
  rewrite ParseHexString_prefixed;
    [|now left|eapply Forall_impl; [exact Hlow|exact lower_hex_is_hex]].
  rewrite ToHexString_spec.
  destruct (whole_bytes ds) eqn:E.
  - apply (f_equal length) in E. rewrite whole_bytes_length in E.
    destruct ds as [|d1 [|d2 ds]]; [now destruct Hne|discriminate Hev|discriminate E].
  - rewrite <- E, hex_pairs_whole_bytes by assumption. reflexivity.
Qed.

Lemma ToHexString_ParseHexString_witness :
  ToHexString (ParseHexString "0x01abff") = "0x01abff"%string.
Proof.
  apply (ToHexString_ParseHexString ["0"; "1"; "a"; "b"; "f"; "f"]%char).
  - discriminate.
  - repeat constructor.
  - reflexivity.
Defined.

(** *** Byte swaps and hex text *)

Lemma to_uchar_mod (x y : Z) : x mod 256 = y mod 256 -> to_uchar x = to_uchar y.
Proof. unfold to_uchar. now intros ->. Qed.

Lemma byte_bits (x : Z) (k j : Z) :
  0 <= k -> 0 <= j ->
  Z.testbit ((x / 256 ^ k) mod 256) j = if j <? 8 then Z.testbit x (8 * k + j) else false.
Proof.
  intros Hk Hj. change 256 with (2 ^ 8) at 2. 
  replace (256 ^ k) with (2 ^ (8 * k)) by (rewrite Z.pow_mul_r by lia; reflexivity).
  destruct (Z.ltb_spec j 8).
  - rewrite Z.mod_pow2_bits_low by lia. rewrite Z.div_pow2_bits by lia. f_equal. lia.
  - apply Z.mod_pow2_bits_high. lia.
Qed.

Lemma flip_byte_at (w k j : Z) :
  0 <= k < w -> 0 <= j < 8 -> flip_byte w (8 * (w - 1 - k) + j) = 8 * k + j.
Proof.
  intros Hk Hj. unfold flip_byte.
  replace ((8 * (w - 1 - k) + j) / 8) with (w - 1 - k)
    by (apply (Z.div_unique _ _ _ j); lia).
  replace ((8 * (w - 1 - k) + j) mod 8) with j
    by (apply (Z.mod_unique _ _ (w - 1 - k)); lia).
  lia.
Qed.

Lemma be_bytes_swapped (w : nat) (f : Z -> Z) (n : Z) :
  (forall i, 0 <= i < 8 * Z.of_nat w ->
             Z.testbit (f n) i = Z.testbit n (flip_byte (Z.of_nat w) i)) ->
  be_bytes w (f n) = rev (be_bytes w n).
Proof.
  intros Hbit. apply (nth_ext _ _ x00 x00).
  - unfold be_bytes. now rewrite length_rev, !length_map.
  - unfold be_bytes at 1. rewrite length_map, length_seq. intros i Hi.
    rewrite rev_nth by (rewrite be_bytes_length; exact Hi).
    rewrite be_bytes_length. unfold be_bytes.
    assert (Hnth : forall t k, (k < w)%nat ->
              nth k (map (fun i => to_uchar (t / 256 ^ Z.of_nat (w - 1 - i))) (seq 0 w)) x00
              = to_uchar (t / 256 ^ Z.of_nat (w - 1 - k))).
    { intros t k Hk.
      rewrite (nth_indep _ x00 (to_uchar (t / 256 ^ Z.of_nat (w - 1 - 0))))
        by (rewrite length_map, length_seq; exact Hk).
      rewrite (map_nth (fun i => to_uchar (t / 256 ^ Z.of_nat (w - 1 - i)))).
      now rewrite seq_nth by exact Hk. }
    rewrite !Hnth by lia.
    apply to_uchar_mod, Z.bits_inj'. intros j Hj.
    rewrite !byte_bits by lia. destruct (Z.ltb_spec j 8); [|reflexivity].
    rewrite Hbit by lia.
    replace (Z.of_nat (w - 1 - i)) with (Z.of_nat w - 1 - Z.of_nat i) by lia.
    rewrite flip_byte_at by lia. f_equal. lia.
Qed.

Lemma hex_pairs_unpair (bs : list byte) :
  list_ascii_of_string (hex_pairs bs) = unpair (map byte_digits bs).
Proof.
  induction bs as [|b bs IH]; [reflexivity|].
  cbn [hex_pairs list_ascii_of_string map]. unfold unpair in *. cbn [flat_map app fst snd byte_digits].
  now rewrite IH.
Qed.

Lemma pair_reverse_hex_pairs (bs : list byte) :
  pair_reverse (list_ascii_of_string (hex_pairs bs)) = list_ascii_of_string (hex_pairs (rev bs)).
Proof.
  unfold pair_reverse. now rewrite !hex_pairs_unpair, digit_pairs_unpair, map_rev.
Qed.

Lemma ReverseHexString_hex_pairs (bs : list byte) :
  ReverseHexString ("0x" ++ hex_pairs bs) = Some ("0x" ++ hex_pairs (rev bs))%string.
Proof.
  change ("0x" ++ hex_pairs bs)%string with (String "0" (String "x" (hex_pairs bs))).
  rewrite <- (string_of_list_ascii_of_string (hex_pairs bs)).
  rewrite ReverseHexString_body.
  - rewrite pair_reverse_hex_pairs, string_of_list_ascii_of_string. reflexivity.
  - rewrite hex_pairs_unpair, unpair_length. apply Nat.even_spec. now exists (length (map byte_digits bs)).
  - reflexivity.
Qed.

Lemma be_bytes_widen (x : Z) :
  0 <= x < 2 ^ 16 -> be_bytes 4 x = x00 :: x00 :: be_bytes 2 x.
Proof.
  intros Hx. unfold be_bytes. cbn [seq map Nat.sub].
  assert (E3 : x / 256 ^ Z.of_nat 3 = 0) by (apply Z.div_small; cbn; lia).
  assert (E2 : x / 256 ^ Z.of_nat 2 = 0) by (apply Z.div_small; cbn; lia).
  rewrite E3, E2. reflexivity.
Qed.

(** X30. Swapping the bytes of a number and reversing its hex text are the
    same.  For a [uint32] or [uint64], [ReverseHexString] of the fixed-width
    text of [n] is the fixed-width text of [BSwap32] or [BSwap64] of [n].
    [BSwap16] returns a [uint32], so [UIntToHexString(BSwap16(n))] is the
    text of a four-byte number: "0x0000" followed by the digits of the
    reversed text of the [uint16]; narrowed to [uint16], the result has the
    reversed text itself. *)
Theorem BSwap_ReverseHexString (n : Z) (hex hex' : list ascii) :
  (0 <= n < 2 ^ 16 -> length hex = 7%nat -> length hex' = 11%nat ->
   exists r : string,
     UIntToHexString 2 n hex ≫= ReverseHexString = Some ("0x" +:+ r)
     /\ UIntToHexString 4 (BSwap16 n) hex' = Some ("0x0000" +:+ r)
     /\ UIntToHexString 2 (to_uint16 (BSwap16 n)) hex = Some ("0x" +:+ r))
  /\ (0 <= n < 2 ^ 32 -> length hex = 11%nat ->
      UIntToHexString 4 n hex ≫= ReverseHexString = UIntToHexString 4 (BSwap32 n) hex)
  /\ (0 <= n < 2 ^ 64 -> length hex = 19%nat ->
      UIntToHexString 8 n hex ≫= ReverseHexString = UIntToHexString 8 (BSwap64 n) hex).
Proof.
  assert (H : forall (w : nat) (f : Z -> Z),
            (forall i, 0 <= i < 8 * Z.of_nat w ->
                       Z.testbit (f n) i = Z.testbit n (flip_byte (Z.of_nat w) i)) ->
            length hex = (w * 2 + 2 + 1)%nat ->
            UIntToHexString w n hex ≫= ReverseHexString = UIntToHexString w (f n) hex).
  { intros w f Hbit Hlen. rewrite !UIntToHexString_eq by exact Hlen. cbn [mbind option_bind].
    now rewrite ReverseHexString_hex_pairs, (be_bytes_swapped w f n Hbit). }
  split; [|split].
  - intros _ Hlen Hlen'. exists (hex_pairs (rev (be_bytes 2 n))).
    assert (Hsw : be_bytes 2 (BSwap16 n) = rev (be_bytes 2 n)).
    { apply be_bytes_swapped. intros i Hi. apply BSwap16_bit. lia. }
    pose proof (BSwap16_range n) as Hr.
    split; [|split].
    + rewrite UIntToHexString_eq by exact Hlen. cbn [mbind option_bind].
      apply ReverseHexString_hex_pairs.
    + rewrite UIntToHexString_eq by exact Hlen'.
      rewrite be_bytes_widen, Hsw by exact Hr. reflexivity.
    + unfold to_uint16. rewrite Z.mod_small by exact Hr.
      rewrite UIntToHexString_eq, Hsw by exact Hlen. reflexivity.
  - intros _ Hlen. apply (H 4%nat BSwap32); [|exact Hlen]. intros i Hi. apply BSwap32_bit. lia.
  - intros _ Hlen. apply (H 8%nat BSwap64); [|exact Hlen]. intros i Hi. apply BSwap64_bit. lia.
Qed.

Lemma BSwap_ReverseHexString_witness :
  UIntToHexString 2 0x1234 (replicate 7 NUL) ≫= ReverseHexString = Some "0x3412"%string
  /\ UIntToHexString 4 (BSwap16 0x1234) (replicate 11 NUL) = Some "0x00003412"%string
  /\ UIntToHexString 2 (to_uint16 (BSwap16 0x1234)) (replicate 7 NUL) = Some "0x3412"%string
  /\ UIntToHexString 4 0x12345678 (replicate 11 NUL) ≫= ReverseHexString
     = Some "0x78563412"%string.
Proof.
  destruct (proj1 (BSwap_ReverseHexString 0x1234 (replicate 7 NUL) (replicate 11 NUL))
              ltac:(lia) eq_refl eq_refl) as (r & H1 & H2 & H3).
  assert (E : r = "3412"%string).
  { vm_compute in H1. now injection H1 as <-. }
  subst r. split; [exact H1|]. split; [exact H2|]. split; [exact H3|].
  apply (proj1 (proj2 (BSwap_ReverseHexString 0x12345678 (replicate 11 NUL) []))); [lia|reflexivity].
Defined.

(** ** util.h: routable addresses *)

Module Routable.

(** A [boost::asio::ip::address] as [IsRoutable] reads it: version 4 with the
    value of [to_v4().to_ulong()], or version 6 with the sixteen bytes of
    [to_v6().to_bytes()]. *)
Inductive address :=
| address_v4 (u : Z)
| address_v6 (b : list byte).

Section Routable.

(** [address.is_loopback()] and [address.is_unspecified()], which the address
    library defines. *)
Variable is_loopback : address -> bool.
Variable is_unspecified : address -> bool.

(** [b[i]] for the bytes of a version 6 address. *)
Definition v6_byte (b : list byte) (i : nat) : Z := uchar_to_int (nth i b x00).

(** [bool IsRoutable(const boost::asio::ip::address& address)] *)
Definition IsRoutable (a : address) : bool :=
  if is_loopback a || is_unspecified a then false
  else
    match a with
    | address_v4 u =>
        if (Z.land u 0xFF000000 =? 0x0A000000) || (Z.land u 0xFFFF0000 =? 0xC0A80000)
           || ((0xAC100000 <=? u) && (u <? 0xAC200000))
        then false
        else if Z.land u 0xFFFF0000 =? 0xA9FE0000 then false
        else true
    | address_v6 b =>
        if (v6_byte b 0 =? 0xFE) && (v6_byte b 1 =? 0x80) && (v6_byte b 2 =? 0)
           && (v6_byte b 3 =? 0) && (v6_byte b 4 =? 0) && (v6_byte b 5 =? 0)
           && (v6_byte b 6 =? 0) && (v6_byte b 7 =? 0)
        then false
        else if Z.land (v6_byte b 0) 0xFE =? 0xFC then false
        else if (v6_byte b 0 =? 0x20) && (v6_byte b 1 =? 0x01) && (v6_byte b 2 =? 0x00)
                && (Z.land (v6_byte b 3) 0xF0 =? 0x10)
        then false
        else true
    end.

(** The version 4 address [a.b.c.d]. *)
Definition dotted (a b c d : byte) : address :=
  address_v4 (2 ^ 24 * uchar_to_int a + 2 ^ 16 * uchar_to_int b
              + 2 ^ 8 * uchar_to_int c + uchar_to_int d).

Lemma land_high_mask (u : Z) (n k : Z) :
  0 <= n -> 0 <= k -> 0 <= u < 2 ^ (n + k) ->
  Z.land u (Z.shiftl (Z.ones k) n) = 2 ^ n * (u / 2 ^ n).
Proof.
  intros Hn Hk Hu.
  rewrite <- Z.shiftr_div_pow2, Z.mul_comm, <- Z.shiftl_mul_pow2 by lia.
  apply Z.bits_inj'. intros i Hi.
  rewrite Z.land_spec.
  destruct (Z_lt_le_dec i n) as [Hlt|Hge].
  - rewrite !Z.shiftl_spec_low by lia. apply andb_false_r.
  - rewrite !Z.shiftl_spec by lia. rewrite Z.shiftr_spec by lia.
    replace (i - n + n) with i by lia.
    destruct (Z_lt_le_dec (i - n) k) as [Hlt|Hge'].
    + rewrite Z.ones_spec_low by lia. apply andb_true_r.
    + rewrite Z.ones_spec_high by lia. rewrite andb_false_r.
      symmetry. apply (testbit_small u (Z.to_nat (n + k))); rewrite Z2Nat.id by lia; (exact Hu || lia).
Qed.

Lemma v4_masks (a b c d : byte) :
  let u := 2 ^ 24 * uchar_to_int a + 2 ^ 16 * uchar_to_int b
           + 2 ^ 8 * uchar_to_int c + uchar_to_int d in
  Z.land u 0xFF000000 = 2 ^ 24 * uchar_to_int a
  /\ Z.land u 0xFFFF0000 = 2 ^ 24 * uchar_to_int a + 2 ^ 16 * uchar_to_int b.
Proof.
  cbv zeta.
  pose proof (uchar_range a). pose proof (uchar_range b).
  pose proof (uchar_range c). pose proof (uchar_range d).
  split.
  - change 0xFF000000 with (Z.shiftl (Z.ones 8) 24).
    rewrite land_high_mask by lia. f_equal.
    symmetry. apply (Z.div_unique _ _ _ (2 ^ 16 * uchar_to_int b + 2 ^ 8 * uchar_to_int c + uchar_to_int d)); lia.
  - change 0xFFFF0000 with (Z.shiftl (Z.ones 16) 16).
    rewrite land_high_mask by lia.
    replace ((2 ^ 24 * uchar_to_int a + 2 ^ 16 * uchar_to_int b + 2 ^ 8 * uchar_to_int c + uchar_to_int d) / 2 ^ 16)
      with (2 ^ 8 * uchar_to_int a + uchar_to_int b); [lia|].
    apply (Z.div_unique _ _ _ (2 ^ 8 * uchar_to_int c + uchar_to_int d)); lia.
Qed.

(** X16. A version 4 address [a.b.c.d] is routable exactly when it is neither
    loopback nor unspecified and lies outside 10.0.0.0/8, 172.16.0.0/12,
    192.168.0.0/16 and 169.254.0.0/16. *)
Theorem IsRoutable_v4 (a b c d : byte) :
  IsRoutable (dotted a b c d) = true
  <-> is_loopback (dotted a b c d) = false
      /\ is_unspecified (dotted a b c d) = false
      /\ uchar_to_int a <> 10
      /\ ~ (uchar_to_int a = 172 /\ 16 <= uchar_to_int b <= 31)
      /\ ~ (uchar_to_int a = 192 /\ uchar_to_int b = 168)
      /\ ~ (uchar_to_int a = 169 /\ uchar_to_int b = 254).
Proof.
  unfold IsRoutable.
  destruct (is_loopback (dotted a b c d)); [cbn; intuition discriminate|].
  destruct (is_unspecified (dotted a b c d)); [cbn; intuition discriminate|].
  cbn [orb]. unfold dotted.
  destruct (v4_masks a b c d) as [-> ->].
  pose proof (uchar_range a). pose proof (uchar_range b).
  pose proof (uchar_range c). pose proof (uchar_range d).
  match goal with |- context [if ?c then false else _] => destruct c eqn:E1 end.
  { split; [discriminate|]. intros (_ & _ & G1 & G2 & G3 & G4). exfalso.
    rewrite !orb_true_iff, andb_true_iff, !Z.eqb_eq, Z.leb_le, Z.ltb_lt in E1. lia. }
  rewrite !orb_false_iff, andb_false_iff, !Z.eqb_neq, Z.leb_gt, Z.ltb_ge in E1.
  match goal with |- context [if ?c then false else _] => destruct c eqn:E2 end.
  { split; [discriminate|]. intros (_ & _ & G1 & G2 & G3 & G4). exfalso.
    rewrite Z.eqb_eq in E2. lia. }
  rewrite Z.eqb_neq in E2.
  split; [|reflexivity]. intros _. repeat split; lia.
Qed.

Lemma land_FE (x : Z) : 0 <= x < 256 -> (Z.land x 0xFE = 0xFC <-> x = 0xFC \/ x = 0xFD).
Proof.
  intros Hx.
  assert (E : Z.land x 0xFE = 2 * (x / 2)).
  { change 0xFE with (Z.shiftl (Z.ones 7) 1). rewrite land_high_mask by lia. reflexivity. }
  rewrite E. pose proof (Z.div_mod x 2). pose proof (Z.mod_pos_bound x 2). lia.
Qed.

Lemma land_F0 (x : Z) : 0 <= x < 256 -> (Z.land x 0xF0 = 0x10 <-> 0x10 <= x <= 0x1F).
Proof.
  intros Hx.
  assert (E : Z.land x 0xF0 = 16 * (x / 16)).
  { change 0xF0 with (Z.shiftl (Z.ones 4) 4). rewrite land_high_mask by lia. reflexivity. }
  rewrite E. pose proof (Z.div_mod x 16). pose proof (Z.mod_pos_bound x 16). lia.
Qed.

(** X17. A version 6 address is routable exactly when it is neither loopback
    nor unspecified and lies outside fe80::/64, fc00::/7 and 2001:10::/28. *)
Theorem IsRoutable_v6 (b : list byte) :
  IsRoutable (address_v6 b) = true
  <-> is_loopback (address_v6 b) = false
      /\ is_unspecified (address_v6 b) = false
      /\ ~ (v6_byte b 0 = 0xFE /\ v6_byte b 1 = 0x80
            /\ Forall (fun i => v6_byte b i = 0) [2; 3; 4; 5; 6; 7]%nat)
      /\ ~ (v6_byte b 0 = 0xFC \/ v6_byte b 0 = 0xFD)
      /\ ~ (v6_byte b 0 = 0x20 /\ v6_byte b 1 = 0x01 /\ v6_byte b 2 = 0
            /\ 0x10 <= v6_byte b 3 <= 0x1F).
Proof.
  unfold IsRoutable.
  destruct (is_loopback (address_v6 b)); [cbn; intuition discriminate|].
  destruct (is_unspecified (address_v6 b)); [cbn; intuition discriminate|].
  cbn [orb].
  pose proof (land_FE (v6_byte b 0) (uchar_range _)) as HFE.
  pose proof (land_F0 (v6_byte b 3) (uchar_range _)) as HF0.
  rewrite !Forall_cons, Forall_nil.
  match goal with |- context [if ?c then false else _] => destruct c eqn:E1 end.
  { split; [discriminate|]. intros (_ & _ & G1 & _). exfalso. apply G1.
    rewrite !andb_true_iff, !Z.eqb_eq in E1. tauto. }
  rewrite !andb_false_iff, !Z.eqb_neq in E1.
  match goal with |- context [if ?c then false else _] => destruct c eqn:E2 end.
  { split; [discriminate|]. intros (_ & _ & _ & G2 & _). exfalso. apply G2.
    rewrite Z.eqb_eq in E2. now apply HFE. }
  rewrite Z.eqb_neq in E2.
  match goal with |- context [if ?c then false else _] => destruct c eqn:E3 end.
  { split; [discriminate|]. intros (_ & _ & _ & _ & G3). exfalso. apply G3.
    rewrite !andb_true_iff, !Z.eqb_eq in E3. tauto. }
  rewrite !andb_false_iff, !Z.eqb_neq in E3.
  split; [|reflexivity]. intros _. repeat split; tauto.
Qed.

End Routable.

End Routable.

(** ** util.h: comparing doubles *)

Module Double.

Import SpecFloat.

(** A C++ [double] is an IEEE 754 binary64 number: 53 bits of precision,
    infinities at exponent 1024. *)
Definition prec : Z := 53.
Definition emax : Z := 1024.

(** [std::numeric_limits<double>::epsilon()], 2^-52. *)
Definition epsilon : spec_float := S754_finite false (2 ^ 52) (-104).

(** [std::min(a, b)]: [b] when [b < a], else [a]. *)
Definition std_min (a b : spec_float) : spec_float := if SFltb b a then b else a.

(** [bool IsDoubleEqual(double a, double b)] *)
Definition IsDoubleEqual (a b : spec_float) : bool :=
  SFltb (SFabs (SFsub prec emax a b)) (SFmul prec emax (SFabs (std_min a b)) epsilon).

(** [bool IsDoubleNonPositiveNumber(double a)] *)
Definition IsDoubleNonPositiveNumber (a : spec_float) : bool := SFltb a epsilon.

Definition is_zero (a : spec_float) : bool :=
  match a with S754_zero _ => true | _ => false end.

Definition is_nan (a : spec_float) : bool :=
  match a with S754_nan => true | _ => false end.

(** The doubles 1.0 and 2^-60. *)
Definition one : spec_float := S754_finite false (2 ^ 52) (-52).
Definition tiny : spec_float := S754_finite false (2 ^ 52) (-112).

Example IsDoubleEqual_one : IsDoubleEqual one one = true.
Proof. vm_compute. reflexivity. Qed.

Example IsDoubleEqual_zero_zero : IsDoubleEqual (S754_zero false) (S754_zero false) = false.
Proof. vm_compute. reflexivity. Qed.

Lemma SFltb_abs_zero (x : spec_float) (s : bool) : SFltb (SFabs x) (S754_zero s) = false.
Proof. destruct x as [sx|sx| |sx m e]; reflexivity. Qed.

Lemma SFsub_nan (a b : spec_float) :
  is_nan a || is_nan b = true -> SFsub prec emax a b = S754_nan.
Proof. destruct a as [[]|[]| |[] ? ?], b as [[]|[]| |[] ? ?]; cbn; congruence. Qed.

(** X18. [IsDoubleEqual] never holds when the smaller argument is a zero, or
    when an argument is not a number: zero is not equal to zero. *)
Theorem IsDoubleEqual_zero (a b : spec_float) :
  is_zero (std_min a b) || is_nan a || is_nan b = true -> IsDoubleEqual a b = false.
Proof.
  intros H. unfold IsDoubleEqual.
  destruct (is_nan a || is_nan b) eqn:En.
  - now rewrite SFsub_nan.
  - rewrite <- orb_assoc, En, orb_false_r in H.
    destruct (std_min a b) as [s| | |]; try discriminate H.
    apply SFltb_abs_zero.
Qed.

Lemma IsDoubleEqual_zero_witness :
  IsDoubleEqual (S754_zero false) (S754_zero false) = false
  /\ IsDoubleEqual (S754_zero true) one = false.
Proof.
  split.
  - apply (IsDoubleEqual_zero (S754_zero false) (S754_zero false)). reflexivity.
  - apply (IsDoubleEqual_zero (S754_zero true) one). reflexivity.
Defined.

Lemma binary_round_aux_abs (s : bool) (m e : Z) (l : location) :
  SFabs (binary_round_aux prec emax s m e l) = SFabs (binary_round_aux prec emax false m e l).
Proof.
  unfold binary_round_aux.
  destruct (shr_fexp prec emax m e l) as [mrs' e'].
  destruct (shr_fexp prec emax _ e' loc_Exact) as [mrs'' e''].
  destruct (shr_m mrs'') as [|p|p]; [reflexivity| |reflexivity].
  destruct (e'' <=? emax - prec); reflexivity.
Qed.

Lemma binary_round_abs (s : bool) (m : positive) (e : Z) :
  SFabs (binary_round prec emax s m e) = SFabs (binary_round prec emax false m e).
Proof.
  unfold binary_round. destruct (shl_align m e _) as [mz ez]. apply binary_round_aux_abs.
Qed.

Lemma binary_normalize_opp (m e : Z) :
  SFabs (binary_normalize prec emax (- m) e false) = SFabs (binary_normalize prec emax m e false).
Proof.
  destruct m as [|p|p]; [reflexivity| |].
  - change (- Z.pos p) with (Z.neg p). cbn [binary_normalize].
    now rewrite (binary_round_abs true).
  - change (- Z.neg p) with (Z.pos p). cbn [binary_normalize].
    now rewrite (binary_round_abs true).
Qed.

Lemma SFsub_swap (a b : spec_float) :
  SFabs (SFsub prec emax a b) = SFabs (SFsub prec emax b a).
Proof.
  destruct a as [sa|sa| |sa ma ea], b as [sb|sb| |sb mb eb];
    try (destruct sa, sb; reflexivity); try (destruct sa; reflexivity);
    try (destruct sb; reflexivity); try reflexivity.
  cbn [SFsub]. rewrite (Z.min_comm eb ea), <- binary_normalize_opp. f_equal. f_equal. lia.
Qed.

Lemma SFcompare_swap (a b : spec_float) :
  SFcompare b a = option_map CompOpp (SFcompare a b).
Proof.
  destruct a as [sa|sa| |sa ma ea], b as [sb|sb| |sb mb eb];
    try (destruct sa, sb; reflexivity); try (destruct sa; reflexivity);
    try (destruct sb; reflexivity); try reflexivity.
  cbn [SFcompare option_map].
  pose proof (Z.compare_antisym ea eb) as H1.
  pose proof (Pos.compare_cont_antisym ma mb Eq) as H2. cbn [CompOpp] in H2.
  rewrite H1, <- H2.
  destruct sa, sb; cbn [CompOpp]; try reflexivity;
    destruct (ea ?= eb); cbn [CompOpp]; try reflexivity;
    destruct (Pos.compare_cont Eq ma mb); reflexivity.
Qed.

Lemma SFcompare_Eq_abs (a b : spec_float) :
  SFcompare a b = Some Eq -> SFabs a = SFabs b.
Proof.
  destruct a as [sa|sa| |sa ma ea], b as [sb|sb| |sb mb eb]; cbn [SFcompare SFabs];
    try discriminate; try reflexivity; try (destruct sa; discriminate);
    try (destruct sb; discriminate).
  assert (Hm : forall c, c = Eq \/ CompOpp c = Eq -> c = Eq)
    by (intros [] [|]; (reflexivity || discriminate)).
  destruct sa, sb; try discriminate;
    destruct (Z.compare_spec ea eb) as [->| |]; try discriminate;
    intros [= H]; assert (H' : Pos.compare_cont Eq ma mb = Eq) by (apply Hm; auto);
    apply Pos.compare_eq in H'; now subst.
Qed.

Lemma std_min_swap (a b : spec_float) :
  is_nan a || is_nan b = false -> SFabs (std_min a b) = SFabs (std_min b a).
Proof.
  intros Hn. unfold std_min, SFltb. rewrite (SFcompare_swap a b).
  destruct (SFcompare a b) as [[]|] eqn:E; cbn [option_map CompOpp]; try reflexivity.
  - now apply SFcompare_Eq_abs.
  - destruct a as [sa|sa| |sa ma ea], b as [sb|sb| |sb mb eb]; discriminate.
Qed.

(** X19. [IsDoubleEqual] is symmetric, for all doubles: zeros, infinities
    and not-a-number included. *)
Theorem IsDoubleEqual_sym (a b : spec_float) : IsDoubleEqual a b = IsDoubleEqual b a.
Proof.
  unfold IsDoubleEqual.
  destruct (is_nan a || is_nan b) eqn:En.
  - rewrite (SFsub_nan a b En), (SFsub_nan b a) by (now rewrite orb_comm). reflexivity.
  - now rewrite SFsub_swap, std_min_swap.
Qed.

Lemma SFcompare_refl (s : bool) (m : positive) (e : Z) :
  SFcompare (S754_finite s m e) (S754_finite s m e) = Some Eq.
Proof.
  cbn [SFcompare]. rewrite Z.compare_refl.
  assert (H : Pos.compare_cont Eq m m = Eq) by apply Pos.compare_refl.
  rewrite H. now destruct s.
Qed.

Lemma SFsub_diag (s : bool) (m : positive) (e : Z) :
  SFsub prec emax (S754_finite s m e) (S754_finite s m e) = S754_zero false.
Proof. cbn [SFsub]. now rewrite Z.sub_diag. Qed.

Lemma mul_pow2_52 (m : positive) : (m * 2 ^ 52)%positive = Pos.iter xO m 52.
Proof.
  rewrite Pos.mul_comm. change (2 ^ 52)%positive with (Pos.iter xO 1%positive 52).
  cbn [Pos.iter]. reflexivity.
Qed.

Lemma digits2_iter_xO (m : positive) :
  digits2_pos (Pos.iter xO m 52) = (digits2_pos m + 52)%positive.
Proof. cbn [Pos.iter digits2_pos]. lia. Qed.

Lemma iter_shr_52 (m : positive) :
  iter_pos shr_1 52 (Build_shr_record (Zpos (Pos.iter xO m 52)) false false)
  = Build_shr_record (Zpos m) false false.
Proof. reflexivity. Qed.

(** A normal double times epsilon: the exponent drops by 52, exactly. *)
Lemma times_epsilon (m : positive) (e : Z) :
  Zpos (digits2_pos m) = prec -> -1022 <= e <= 971 ->
  SFmul prec emax (S754_finite false m e) epsilon = S754_finite false m (e - 52).
Proof.
  intros Hd He. unfold epsilon. cbn [SFmul xorb].
  rewrite mul_pow2_52.
  unfold binary_round_aux, shr_fexp. cbn [shr_record_of_loc].
  unfold Zdigits2 at 1. rewrite digits2_iter_xO.
  assert (Hd' : digits2_pos m = 53%positive) by (unfold prec in Hd; congruence).
  rewrite Hd'.
  replace (fexp prec emax (Z.pos (53 + 52) + (e + -104)) - (e + -104)) with 52
    by (unfold fexp, emin, prec, emax; lia).
  cbn [shr]. rewrite iter_shr_52. cbn [shr_m loc_of_shr_record round_nearest_even].
  unfold Zdigits2. rewrite Hd'.
  replace (fexp prec emax (Z.pos 53 + (e + -104 + 52)) - (e + -104 + 52)) with 0
    by (unfold fexp, emin, prec, emax; lia).
  cbn [shr shr_m].
  replace (e + -104 + 52 <=? emax - prec) with true
    by (symmetry; apply Z.leb_le; unfold emax, prec; lia).
  f_equal. lia.
Qed.

(** X20. Every normal double of magnitude at least 2^-970, that is with a
    mantissa of 53 bits and an exponent from -1022 to 971, is
    [IsDoubleEqual] to itself. *)
Theorem IsDoubleEqual_refl (s : bool) (m : positive) (e : Z) :
  Zpos (digits2_pos m) = prec -> -1022 <= e <= 971 ->
  IsDoubleEqual (S754_finite s m e) (S754_finite s m e) = true.
Proof.
  intros Hd He. unfold IsDoubleEqual, std_min, SFltb.
  rewrite SFcompare_refl, SFsub_diag. cbn [SFabs].
  now rewrite times_epsilon.
Qed.

Lemma IsDoubleEqual_refl_witness : IsDoubleEqual one one = true.
Proof. apply (IsDoubleEqual_refl false (2 ^ 52) (-52)); [reflexivity|lia]. Defined.

(** X21. [IsDoubleNonPositiveNumber] accepts every double that is at most
    zero and rejects not-a-number; it also accepts the positive doubles
    below 2^-52, those with an exponent under -104. *)
Theorem IsDoubleNonPositiveNumber_spec (a : spec_float) :
  (SFleb a (S754_zero false) = true -> IsDoubleNonPositiveNumber a = true)
  /\ (is_nan a = true -> IsDoubleNonPositiveNumber a = false)
  /\ (forall (m : positive) (e : Z),
        a = S754_finite false m e -> e < -104 -> IsDoubleNonPositiveNumber a = true).
Proof.
  unfold IsDoubleNonPositiveNumber, SFltb, SFleb. split; [|split].
  - destruct a as [[]|[]| |[] m e]; cbn; congruence.
  - destruct a; cbn; congruence.
  - intros m e -> He. cbn [SFcompare epsilon].
    destruct (Z.compare_spec e (-104)); (reflexivity || lia).
Qed.

Lemma IsDoubleNonPositiveNumber_spec_witness :
  IsDoubleNonPositiveNumber (S754_zero true) = true
  /\ IsDoubleNonPositiveNumber tiny = true.
Proof.
  split.
  - apply (proj1 (IsDoubleNonPositiveNumber_spec (S754_zero true))). reflexivity.
  - apply (proj2 (proj2 (IsDoubleNonPositiveNumber_spec tiny)) (2 ^ 52)%positive (-112));
      [reflexivity|lia].
Defined.

End Double.

(** ** Byte-block compression (util.h declares it, the body is elsewhere) *)

Module Codec.

Local Open Scope N_scope.

(** Modelled from the spec: the error [uncompress] fails with. *)
Inductive CodecError := CorruptedInput.

(** The byte with the value [n mod 256]. *)
Definition byte_of_N (n : N) : byte := default x00 (Byte.of_N (n mod 256)).

(** Modelled from the spec (Snappy-style framing): the tag byte of an
    element, its kind in the two low bits. *)
Definition tag_of (kind v : N) : byte := byte_of_N (kind + 4 * v).

(** Modelled from the spec (Snappy-style framing): a number in [k] bytes,
    least significant first, and its reader. *)
Fixpoint le_bytes (k : nat) (n : N) : list byte :=
  match k with
  | O => []
  | S k' => byte_of_N n :: le_bytes k' (n / 256)
  end.

Fixpoint read_le (k : nat) (src : list byte) : option (N * list byte) :=
  match k with
  | O => Some (0, src)
  | S k' =>
      match src with
      | [] => None
      | b :: src' => '(v, rest) ← read_le k' src'; Some (Byte.to_N b + 256 * v, rest)
      end
  end.

(** Modelled from the spec (Snappy-style framing): the length preamble,
    seven bits per byte, least significant group first, the high bit set on
    every byte but the last; and its reader. *)
Fixpoint varint (fuel : nat) (n : N) : list byte :=
  if n <? 128 then [byte_of_N n]
  else
    match fuel with
    | O => []
    | S fuel' => byte_of_N (128 + n mod 128) :: varint fuel' (n / 128)
    end.

Fixpoint read_varint (src : list byte) : option (N * list byte) :=
  match src with
  | [] => None
  | b :: src' =>
      if Byte.to_N b <? 128 then Some (Byte.to_N b, src')
      else '(hi, rest) ← read_varint src'; Some (Byte.to_N b - 128 + 128 * hi, rest)
  end.

(** Modelled from the spec (Snappy-style framing): a back-reference copies
    [len] bytes that start [off] bytes before the end of the output, one byte
    at a time, so source and target may overlap. *)
Fixpoint copy_bytes (len : nat) (off : nat) (out : list byte) : option (list byte) :=
  match len with
  | O => Some out
  | S len' =>
      if decide (1 <= off <= length out)%nat then
        b ← out !! (length out - off)%nat; copy_bytes len' off (out ++ [b])
      else None
  end.

(** Modelled from the spec (Snappy-style framing): one element, a literal
    run or a back-reference; and the elements up to the end of the input. *)
Definition decode_element (out src : list byte) : option (list byte * list byte) :=
  match src with
  | [] => None
  | tag :: src1 =>
      let v := Byte.to_N tag / 4 in
      match Byte.to_N tag mod 4 with
      | 0 =>
          '(len, src2) ← (if v <? 60 then Some (v + 1, src1)
                           else '(n, r) ← read_le (N.to_nat (v - 59)) src1; Some (n + 1, r));
          if decide (len <= N.of_nat (length src2))
          then Some (out ++ take (N.to_nat len) src2, drop (N.to_nat len) src2)
          else None
      | 1 =>
          match src1 with
          | [] => None
          | b :: src2 =>
              out' ← copy_bytes (N.to_nat (4 + v mod 8)) (N.to_nat (256 * (v / 8) + Byte.to_N b)) out;
              Some (out', src2)
          end
      | 2 =>
          '(off, src2) ← read_le 2 src1;
          out' ← copy_bytes (N.to_nat (v + 1)) (N.to_nat off) out;
          Some (out', src2)
      | _ =>
          '(off, src2) ← read_le 4 src1;
          out' ← copy_bytes (N.to_nat (v + 1)) (N.to_nat off) out;
          Some (out', src2)
      end
  end.

Fixpoint decode_elements (fuel : nat) (out src : list byte) : option (list byte) :=
  match src with
  | [] => Some out
  | _ :: _ =>
      match fuel with
      | O => None
      | S fuel' => '(out', rest) ← decode_element out src; decode_elements fuel' out' rest
      end
  end.

(** Modelled from the spec: [BtUncompress], declared in util.h and defined
    outside the sources at hand.  The frame is Snappy-style: a varint with
    the uncompressed length, then tagged elements.  A frame that cannot be
    read to its end, or that yields another length than it announces, is
    [CorruptedInput]. *)
Definition BtUncompress (btSrc : list byte) : CodecError + list byte :=
  match read_varint btSrc with
  | None => inl CorruptedInput
  | Some (n, body) =>
      match decode_elements (length body) [] body with
      | None => inl CorruptedInput
      | Some out => if decide (N.of_nat (length out) = n) then inr out else inl CorruptedInput
      end
  end.

(** Modelled from the spec (Snappy-style framing): literal runs of at most
    sixty bytes, each behind a one-byte tag. *)
Fixpoint emit_literals (fuel : nat) (src : list byte) : list byte :=
  match src with
  | [] => []
  | _ :: _ =>
      match fuel with
      | O => []
      | S fuel' =>
          let run := take 60 src in
          tag_of 0 (N.of_nat (length run) - 1) :: run ++ emit_literals fuel' (drop 60 src)
      end
  end.

(** Modelled from the spec: [BtCompress], declared in util.h and defined
    outside the sources at hand: the length preamble followed by the input as
    literal elements. *)
Definition BtCompress (btSrc : list byte) : list byte :=
  varint (length btSrc) (N.of_nat (length btSrc)) ++ emit_literals (length btSrc) btSrc.

(** *** The frame format, stated without reference to the decoder *)

(** Modelled from the spec (Snappy-style framing): the preamble of a frame
    that announces [n] bytes. *)
Inductive preamble : N -> list byte -> Prop :=
| preamble_last (n : N) :
    n < 128 -> preamble n [byte_of_N n]
| preamble_more (lo hi : N) (bs : list byte) :
    lo < 128 -> preamble hi bs -> preamble (lo + 128 * hi) (byte_of_N (128 + lo) :: bs).

(** Modelled from the spec (Snappy-style framing): the header of a literal
    of [len] bytes; the length sits in the tag, or in one to four bytes after
    it. *)
Inductive header_literal : N -> list byte -> Prop :=
| header_literal_short (len : N) :
    1 <= len <= 60 -> header_literal len [tag_of 0 (len - 1)]
| header_literal_long (k : nat) (len : N) :
    (1 <= k <= 4)%nat -> 1 <= len -> len - 1 < 256 ^ N.of_nat k ->
    header_literal len (tag_of 0 (59 + N.of_nat k) :: le_bytes k (len - 1)).

(** Modelled from the spec (Snappy-style framing): the header of a
    back-reference, with an offset of 11, 16 or 32 bits. *)
Inductive header_copy : N -> N -> list byte -> Prop :=
| header_copy_1 (off len : N) :
    4 <= len <= 11 -> off < 2048 ->
    header_copy off len [tag_of 1 (len - 4 + 8 * (off / 256)); byte_of_N (off mod 256)]
| header_copy_2 (off len : N) :
    1 <= len <= 64 -> off < 256 ^ 2 ->
    header_copy off len (tag_of 2 (len - 1) :: le_bytes 2 off)
| header_copy_4 (off len : N) :
    1 <= len <= 64 -> off < 256 ^ 4 ->
    header_copy off len (tag_of 3 (len - 1) :: le_bytes 4 off).

(** Modelled from the spec (Snappy-style framing): [elements out src final]
    says that the elements in [src] extend the output [out] to [final]. *)
Inductive elements : list byte -> list byte -> list byte -> Prop :=
| elements_end (out : list byte) :
    elements out [] out
| elements_literal (out hdr data rest final : list byte) :
    header_literal (N.of_nat (length data)) hdr ->
    elements (out ++ data) rest final ->
    elements out (hdr ++ data ++ rest) final
| elements_copy (out hdr out' rest final : list byte) (off len : N) :
    header_copy off len hdr ->
    copy_bytes (N.to_nat len) (N.to_nat off) out = Some out' ->
    elements out' rest final ->
    elements out (hdr ++ rest) final.

(** Modelled from the spec: a well-formed frame for [dst]; every other input
    is a malformed frame. *)
Definition Frame (src dst : list byte) : Prop :=
  exists pre body : list byte,
    src = pre ++ body /\ preamble (N.of_nat (length dst)) pre /\ elements [] body dst.

Example BtCompress_abc : BtCompress [x61; x62; x63] = [x03; x08; x61; x62; x63].
Proof. reflexivity. Qed.

Example BtUncompress_abc : BtUncompress [x03; x08; x61; x62; x63] = inr [x61; x62; x63].
Proof. reflexivity. Qed.

(** "aaaaaaaa" as a literal "a" and a back-reference of length 7 at offset 1. *)
Example BtUncompress_run : BtUncompress [x08; x00; x61; x0d; x01]
  = inr [x61; x61; x61; x61; x61; x61; x61; x61].
Proof. reflexivity. Qed.

Example BtUncompress_truncated : BtUncompress [x03; x08; x61; x62] = inl CorruptedInput.
Proof. reflexivity. Qed.

Example BtUncompress_bad_offset : BtUncompress [x04; x0d; x01] = inl CorruptedInput.
Proof. reflexivity. Qed.

Example BtCompress_200 : BtUncompress (BtCompress (replicate 200 x41)) = inr (replicate 200 x41).
Proof. vm_compute. reflexivity. Qed.


(** *** Bytes and numbers *)

Lemma to_N_byte_of_N (n : N) : n < 256 -> Byte.to_N (byte_of_N n) = n.
Proof.
  intros H. unfold byte_of_N. rewrite N.mod_small by exact H.
  destruct (Byte.of_N n) as [b|] eqn:E.
  - simpl. now apply Byte.to_of_N.
  - apply Byte.of_N_None_iff in E. lia.
Qed.

Lemma to_N_byte_of_N_mod (n : N) : Byte.to_N (byte_of_N n) = n mod 256.
Proof.
  pose proof (N.mod_upper_bound n 256).
  replace (byte_of_N n) with (byte_of_N (n mod 256)).
  - apply to_N_byte_of_N. lia.
  - unfold byte_of_N. now rewrite N.Div0.mod_mod.
Qed.

Lemma byte_of_N_to_N (b : byte) : byte_of_N (Byte.to_N b) = b.
Proof.
  unfold byte_of_N. pose proof (Byte.to_N_bounded b).
  rewrite N.mod_small by lia. now rewrite Byte.of_to_N.
Qed.

Lemma to_N_lt (b : byte) : Byte.to_N b < 256.
Proof. pose proof (Byte.to_N_bounded b). lia. Qed.

Lemma tag_split (tag : byte) :
  tag = tag_of (Byte.to_N tag mod 4) (Byte.to_N tag / 4).
Proof.
  unfold tag_of. rewrite N.add_comm, <- N.div_mod by lia. symmetry. apply byte_of_N_to_N.
Qed.

Lemma to_N_tag_of (kind v : N) :
  kind < 4 -> v < 64 ->
  Byte.to_N (tag_of kind v) mod 4 = kind /\ Byte.to_N (tag_of kind v) / 4 = v.
Proof.
  intros Hk Hv. unfold tag_of. rewrite to_N_byte_of_N by lia. split; symmetry.
  - apply N.mod_unique with v; lia.
  - apply N.div_unique with kind; lia.
Qed.

Lemma read_le_le_bytes (k : nat) :
  forall (n : N) (rest : list byte),
    n < 256 ^ N.of_nat k -> read_le k (le_bytes k n ++ rest) = Some (n, rest).
Proof.
  induction k as [|k IH]; intros n rest Hn.
  - simpl in *. f_equal. f_equal. lia.
  - cbn [le_bytes read_le app].
    rewrite IH.
    + cbn [mbind option_bind]. rewrite to_N_byte_of_N_mod. f_equal. f_equal.
      rewrite (N.div_mod n 256) at 3 by lia. lia.
    + rewrite Nat2N.inj_succ, N.pow_succ_r' in Hn.
      apply N.Div0.div_lt_upper_bound. lia.
Qed.

Lemma read_le_inv (k : nat) :
  forall (src : list byte) (n : N) (rest : list byte),
    read_le k src = Some (n, rest) ->
    src = le_bytes k n ++ rest /\ n < 256 ^ N.of_nat k.
Proof.
  induction k as [|k IH]; intros src n rest H.
  - simpl in H. injection H as <- <-. split; [reflexivity|simpl; lia].
  - cbn [read_le] in H. destruct src as [|b src]; [discriminate|].
    destruct (read_le k src) as [[v r]|] eqn:E; [|discriminate].
    cbn [mbind option_bind] in H. injection H as <- <-.
    destruct (IH _ _ _ E) as [-> Hv].
    pose proof (to_N_lt b) as Hb. split.
    + cbn [le_bytes app]. f_equal.
      * rewrite <- (byte_of_N_to_N b) at 1. unfold byte_of_N. do 2 f_equal.
        rewrite (N.mod_small (Byte.to_N b)) by lia.
        apply N.mod_unique with v; lia.
      * f_equal. f_equal. apply N.div_unique with (Byte.to_N b); lia.
    + rewrite Nat2N.inj_succ, N.pow_succ_r'. lia.
Qed.

Lemma read_varint_preamble (n : N) (pre : list byte) :
  preamble n pre -> forall body, read_varint (pre ++ body) = Some (n, body).
Proof.
  induction 1 as [n Hn|lo hi bs Hlo _ IH]; intros body; cbn [app read_varint].
  - rewrite to_N_byte_of_N by lia.
    now replace (n <? 128) with true by (symmetry; apply N.ltb_lt; lia).
  - rewrite to_N_byte_of_N by lia.
    replace (128 + lo <? 128) with false by (symmetry; apply N.ltb_ge; lia).
    rewrite IH. cbn [mbind option_bind]. f_equal. f_equal. lia.
Qed.

Lemma read_varint_inv (src : list byte) :
  forall (n : N) (body : list byte),
    read_varint src = Some (n, body) -> exists pre, src = pre ++ body /\ preamble n pre.
Proof.
  induction src as [|b src IH]; intros n body H; [discriminate|].
  cbn [read_varint] in H. pose proof (to_N_lt b) as Hb.
  destruct (Byte.to_N b <? 128) eqn:E.
  - injection H as <- <-. exists [b]. split; [reflexivity|].
    rewrite <- (byte_of_N_to_N b) at 2. constructor. now apply N.ltb_lt.
  - apply N.ltb_ge in E.
    destruct (read_varint src) as [[hi r]|] eqn:Er; [|discriminate].
    cbn [mbind option_bind] in H. injection H as <- <-.
    destruct (IH _ _ eq_refl) as (pre & -> & Hpre).
    exists (b :: pre). split; [reflexivity|].
    assert (Eb : b = byte_of_N (128 + (Byte.to_N b - 128))).
    { replace (128 + (Byte.to_N b - 128)) with (Byte.to_N b) by lia.
      symmetry. apply byte_of_N_to_N. }
    assert (Hlo : Byte.to_N b - 128 < 128) by lia.
    revert Eb Hlo. generalize (Byte.to_N b - 128). intros lo -> Hlo.
    now constructor.
Qed.

(** *** The decoder reads exactly the well-formed frames *)

Lemma decode_element_literal (out hdr data rest : list byte) :
  header_literal (N.of_nat (length data)) hdr ->
  decode_element out (hdr ++ data ++ rest) = Some (out ++ data, rest).
Proof.
  intros H. inversion H as [len Hlen Elen|k len Hk Hlen Hfit Elen]; subst len.
  - destruct (to_N_tag_of 0 (N.of_nat (length data) - 1)) as [Hm Hd]; [lia|lia|].
    cbn [app decode_element]. rewrite Hm, Hd.
    replace (N.of_nat (length data) - 1 <? 60) with true by (symmetry; apply N.ltb_lt; lia).
    cbn [mbind option_bind].
    replace (N.of_nat (length data) - 1 + 1) with (N.of_nat (length data)) by lia.
    rewrite decide_True by (rewrite length_app; lia).
    rewrite Nat2N.id, take_app_length, drop_app_length. reflexivity.
  - destruct (to_N_tag_of 0 (59 + N.of_nat k)) as [Hm Hd]; [lia|lia|].
    cbn [app decode_element]. rewrite Hm, Hd.
    replace (59 + N.of_nat k <? 60) with false by (symmetry; apply N.ltb_ge; lia).
    replace (N.to_nat (59 + N.of_nat k - 59)) with k by lia.
    rewrite read_le_le_bytes by exact Hfit. cbn [mbind option_bind].
    replace (N.of_nat (length data) - 1 + 1) with (N.of_nat (length data)) by lia.
    rewrite decide_True by (rewrite length_app; lia).
    rewrite Nat2N.id, take_app_length, drop_app_length. reflexivity.
Qed.

Lemma decode_element_copy (out hdr out' rest : list byte) (off len : N) :
  header_copy off len hdr ->
  copy_bytes (N.to_nat len) (N.to_nat off) out = Some out' ->
  decode_element out (hdr ++ rest) = Some (out', rest).
Proof.
  intros H Hcopy. inversion H as [off' len' Hlen Hoff|off' len' Hlen Hoff|off' len' Hlen Hoff]; subst off' len'.
  - assert (Hq : off / 256 < 8) by (apply N.Div0.div_lt_upper_bound; lia).
    destruct (to_N_tag_of 1 (len - 4 + 8 * (off / 256))) as [Hm Hd]; [lia|lia|].
    cbn [app decode_element]. rewrite Hm, Hd.
    rewrite to_N_byte_of_N by (apply N.mod_upper_bound; lia).
    replace ((len - 4 + 8 * (off / 256)) mod 8) with (len - 4)
      by (apply N.mod_unique with (off / 256); lia).
    replace ((len - 4 + 8 * (off / 256)) / 8) with (off / 256)
      by (apply N.div_unique with (len - 4); lia).
    replace (4 + (len - 4)) with len by lia.
    replace (256 * (off / 256) + off mod 256) with off by (apply N.div_mod; lia).
    rewrite Hcopy. reflexivity.
  - destruct (to_N_tag_of 2 (len - 1)) as [Hm Hd]; [lia|lia|].
    cbn [app decode_element]. rewrite Hm, Hd.
    rewrite read_le_le_bytes by exact Hoff. cbn [mbind option_bind].
    replace (len - 1 + 1) with len by lia. rewrite Hcopy. reflexivity.
  - destruct (to_N_tag_of 3 (len - 1)) as [Hm Hd]; [lia|lia|].
    cbn [app decode_element]. rewrite Hm, Hd.
    rewrite read_le_le_bytes by exact Hoff. cbn [mbind option_bind].
    replace (len - 1 + 1) with len by lia. rewrite Hcopy. reflexivity.
Qed.

Lemma header_literal_nonempty (len : N) (hdr : list byte) :
  header_literal len hdr -> (1 <= length hdr)%nat.
Proof. destruct 1; simpl; lia. Qed.

Lemma header_copy_nonempty (off len : N) (hdr : list byte) :
  header_copy off len hdr -> (1 <= length hdr)%nat.
Proof. destruct 1; simpl; lia. Qed.

Lemma decode_elements_sound (out body final : list byte) :
  elements out body final ->
  forall fuel, (length body <= fuel)%nat -> decode_elements fuel out body = Some final.
Proof.
  induction 1 as [out|out hdr data rest final Hh _ IH|out hdr out' rest final off len Hh Hc _ IH];
    intros fuel Hfuel.
  - destruct fuel; reflexivity.
  - pose proof (header_literal_nonempty _ _ Hh) as Hne.
    rewrite !length_app in Hfuel.
    destruct fuel as [|fuel]; [lia|].
    destruct (hdr ++ data ++ rest) as [|b l] eqn:E.
    { apply (f_equal length) in E. rewrite !length_app in E. simpl in E. lia. }
    cbn [decode_elements]. rewrite <- E, decode_element_literal by exact Hh.
    cbn [mbind option_bind]. apply IH. lia.
  - pose proof (header_copy_nonempty _ _ _ Hh) as Hne.
    rewrite !length_app in Hfuel.
    destruct fuel as [|fuel]; [lia|].
    destruct (hdr ++ rest) as [|b l] eqn:E.
    { apply (f_equal length) in E. rewrite !length_app in E. simpl in E. lia. }
    cbn [decode_elements]. rewrite <- E, (decode_element_copy _ _ _ _ _ _ Hh Hc).
    cbn [mbind option_bind]. apply IH. lia.
Qed.

Lemma decode_element_inv (out src out' rest : list byte) :
  decode_element out src = Some (out', rest) ->
  (exists hdr data,
      src = hdr ++ data ++ rest
      /\ header_literal (N.of_nat (length data)) hdr /\ out' = out ++ data)
  \/ (exists hdr off len,
        src = hdr ++ rest
        /\ header_copy off len hdr
        /\ copy_bytes (N.to_nat len) (N.to_nat off) out = Some out').
Proof.
  intros H. destruct src as [|tag src1]; [discriminate|].
  cbn [decode_element] in H.
  pose proof (tag_split tag) as Etag. pose proof (to_N_lt tag) as Htag.
  assert (Hv : Byte.to_N tag / 4 < 64) by (apply N.Div0.div_lt_upper_bound; lia).
  assert (Hk : Byte.to_N tag mod 4 < 4) by (apply N.mod_upper_bound; lia).
  revert H Etag Hv Hk. generalize (Byte.to_N tag / 4), (Byte.to_N tag mod 4). clear Htag.
  intros v kind H -> Hv Hk.
  assert (Ek : kind = 0 \/ kind = 1 \/ kind = 2 \/ kind = 3) by lia.
  destruct Ek as [-> | [-> | [-> | ->]]]; cbv iota in H.
  - (* literal *)
    left. destruct (v <? 60) eqn:Ev.
    + apply N.ltb_lt in Ev. cbn [mbind option_bind] in H.
      destruct (decide (v + 1 <= N.of_nat (length src1))) as [Hfit|]; [|discriminate].
      injection H as <- <-.
      exists [tag_of 0 v], (take (N.to_nat (v + 1)) src1).
      assert (El : N.of_nat (length (take (N.to_nat (v + 1)) src1)) = v + 1)
        by (rewrite length_take; lia).
      split; [cbn [app]; now rewrite take_drop|]. split; [|reflexivity].
      pose proof (header_literal_short (v + 1)) as Hh.
      replace (v + 1 - 1) with v in Hh by lia. rewrite El. apply Hh. lia.
    + apply N.ltb_ge in Ev.
      destruct (read_le (N.to_nat (v - 59)) src1) as [[n r]|] eqn:Er; [|discriminate].
      cbn [mbind option_bind] in H.
      destruct (decide (n + 1 <= N.of_nat (length r))) as [Hfit|]; [|discriminate].
      injection H as <- <-.
      destruct (read_le_inv _ _ _ _ Er) as [-> Hn].
      exists (tag_of 0 v :: le_bytes (N.to_nat (v - 59)) n), (take (N.to_nat (n + 1)) r).
      assert (El : N.of_nat (length (take (N.to_nat (n + 1)) r)) = n + 1)
        by (rewrite length_take; lia).
      split; [cbn [app]; now rewrite take_drop|]. split; [|reflexivity].
      pose proof (header_literal_long (N.to_nat (v - 59)) (n + 1)) as Hh.
      replace (n + 1 - 1) with n in Hh by lia.
      replace (59 + N.of_nat (N.to_nat (v - 59))) with v in Hh by lia.
      rewrite El. apply Hh; [lia|lia|exact Hn].
  - (* back-reference, 11-bit offset *)
    right. destruct src1 as [|b src2]; [discriminate|].
    destruct (copy_bytes _ _ out) as [o|] eqn:Ec; [|discriminate].
    cbn [mbind option_bind] in H. injection H as <- <-.
    pose proof (to_N_lt b) as Hb.
    assert (Hq : v / 8 < 8) by (apply N.Div0.div_lt_upper_bound; lia).
    assert (Hr : 0 <= v mod 8 < 8) by (split; [apply N.le_0_l|apply N.mod_upper_bound; lia]).
    exists [tag_of 1 v; b], (256 * (v / 8) + Byte.to_N b), (4 + v mod 8).
    split; [reflexivity|]. split; [|exact Ec].
    assert (Eq : (256 * (v / 8) + Byte.to_N b) / 256 = v / 8)
      by (symmetry; apply N.div_unique with (Byte.to_N b); lia).
    assert (Er : (256 * (v / 8) + Byte.to_N b) mod 256 = Byte.to_N b)
      by (symmetry; apply N.mod_unique with (v / 8); lia).
    pose proof (header_copy_1 (256 * (v / 8) + Byte.to_N b) (4 + v mod 8)) as Hh.
    rewrite Eq, Er, byte_of_N_to_N in Hh.
    replace (4 + v mod 8 - 4 + 8 * (v / 8)) with v in Hh
      by (pose proof (N.div_mod v 8 ltac:(lia)); pose proof (N.le_0_l (v mod 8)); lia).
    apply Hh; lia.
  - (* back-reference, 16-bit offset *)
    right. destruct (read_le 2 src1) as [[off r]|] eqn:Er; [|discriminate].
    cbn [mbind option_bind] in H.
    destruct (copy_bytes _ _ out) as [o|] eqn:Ec; [|discriminate].
    cbn [mbind option_bind] in H. injection H as <- <-.
    destruct (read_le_inv _ _ _ _ Er) as [-> Hoff].
    exists (tag_of 2 v :: le_bytes 2 off), off, (v + 1).
    split; [reflexivity|]. split; [|exact Ec].
    pose proof (header_copy_2 off (v + 1)) as Hh.
    replace (v + 1 - 1) with v in Hh by lia. apply Hh; [lia|exact Hoff].
  - (* back-reference, 32-bit offset *)
    right. destruct (read_le 4 src1) as [[off r]|] eqn:Er; [|discriminate].
    cbn [mbind option_bind] in H.
    destruct (copy_bytes _ _ out) as [o|] eqn:Ec; [|discriminate].
    cbn [mbind option_bind] in H. injection H as <- <-.
    destruct (read_le_inv _ _ _ _ Er) as [-> Hoff].
    exists (tag_of 3 v :: le_bytes 4 off), off, (v + 1).
    split; [reflexivity|]. split; [|exact Ec].
    pose proof (header_copy_4 off (v + 1)) as Hh.
    replace (v + 1 - 1) with v in Hh by lia. apply Hh; [lia|exact Hoff].
Qed.

Lemma decode_elements_complete (fuel : nat) :
  forall out body final : list byte,
    decode_elements fuel out body = Some final -> elements out body final.
Proof.
  induction fuel as [|fuel IH]; intros out body final H.
  - destruct body; [|discriminate]. injection H as <-. constructor.
  - destruct body as [|b body]; [injection H as <-; constructor|].
    cbn [decode_elements] in H.
    destruct (decode_element out (b :: body)) as [[out' rest]|] eqn:E; [|discriminate].
    cbn [mbind option_bind] in H. apply IH in H.
    destruct (decode_element_inv _ _ _ _ E)
      as [(hdr & data & -> & Hh & ->)|(hdr & off & len & -> & Hh & Hc)].
    + now apply elements_literal.
    + now apply elements_copy with out' off len.
Qed.

(** [BtUncompress] returns bytes exactly for the well-formed frames, and then
    the bytes the frame stands for. *)
Lemma BtUncompress_Frame (src dst : list byte) :
  BtUncompress src = inr dst <-> Frame src dst.
Proof.
  unfold BtUncompress. split.
  - destruct (read_varint src) as [[n body]|] eqn:Ev; [|discriminate].
    destruct (decode_elements (length body) [] body) as [out|] eqn:Ed; [|discriminate].
    destruct (decide (N.of_nat (length out) = n)) as [En|]; [|discriminate].
    intros [= <-]. destruct (read_varint_inv _ _ _ Ev) as (pre & -> & Hpre).
    exists pre, body. rewrite En. eauto using decode_elements_complete.
  - intros (pre & body & -> & Hpre & Hel).
    rewrite (read_varint_preamble _ _ Hpre).
    rewrite (decode_elements_sound _ _ _ Hel) by lia.
    now rewrite decide_True by reflexivity.
Qed.

(** *** The compressor writes well-formed frames *)

Lemma varint_preamble (fuel : nat) :
  forall n : N, (N.to_nat n <= fuel)%nat -> preamble n (varint fuel n).
Proof.
  induction fuel as [|fuel IH]; intros n Hn.
  - replace n with 0 by lia. apply (preamble_last 0). lia.
  - cbn [varint]. destruct (n <? 128) eqn:E.
    + apply N.ltb_lt in E. now constructor.
    + apply N.ltb_ge in E.
      assert (Hq : n / 128 < n) by (apply N.div_lt; lia).
      rewrite (N.div_mod n 128) at 1 by lia. rewrite N.add_comm.
      constructor; [apply N.mod_upper_bound; lia|apply IH; lia].
Qed.

Lemma emit_literals_elements (fuel : nat) :
  forall out src : list byte,
    (length src <= fuel)%nat -> elements out (emit_literals fuel src) (out ++ src).
Proof.
  induction fuel as [|fuel IH]; intros out src Hlen.
  - destruct src; [|simpl in Hlen; lia]. rewrite app_nil_r. constructor.
  - destruct src as [|b src]; [rewrite app_nil_r; constructor|].
    cbn [emit_literals]. set (run := take 60 (b :: src)).
    assert (Hrun : (1 <= length run <= 60)%nat).
    { unfold run. rewrite length_take. cbn [length]. lia. }
    change (tag_of 0 (N.of_nat (length run) - 1) :: run ++ emit_literals fuel (drop 60 (b :: src)))
      with ([tag_of 0 (N.of_nat (length run) - 1)] ++ run ++ emit_literals fuel (drop 60 (b :: src))).
    replace (out ++ b :: src) with ((out ++ run) ++ drop 60 (b :: src))
      by (unfold run; now rewrite <- app_assoc, take_drop).
    apply elements_literal.
    + constructor. lia.
    + apply IH. rewrite length_drop. simpl in *. lia.
Qed.

Lemma BtCompress_Frame (b : list byte) : Frame (BtCompress b) b.
Proof.
  exists (varint (length b) (N.of_nat (length b))), (emit_literals (length b) b).
  split; [reflexivity|]. split.
  - apply varint_preamble. lia.
  - apply (emit_literals_elements (length b) [] b). lia.
Qed.

Lemma BtUncompress_of_BtCompress (b : list byte) : BtUncompress (BtCompress b) = inr b.
Proof. apply BtUncompress_Frame, BtCompress_Frame. Qed.

(** C3. Uncompressing a compressed buffer gives the buffer back, and an input
    that is no well-formed frame is reported as [CorruptedInput]. *)
Theorem BtUncompress_BtCompress :
  (forall b : list byte, BtUncompress (BtCompress b) = inr b)
  /\ (forall src : list byte,
        (forall dst, ~ Frame src dst) -> BtUncompress src = inl CorruptedInput).
Proof.
  split.
  - exact BtUncompress_of_BtCompress.
  - intros src Hbad. destruct (BtUncompress src) as [[]|dst] eqn:E; [reflexivity|].
    apply BtUncompress_Frame in E. now apply Hbad in E.
Qed.

Lemma BtUncompress_BtCompress_witness :
  BtUncompress (BtCompress [x61; x62; x63]) = inr [x61; x62; x63]
  /\ BtUncompress [x03; x08; x61; x62] = inl CorruptedInput.
Proof.
  destruct BtUncompress_BtCompress as [H1 H2]. split; [apply H1|].
  apply H2. intros dst HF. apply BtUncompress_Frame in HF. discriminate HF.
Defined.

End Codec.

(** ** The time-series store (CTSDB) *)

Module CTSDB.

Import Codec.

(** Modelled from the spec: the error kinds of the store (section 7). *)
Inductive Errno :=
| NotOpen
| AlreadyOpen
| RecordTooLarge
| FlushFailed (bucket : Z) (cause : Errno).

Section Engine.

(** The record type and its byte codec. *)
Context {R : Type}.
Variable serialize : R -> list byte.
Variable deserialize : list byte -> option R.
Hypothesis codec_round_trip : forall r : R, deserialize (serialize r) = Some r.

(** Modelled from the spec: the database state.  Keys are fixed-width
    digests, read as numbers.  A chunk keeps, for each key of its directory,
    the slice of the payload that holds the record; the buffer maps a bucket
    to its pending writes. *)
Record DB := mkDB {
  db_open : bool;
  bucket_width : Z;
  compress_chunks : bool;
  buffer : gmap Z (gmap N R);
  chunks : gmap Z (gmap N (list byte))
}.

(** Modelled from the spec: the bucket of a timestamp, [floor (t / B)]. *)
Definition bucket (db : DB) (t : Z) : Z := t / bucket_width db.

(** The database with another buffer. *)
Definition with_buffer (db : DB) (buf : gmap Z (gmap N R)) : DB :=
  mkDB (db_open db) (bucket_width db) (compress_chunks db) buf (chunks db).

(** *** Chunk store *)

(** Modelled from the spec: the longest record a chunk takes. *)
Definition MAX_RECORD_BYTES : N := 2 ^ 32 - 1.

(** Modelled from the spec: a record as stored in a chunk, serialized and,
    with [compress], compressed on its own; and the way back. *)
Definition encode_record (compress : bool) (r : R) : list byte :=
  if compress then BtCompress (serialize r) else serialize r.

Definition decode_record (compress : bool) (slice : list byte) : option R :=
  if compress then
    match BtUncompress slice with
    | inr raw => deserialize raw
    | inl _ => None
    end
  else deserialize slice.

(** The serialized record is within [MAX_RECORD_BYTES]. *)
Definition record_fits (r : R) : Prop :=
  (N.of_nat (length (serialize r)) <= MAX_RECORD_BYTES)%N.

(** Modelled from the spec: [write_chunk] of the chunk store, whose source is
    not at hand: serialize every entry, fail with [RecordTooLarge] when one
    is longer than 2^32 - 1 bytes, else give the new chunk. *)
Definition write_chunk (compress : bool) (entries : gmap N R) : Errno + gmap N (list byte) :=
  if decide (map_Forall (fun _ r => record_fits r) entries)
  then inr (encode_record compress <$> entries)
  else inl RecordTooLarge.

(** Modelled from the spec: the entries of a chunk ([read_record] for every
    key of its directory). *)
Definition load_chunk (compress : bool) (chunk : gmap N (list byte)) : gmap N R :=
  omap (decode_record compress) chunk.

(** Modelled from the spec: [read_record(bucket_id, K)]. *)
Definition read_record (db : DB) (b : Z) (k : N) : option R :=
  chunk ← chunks db !! b; slice ← chunk !! k; decode_record (compress_chunks db) slice.

(** *** Engine *)

(** Modelled from the spec: [Update(t, k, r)] buffers the write under the
    bucket of [t]; the last write for a key wins. *)
Definition Update (db : DB) (t : Z) (k : N) (r : R) : Errno + DB :=
  if db_open db then
    let b := bucket db t in
    inr (with_buffer db (<[b := <[k := r]> (default ∅ (buffer db !! b))]> (buffer db)))
  else inl NotOpen.

(** Modelled from the spec: [Retrieve(t, k)] consults the buffer for the
    bucket of [t], else the chunk of that bucket. *)
Definition Retrieve (db : DB) (t : Z) (k : N) : Errno + option R :=
  if db_open db then
    let b := bucket db t in
    match buffer db !! b ≫= (fun upd => upd !! k) with
    | Some r => inr (Some r)
    | None => inr (read_record db b k)
    end
  else inl NotOpen.

(** Modelled from the spec: one bucket of [Flush]; load the chunk if there
    is one, apply the buffered overrides, write the new chunk, clear the
    bucket from the buffer. *)
Definition flush_bucket (db : DB) (b : Z) : Errno + DB :=
  match buffer db !! b with
  | None => inr db
  | Some upd =>
      let existing := default ∅ (load_chunk (compress_chunks db) <$> chunks db !! b) in
      match write_chunk (compress_chunks db) (upd ∪ existing) with
      | inl e => inl e
      | inr chunk =>
          inr (mkDB (db_open db) (bucket_width db) (compress_chunks db)
                 (delete b (buffer db)) (<[b := chunk]> (chunks db)))
      end
  end.

(** The least buffered bucket. *)
Definition first_bucket (buf : gmap Z (gmap N R)) : option Z :=
  match (map_to_list buf).*1 with
  | [] => None
  | b :: bs => Some (foldr Z.min b bs)
  end.

(** Modelled from the spec: buckets are flushed in ascending order; the
    first failure stops the walk and leaves that bucket and the later ones
    buffered. *)
Fixpoint Flush_loop (fuel : nat) (db : DB) : option Errno * DB :=
  match fuel with
  | O => (None, db)
  | S fuel' =>
      match first_bucket (buffer db) with
      | None => (None, db)
      | Some b =>
          match flush_bucket db b with
          | inl e => (Some (FlushFailed b e), db)
          | inr db' => Flush_loop fuel' db'
          end
      end
  end.

(** Modelled from the spec: [Flush()]; [None] is success. *)
Definition Flush (db : DB) : option Errno * DB :=
  if db_open db then Flush_loop (size (buffer db)) db else (Some NotOpen, db).

(** Modelled from the spec: [Initialize], [Deinitialize] (which does not
    flush) and [RemoveAll]. *)
Definition Initialize (db : DB) : Errno + DB :=
  if db_open db then inl AlreadyOpen
  else inr (mkDB true (bucket_width db) (compress_chunks db) ∅ (chunks db)).

Definition Deinitialize (db : DB) : DB :=
  mkDB false (bucket_width db) (compress_chunks db) ∅ (chunks db).

Definition RemoveAll (db : DB) : Errno + DB :=
  if db_open db then inr (mkDB true (bucket_width db) (compress_chunks db) ∅ ∅)
  else inl NotOpen.

(** A client's calls between an [Update] and a later [Retrieve]. *)
Inductive Op :=
| OpFlush
| OpUpdate (t : Z) (k : N) (r : R).

Definition run_op (db : DB) (op : Op) : DB :=
  match op with
  | OpFlush => snd (Flush db)
  | OpUpdate t k r =>
      match Update db t k r with
      | inr db' => db'
      | inl _ => db
      end
  end.

Definition run (db : DB) (ops : list Op) : DB := foldl run_op db ops.

(** [op] is no [Update] for the bucket of [t] and the key [k]. *)
Definition leaves_alone (db : DB) (t : Z) (k : N) (op : Op) : Prop :=
  match op with
  | OpFlush => True
  | OpUpdate t' k' _ => (bucket db t', k') <> (bucket db t, k)
  end.

(** What a reader sees for a bucket and a key: the buffer shadows the chunk. *)
Definition visible (db : DB) (b : Z) (k : N) : option R :=
  match buffer db !! b ≫= (fun upd => upd !! k) with
  | Some r => Some r
  | None => read_record db b k
  end.

(** *** Reading back what a chunk holds *)

Lemma decode_encode_record (compress : bool) (r : R) :
  decode_record compress (encode_record compress r) = Some r.
Proof.
  unfold decode_record, encode_record. destruct compress; [|apply codec_round_trip].
  rewrite BtUncompress_of_BtCompress. apply codec_round_trip.
Qed.

Lemma load_written_chunk (compress : bool) (entries : gmap N R) (chunk : gmap N (list byte)) :
  write_chunk compress entries = inr chunk -> load_chunk compress chunk = entries.
Proof.
  unfold write_chunk, load_chunk. destruct (decide _); [|discriminate]. intros [= <-].
  apply map_eq. intros k. rewrite lookup_omap, lookup_fmap.
  destruct (entries !! k) as [r|]; simpl; [apply decode_encode_record|reflexivity].
Qed.

Lemma read_record_load (db : DB) (b : Z) (k : N) :
  read_record db b k
  = default ∅ (load_chunk (compress_chunks db) <$> chunks db !! b) !! k.
Proof.
  unfold read_record, load_chunk. destruct (chunks db !! b) as [chunk|]; simpl.
  - now rewrite lookup_omap.
  - now rewrite lookup_empty.
Qed.

Lemma Retrieve_visible (db : DB) (t : Z) (k : N) :
  Retrieve db t k = if db_open db then inr (visible db (bucket db t) k) else inl NotOpen.
Proof.
  unfold Retrieve, visible. destruct (db_open db); [|reflexivity].
  now destruct (buffer db !! bucket db t ≫= _).
Qed.

Lemma flush_bucket_frame (db db' : DB) (b : Z) :
  flush_bucket db b = inr db' ->
  db_open db' = db_open db /\ bucket_width db' = bucket_width db
  /\ compress_chunks db' = compress_chunks db.
Proof.
  unfold flush_bucket. destruct (buffer db !! b); [|intros [= <-]; auto].
  destruct (write_chunk _ _); [discriminate|]. intros [= <-]. auto.
Qed.

Lemma flush_bucket_visible (db db' : DB) (b : Z) :
  flush_bucket db b = inr db' -> forall b' k, visible db' b' k = visible db b' k.
Proof.
  unfold flush_bucket. destruct (buffer db !! b) as [upd|] eqn:Eb; [|now intros [= <-]].
  destruct (write_chunk _ _) as [|chunk] eqn:Ew; [discriminate|]. intros [= <-] b' k.
  apply load_written_chunk in Ew.
  unfold visible. rewrite !read_record_load. cbn [buffer chunks compress_chunks].
  destruct (decide (b' = b)) as [->|Hne].
  - rewrite lookup_delete_eq, lookup_insert_eq, Eb. cbn [mbind option_bind fmap option_fmap option_map default].
    rewrite Ew. destruct (upd !! k) as [r|] eqn:Ek.
    + now apply lookup_union_Some_l.
    + now apply lookup_union_r.
  - now rewrite lookup_delete_ne, lookup_insert_ne by congruence.
Qed.

Lemma flush_bucket_buffer (db db' : DB) (b : Z) :
  flush_bucket db b = inr db' -> buffer db' = delete b (buffer db).
Proof.
  unfold flush_bucket. destruct (buffer db !! b) as [upd|] eqn:Eb.
  - destruct (write_chunk _ _); [discriminate|]. now intros [= <-].
  - intros [= <-]. symmetry. now apply delete_id.
Qed.

Lemma first_bucket_None (buf : gmap Z (gmap N R)) : first_bucket buf = None <-> buf = ∅.
Proof.
  unfold first_bucket. split.
  - destruct (map_to_list buf) as [|[b upd] l] eqn:E; [|discriminate].
    intros _. now apply map_to_list_empty_iff.
  - intros ->. now rewrite map_to_list_empty.
Qed.

Lemma foldr_min_elem (b : Z) (bs : list Z) : foldr Z.min b bs ∈ b :: bs.
Proof.
  induction bs as [|c bs IH]; simpl; [left|].
  destruct (Z.min_spec c (foldr Z.min b bs)) as [[_ ->]|[_ ->]].
  - right. left.
  - apply elem_of_cons in IH as [->|IH]; [left|right; right; exact IH].
Qed.

Lemma first_bucket_Some (buf : gmap Z (gmap N R)) (b : Z) :
  first_bucket buf = Some b -> is_Some (buf !! b).
Proof.
  unfold first_bucket. destruct ((map_to_list buf).*1) as [|c bs] eqn:E; [discriminate|].
  intros [= <-]. pose proof (foldr_min_elem c bs) as Hin. rewrite <- E in Hin.
  apply list_elem_of_fmap in Hin as ([b' upd] & -> & Hin). apply elem_of_map_to_list in Hin. eauto.
Qed.

Lemma foldr_min_le (b x : Z) (bs : list Z) : x ∈ b :: bs -> foldr Z.min b bs <= x.
Proof.
  induction bs as [|d bs IH]; simpl; intros Hin.
  - apply list_elem_of_singleton in Hin. lia.
  - assert (Hx : x = d \/ x ∈ b :: bs).
    { rewrite !elem_of_cons in Hin. rewrite elem_of_cons. tauto. }
    destruct Hx as [->|Hx]; [apply Z.le_min_l|].
    etransitivity; [apply Z.le_min_r|now apply IH].
Qed.

Lemma first_bucket_least (buf : gmap Z (gmap N R)) (b b' : Z) :
  first_bucket buf = Some b -> is_Some (buf !! b') -> b <= b'.
Proof.
  unfold first_bucket. destruct ((map_to_list buf).*1) as [|c bs] eqn:E; [discriminate|].
  intros [= <-] [upd Hb']. apply foldr_min_le.
  rewrite <- E. apply list_elem_of_fmap. exists (b', upd). split; [reflexivity|].
  now apply elem_of_map_to_list.
Qed.

(** *** Flush *)

Lemma Flush_loop_frame (fuel : nat) :
  forall db, let db1 := snd (Flush_loop fuel db) in
    db_open db1 = db_open db /\ bucket_width db1 = bucket_width db
    /\ compress_chunks db1 = compress_chunks db.
Proof.
  induction fuel as [|fuel IH]; intros db; cbn [Flush_loop]; [auto|].
  destruct (first_bucket (buffer db)) as [b|]; [|auto].
  destruct (flush_bucket db b) as [e|db'] eqn:E; [auto|].
  destruct (flush_bucket_frame _ _ _ E) as (H1 & H2 & H3).
  destruct (IH db') as (I1 & I2 & I3). cbv zeta. rewrite I1, I2, I3. auto.
Qed.

Lemma Flush_loop_visible (fuel : nat) :
  forall db b k, visible (snd (Flush_loop fuel db)) b k = visible db b k.
Proof.
  induction fuel as [|fuel IH]; intros db b k; cbn [Flush_loop]; [reflexivity|].
  destruct (first_bucket (buffer db)) as [b0|]; [|reflexivity].
  destruct (flush_bucket db b0) as [e|db'] eqn:E; [reflexivity|].
  rewrite IH. eauto using flush_bucket_visible.
Qed.

(** With fuel for every buffered bucket, the walk ends with an empty buffer or
    at a bucket whose chunk cannot be written. *)
Lemma Flush_loop_end (fuel : nat) :
  forall db, (size (buffer db) <= fuel)%nat ->
    match Flush_loop fuel db with
    | (None, db1) => buffer db1 = ∅
    | (Some e, db1) =>
        exists b cause, e = FlushFailed b cause
          /\ first_bucket (buffer db1) = Some b /\ flush_bucket db1 b = inl cause
    end.
Proof.
  induction fuel as [|fuel IH]; intros db Hsize; cbn [Flush_loop].
  - apply map_size_empty_inv. lia.
  - destruct (first_bucket (buffer db)) as [b|] eqn:Ef; [|now apply first_bucket_None].
    destruct (flush_bucket db b) as [e|db'] eqn:E; [eauto|].
    apply IH. rewrite (flush_bucket_buffer _ _ _ E).
    rewrite map_size_delete_Some by (eapply first_bucket_Some; exact Ef). lia.
Qed.

Lemma Flush_Flush (db : DB) :
  Flush (snd (Flush db)) = Flush db.
Proof.
  unfold Flush at 2 3. destruct (db_open db) eqn:Eo.
  - pose proof (Flush_loop_frame (size (buffer db)) db) as (Ho & _).
    pose proof (Flush_loop_end (size (buffer db)) db (le_n _)) as Hend.
    destruct (Flush_loop (size (buffer db)) db) as [[e|] db1]; cbn [snd] in *; unfold Flush; rewrite Ho, Eo.
    + destruct Hend as (b & cause & -> & Hb & Hf).
      destruct (first_bucket_Some _ _ Hb) as [upd Hupd].
      destruct (size (buffer db1)) as [|n] eqn:En.
      { apply map_size_empty_inv in En. rewrite En, lookup_empty in Hupd. discriminate. }
      cbn [Flush_loop]. now rewrite Hb, Hf.
    + rewrite Hend, map_size_empty. reflexivity.
  - cbn [snd]. unfold Flush. now rewrite Eo.
Qed.

(** *** Update and Retrieve *)

Lemma Update_open (db : DB) (t : Z) (k : N) (r : R) :
  db_open db = true ->
  Update db t k r
  = inr (with_buffer db
           (<[bucket db t := <[k := r]> (default ∅ (buffer db !! bucket db t))]> (buffer db))).
Proof. intros H. unfold Update. now rewrite H. Qed.

Lemma Update_visible_same (db db' : DB) (t : Z) (k : N) (r : R) :
  Update db t k r = inr db' -> visible db' (bucket db t) k = Some r.
Proof.
  unfold Update. destruct (db_open db); [|discriminate]. intros [= <-].
  unfold visible. cbn [buffer with_buffer]. rewrite lookup_insert_eq. cbn [mbind option_bind].
  now rewrite lookup_insert_eq.
Qed.

Lemma Update_visible_other (db db' : DB) (t : Z) (k : N) (r : R) (b : Z) (k0 : N) :
  Update db t k r = inr db' -> (bucket db t, k) <> (b, k0) ->
  visible db' b k0 = visible db b k0.
Proof.
  unfold Update. destruct (db_open db); [|discriminate]. intros [= <-] Hne.
  unfold visible, read_record. cbn [buffer chunks compress_chunks with_buffer].
  destruct (decide (bucket db t = b)) as [Eb|Hb].
  - assert (Hk : k <> k0) by (intros ->; apply Hne; now rewrite Eb).
    rewrite Eb, lookup_insert_eq. cbn [mbind option_bind]. rewrite lookup_insert_ne by exact Hk.
    destruct (buffer db !! b) as [upd|]; cbn [default mbind option_bind]; [reflexivity|].
    now rewrite lookup_empty.
  - now rewrite lookup_insert_ne by exact Hb.
Qed.

Lemma Update_frame (db db' : DB) (t : Z) (k : N) (r : R) :
  Update db t k r = inr db' ->
  db_open db' = true /\ bucket_width db' = bucket_width db.
Proof.
  unfold Update. destruct (db_open db) eqn:E; [|discriminate]. intros [= <-]. auto.
Qed.

Lemma run_op_frame (db : DB) (op : Op) :
  db_open (run_op db op) = db_open db /\ bucket_width (run_op db op) = bucket_width db.
Proof.
  destruct op as [|t k r]; cbn [run_op].
  - unfold Flush. destruct (db_open db) eqn:E; [|auto].
    destruct (Flush_loop_frame (size (buffer db)) db) as (H1 & H2 & _).
    cbv zeta in H1, H2. rewrite H1, H2. auto.
  - destruct (Update db t k r) as [e|db'] eqn:E; [auto|].
    destruct (Update_frame _ _ _ _ _ E) as [H1 H2]. split; [|exact H2].
    unfold Update in E. destruct (db_open db); [congruence|discriminate].
Qed.

Lemma run_op_visible (db : DB) (t : Z) (k : N) (op : Op) :
  leaves_alone db t k op ->
  visible (run_op db op) (bucket db t) k = visible db (bucket db t) k.
Proof.
  destruct op as [|t' k' r']; cbn [run_op leaves_alone]; intros Hop.
  - unfold Flush. destruct (db_open db); [|reflexivity]. apply Flush_loop_visible.
  - destruct (Update db t' k' r') as [e|db'] eqn:E; [reflexivity|].
    eauto using Update_visible_other.
Qed.

Lemma run_visible (ops : list Op) :
  forall (db : DB) (t : Z) (k : N),
    Forall (leaves_alone db t k) ops ->
    db_open (run db ops) = db_open db
    /\ bucket_width (run db ops) = bucket_width db
    /\ visible (run db ops) (bucket db t) k = visible db (bucket db t) k.
Proof.
  induction ops as [|op ops IH]; intros db t k Hops; [auto|].
  inversion Hops as [|? ? Hop Hops']; subst.
  destruct (run_op_frame db op) as [Ho Hw].
  assert (Hb : forall t', bucket (run_op db op) t' = bucket db t')
    by (intros; unfold bucket; now rewrite Hw).
  destruct (IH (run_op db op) t k) as (I1 & I2 & I3).
  { eapply Forall_impl; [exact Hops'|]. intros [|t' k' r']; cbn [leaves_alone]; [auto|].
    now rewrite !Hb. }
  cbn [run foldl]. fold (run (run_op db op) ops).
  rewrite I1, I2, Ho, Hw. rewrite Hb in I3. rewrite I3.
  split; [reflexivity|]. split; [reflexivity|]. now apply run_op_visible.
Qed.

(** C1. In an open database, a record written by [Update(t, k, r)] is what
    [Retrieve(t, k)] returns afterwards, whatever [Flush] calls and [Update]s
    for other buckets or keys come in between. *)
Theorem Retrieve_after_Update (db : DB) (t : Z) (k : N) (r : R) :
  db_open db = true ->
  exists db1 : DB,
    Update db t k r = inr db1
    /\ forall ops : list Op,
         Forall (leaves_alone db t k) ops ->
         Retrieve (run db1 ops) t k = inr (Some r).
Proof.
  intros Hopen. eexists. split; [now apply Update_open|].
  set (db1 := with_buffer db _). intros ops Hops.
  assert (HU : Update db t k r = inr db1) by now apply Update_open.
  destruct (Update_frame _ _ _ _ _ HU) as [Ho Hw].
  assert (Hb : forall t', bucket db1 t' = bucket db t')
    by (intros; unfold bucket; now rewrite Hw).
  destruct (run_visible ops db1 t k) as (I1 & I2 & I3).
  { eapply Forall_impl; [exact Hops|]. intros [|t' k' r']; cbn [leaves_alone]; [auto|].
    now rewrite !Hb. }
  rewrite Retrieve_visible, I1, Ho.
  replace (bucket (run db1 ops) t) with (bucket db1 t) by (unfold bucket; now rewrite I2).
  rewrite I3, Hb. f_equal. eauto using Update_visible_same.
Qed.

(** C2. A second [Flush] right after a first one changes neither the chunks
    nor the buffer, and succeeds when the first one did. *)
Theorem Flush_idempotent (db : DB) :
  let '(result1, db1) := Flush db in
  let '(result2, db2) := Flush db1 in
  chunks db2 = chunks db1 /\ buffer db2 = buffer db1
  /\ (result1 = None -> result2 = None).
Proof.
  pose proof (Flush_Flush db) as H.
  destruct (Flush db) as [result1 db1]. cbn [snd] in H.
  destruct (Flush db1) as [result2 db2]. injection H as -> ->. auto.
Qed.

End Engine.

(** The theorems at work on a store of raw byte strings, with compressed
    chunks and one-hour buckets. *)

Definition raw_db : @DB (list byte) := mkDB true 3600 true ∅ ∅.

Lemma Retrieve_after_Update_witness :
  exists db1 : DB,
    Update raw_db 100 7 [x01] = inr db1
    /\ Retrieve Some (run id Some db1 [OpFlush; OpUpdate 100 8 [x02]; OpFlush]) 100 7
       = inr (Some [x01]).
Proof.
  destruct (Retrieve_after_Update id Some (fun r => eq_refl) raw_db 100 7 [x01] eq_refl)
    as (db1 & HU & H).
  exists db1. split; [exact HU|]. apply H.
  repeat constructor. cbn. intros [= ?].
Defined.

Lemma Flush_idempotent_witness :
  let '(result1, db1) := Flush id Some (run id Some raw_db [OpUpdate 100 7 [x01]]) in
  let '(result2, db2) := Flush id Some db1 in
  chunks db2 = chunks db1 /\ buffer db2 = buffer db1 /\ (result1 = None -> result2 = None).
Proof. apply (Flush_idempotent id Some). Defined.

Example Flush_writes_chunk :
  chunks (snd (Flush id Some (run id Some raw_db [OpUpdate 100 7 [x01]])))
  = {[ 0 := {[ 7%N := [x01; x00; x01] ]} ]}.
Proof. vm_compute. reflexivity. Qed.

End CTSDB.

(** ** entry.cpp: the entry sequencer *)

Module Entry.

Definition MINIMUM_HARD_DISK_AVAILABLE : Z := 104857600.

(** The run modes [Initialize] tells apart; the enumeration itself is declared
    outside entry.cpp. *)
Inductive EModeType := MODE_SERVER | MODE_MINER | MODE_CLIENT.

(** The module kinds of the [switch] in [InitializeModules];
    [OTHER_MODULE] stands for an enumerator the [switch] has no case for,
    with its [CMode::IntValue]. *)
Inductive EModuleType :=
| LOCK | BLOCKMAKER | COREPROTOCOL | DISPATCHER | HTTPGET | HTTPSERVER
| NETCHANNEL | BLOCKCHANNEL | CERTTXCHANNEL | USERTXCHANNEL | DELEGATEDCHANNEL
| NETWORK | RPCCLIENT | RPCMODE | SERVICE | TXPOOL | WALLET | BLOCKCHAIN
| FORKMANAGER | CONSENSUS | DATASTAT | RECOVERY
| OTHER_MODULE (value : Z).

(** The classes [InitializeModules] instantiates. *)
Inductive IBaseClass :=
| CBlockMaker | CTestNetCoreProtocol | CCoreProtocol | CDispatcher | CHttpGet
| CHttpServer | CNetChannel | CBlockChannel | CCertTxChannel | CUserTxChannel
| CDelegatedChannel | CNetwork | CRPCClient (fConsole : bool) | CRPCMod
| CService | CTxPool | CWallet | CDummyWallet | CBlockChain | CForkManager
| CConsensus | CDataStat | CRecovery.

(** An object on the heap: its address and its dynamic class.  An [IBase*] is
    an [option IBase], [None] being [nullptr]. *)
Record IBase := mkIBase { obj_addr : nat; obj_class : IBaseClass }.

#[global] Instance EModeType_eq_dec : EqDecision EModeType.
Proof. solve_decision. Defined.

#[global] Instance EModuleType_eq_dec : EqDecision EModuleType.
Proof. solve_decision. Defined.

#[global] Instance IBaseClass_eq_dec : EqDecision IBaseClass.
Proof. solve_decision. Defined.

#[global] Instance IBase_eq_dec : EqDecision IBase.
Proof. solve_decision. Defined.

(** *** Configuration *)

Record endpoint := mkEndpoint { ep_address : string; ep_port : Z }.

Record CIOSSLOption := mkSSL {
  fEnable : bool; fVerify : bool;
  strCAFile : string; strCertFile : string; strPKFile : string; strCiphers : string
}.

Record CHttpHostConfig := mkHost {
  nLinkChainId : Z;
  epHost : endpoint;
  nMaxConnections : Z;
  optSSL : CIOSSLOption;
  mapUserPass : list (string * string);
  vAllowMask : list string;
  strIOModule : string
}.

Record CRPCServerConfig := mkRPCServerConfig {
  fRPCSSLEnable : bool; fRPCSSLVerify : bool;
  strRPCCAFile : string; strRPCCertFile : string; strRPCPKFile : string;
  strRPCCiphers : string;
  strRPCUser : string; strRPCPass : string;
  epRPC : endpoint;
  nRPCMaxConnections : Z;
  vRPCAllowIP : list string;
  vecChainIdRpcPort : list (Z * Z)
}.

(** What [config.GetConfig()] is read for; [rpc_server] is [None] when the
    configuration of the mode is no [CRPCServerConfig] ([CastConfigPtr]
    gives [nullptr]). *)
Record Config := mkConfig {
  fHelp : bool; fVersion : bool; fPurge : bool; fDebug : bool; fDaemon : bool;
  fTestNet : bool; fFastTest : bool; fTestMainnet : bool; fWallet : bool; fFullDb : bool;
  nLogFileSize : Z; nLogHistorySize : Z;
  nChainId : Z; nNetId : Z;
  pathData : string;
  vecCommand : list string;
  rpc_server : option CRPCServerConfig
}.

(** *** The environment: what the calls into the operating system and into
    absent modules answer *)

Record Env := mkEnv {
  config_Load : bool;
  config_PostLoad : bool;
  config : Config;
  mode : EModeType;
  create_directories_ok : bool;
  space_available : Z;
  purger_ok : bool;
  fork_pid : Z;
  setsid_sid : Z;
  fopen_ok : bool;
  SetLogFilePath_ok : bool;
  InitLog_ok : bool
}.

(** *** The world the entry acts on *)

Inductive PathKind := Missing | Directory | OtherFile.

(** The data directory, the lock files held by other processes and by this
    one, and the pid file. *)
Record FileSystem := mkFS {
  data_dir : PathKind;
  locked_by_others : list string;
  locked_by_us : list string;
  pid_file : option Z
}.

Inductive Stream := Cout | Cerr | Log.

Record Globals := mkGlobals {
  TESTNET_FLAG : bool; FASTTEST_FLAG : bool; TESTMAINNET_FLAG : bool;
  GENESIS_CHAINID : Z; NETWORK_NETID : Z
}.

(** What the file-system library throws. *)
Inductive exception := filesystem_error.

(** How a call ends: it returns, the process exits, or an exception that
    nothing catches leaves it. *)
Inductive Outcome := Returned (b : bool) | Exited (code : Z) | Thrown (e : exception).

Section Sequencer.

(** The module container and the constants of absent headers. *)
Context {Docker : Type}.
Variable docker_Attach : Docker -> IBase -> bool * Docker.
Variable docker_GetObject : Docker -> string -> option IBase.
Variable docker_Initialize : Docker -> Config -> bool * Docker.
Variable GetOwnKey : IBase -> string.
Variable GetModules : EModeType -> list EModuleType.
Variable VERSION_STR : string.
Variable GetGitVersion : string.
Variable DEF_GENESIS_CHAINID : Z.
Variable config_Help : string.
Variable config_ListConfig : string.

Record World := mkWorld {
  fs : FileSystem;
  docker : Docker;
  objects : list IBase;
  deleted : list IBase;
  http_hosts : list CHttpHostConfig;
  output : list (Stream * string);
  globals : Globals
}.

Definition set_fs (w : World) (x : FileSystem) : World :=
  mkWorld x (docker w) (objects w) (deleted w) (http_hosts w) (output w) (globals w).
Definition set_docker (w : World) (x : Docker) : World :=
  mkWorld (fs w) x (objects w) (deleted w) (http_hosts w) (output w) (globals w).
Definition set_objects (w : World) (x : list IBase) : World :=
  mkWorld (fs w) (docker w) x (deleted w) (http_hosts w) (output w) (globals w).
Definition set_deleted (w : World) (x : list IBase) : World :=
  mkWorld (fs w) (docker w) (objects w) x (http_hosts w) (output w) (globals w).
Definition set_http_hosts (w : World) (x : list CHttpHostConfig) : World :=
  mkWorld (fs w) (docker w) (objects w) (deleted w) x (output w) (globals w).
Definition set_output (w : World) (x : list (Stream * string)) : World :=
  mkWorld (fs w) (docker w) (objects w) (deleted w) (http_hosts w) x (globals w).
Definition set_globals (w : World) (x : Globals) : World :=
  mkWorld (fs w) (docker w) (objects w) (deleted w) (http_hosts w) (output w) x.

(** [stream << msg << endl] *)
Definition print (s : Stream) (msg : string) (w : World) : World :=
  set_output w (output w ++ [(s, msg)]).

Definition newline : string := String "010"%char EmptyString.

(** [pathData / name] *)
Definition path_append (dir name : string) : string := dir +:+ "/" +:+ name.

(** Modelled from the spec: [TryLockFile], an exclusive advisory lock on a
    file; it fails when another process holds the lock. *)
Definition TryLockFile (path : string) (w : World) : bool * World :=
  if decide (path ∈ locked_by_others (fs w)) then (false, w)
  else
    (true, set_fs w (mkFS (data_dir (fs w)) (locked_by_others (fs w))
                      (path :: locked_by_us (fs w)) (pid_file (fs w)))).

(** [exists(pathData)] and [is_directory(pathData)] of the file-system
    library, where the status of the path can be read. *)
Definition path_exists (w : World) : bool :=
  match data_dir (fs w) with
  | Missing => false
  | _ => true
  end.

Definition is_directory (w : World) : bool :=
  match data_dir (fs w) with
  | Directory => true
  | _ => false
  end.

(** [create_directories(pathData)] of the file-system library, the overload
    without an error code: it returns true when it has created the
    directory and false when the directory was there already; when the
    directory cannot be made, which includes a path that is a file, it throws
    [filesystem_error].  [inr] is the exception. *)
Definition create_directories (env : Env) (w : World) : (bool + exception) * World :=
  match data_dir (fs w) with
  | Directory => (inl false, w)
  | OtherFile => (inr filesystem_error, w)
  | Missing =>
      if create_directories_ok env
      then (inl true, set_fs w (mkFS Directory (locked_by_others (fs w))
                                  (locked_by_us (fs w)) (pid_file (fs w))))
      else (inr filesystem_error, w)
  end.

(** [new C(...)]: a fresh object of class [cls]. *)
Definition new_object (cls : IBaseClass) (w : World) : IBase * World :=
  let obj := mkIBase (length (objects w)) cls in
  (obj, set_objects w (objects w ++ [obj])).

(** [delete pBase]; deleting [nullptr] does nothing. *)
Definition delete_object (pBase : option IBase) (w : World) : World :=
  match pBase with
  | None => w
  | Some obj => set_deleted w (obj :: deleted w)
  end.

(** [bool CBbEntry::AttachModule(IBase* pBase)] *)
Definition AttachModule (pBase : option IBase) (w : World) : bool * World :=
  match pBase with
  | None => (false, delete_object pBase w)
  | Some obj =>
      let '(ok, d) := docker_Attach (docker w) obj in
      let w := set_docker w d in
      if ok then (true, w) else (false, delete_object pBase w)
  end.

(** [bool CBbEntry::GetRPCHostConfig(std::vector<CHttpHostConfig>& vHostCfg)]:
    [None] is [return false]; otherwise the hosts pushed onto [vHostCfg]. *)
Definition GetRPCHostConfig (cfg : Config) (w : World) : option (list CHttpHostConfig) :=
  match rpc_server cfg with
  | None => None
  | Some pConfig =>
      let sslRPC := mkSSL (fRPCSSLEnable pConfig) (fRPCSSLVerify pConfig)
                      (strRPCCAFile pConfig) (strRPCCertFile pConfig)
                      (strRPCPKFile pConfig) (strRPCCiphers pConfig) in
      let mapUsrRPC :=
        if decide (strRPCUser pConfig = EmptyString) then []
        else [(strRPCUser pConfig, strRPCPass pConfig)] in
      let genesis := GENESIS_CHAINID (globals w) in
      let cfgHost := mkHost genesis (epRPC pConfig) (nRPCMaxConnections pConfig)
                       sslRPC mapUsrRPC (vRPCAllowIP pConfig) "rpcmod" in
      Some (cfgHost
              :: map (fun vd : Z * Z =>
                        mkHost (fst vd) (mkEndpoint (ep_address (epRPC pConfig)) (snd vd))
                          (nRPCMaxConnections pConfig) sslRPC mapUsrRPC
                          (vRPCAllowIP pConfig) "rpcmod")
                   (filter (fun vd : Z * Z => fst vd <> genesis) (vecChainIdRpcPort pConfig)))
  end.

(** [AttachModule(new C(...))] *)
Definition attach_new (cls : IBaseClass) (w : World) : bool * World :=
  let '(obj, w) := new_object cls w in AttachModule (Some obj) w.

Definition lock_message (cfg : Config) : string :=
  "Cannot obtain a lock on data directory " +:+ pathData cfg +:+ newline
  +:+ "MetabaseNet is probably already running.".

(** One round of the loop of [InitializeModules]: [false] is [return false],
    [true] is [break], on to the next module. *)
Definition InitializeModule (cfg : Config) (m : EModuleType) (w : World) : bool * World :=
  match m with
  | LOCK =>
      let '(locked, w) := TryLockFile (path_append (pathData cfg) ".lock") w in
      if locked then (true, w) else (false, print Cerr (lock_message cfg) w)
  | BLOCKMAKER => attach_new CBlockMaker w
  | COREPROTOCOL =>
      attach_new (if fTestNet cfg then CTestNetCoreProtocol else CCoreProtocol) w
  | DISPATCHER => attach_new CDispatcher w
  | HTTPGET => attach_new CHttpGet w
  | HTTPSERVER => attach_new CHttpServer w
  | NETCHANNEL => attach_new CNetChannel w
  | BLOCKCHANNEL => attach_new CBlockChannel w
  | CERTTXCHANNEL => attach_new CCertTxChannel w
  | USERTXCHANNEL => attach_new CUserTxChannel w
  | DELEGATEDCHANNEL => attach_new CDelegatedChannel w
  | NETWORK => attach_new CNetwork w
  | RPCCLIENT =>
      attach_new (CRPCClient (bool_decide (vecCommand cfg = []))) w
  | RPCMODE =>
      match docker_GetObject (docker w) "httpserver" with
      | None => (false, w)
      | Some pBase =>
          match GetRPCHostConfig cfg w with
          | None => (false, w)
          | Some vHostCfg =>
              attach_new CRPCMod (set_http_hosts w (http_hosts w ++ vHostCfg))
          end
      end
  | SERVICE => attach_new CService w
  | TXPOOL => attach_new CTxPool w
  | WALLET => attach_new (if fWallet cfg then CWallet else CDummyWallet) w
  | BLOCKCHAIN => attach_new CBlockChain w
  | FORKMANAGER => attach_new CForkManager w
  | CONSENSUS => attach_new CConsensus w
  | DATASTAT => attach_new CDataStat w
  | RECOVERY => attach_new CRecovery w
  | OTHER_MODULE value => (true, print Cerr "Unknown module:%d" w)
  end.

Fixpoint InitializeModules_loop (cfg : Config) (modules : list EModuleType) (w : World)
  : bool * World :=
  match modules with
  | [] => (true, w)
  | m :: modules' =>
      let '(ok, w) := InitializeModule cfg m w in
      if ok then InitializeModules_loop cfg modules' w else (false, w)
  end.

(** [bool CBbEntry::InitializeModules(const EModeType& mode)] *)
Definition InitializeModules (cfg : Config) (mode : EModeType) (w : World) : bool * World :=
  InitializeModules_loop cfg (GetModules mode) w.

(** [void CBbEntry::PurgeStorage()] *)
Definition PurgeStorage (env : Env) (w : World) : World :=
  let cfg := config env in
  let '(locked, w) := TryLockFile (path_append (pathData cfg) ".lock") w in
  if locked then
    if purger_ok env then print Cout "Reset database and removed blockfiles" w
    else print Cout "Failed to purge storage" w
  else print Cerr (lock_message cfg) w.

(** [bool CBbEntry::RunInBackground(const path& pathData)], the POSIX branch:
    the parent writes the pid file and exits, the child goes on. *)
Definition RunInBackground (env : Env) (w : World) : Outcome * World :=
  let pid := fork_pid env in
  if pid <? 0 then (Returned false, print Cerr "Error: fork() returned" w)
  else if 0 <? pid then
    let w := if fopen_ok env
             then set_fs w (mkFS (data_dir (fs w)) (locked_by_others (fs w))
                              (locked_by_us (fs w)) (Some pid))
             else w in
    (Exited 0, w)
  else if setsid_sid env <? 0 then (Returned false, print Cerr "Error: setsid) returned" w)
  else (Returned true, w).

Definition is_server_or_miner (m : EModeType) : bool :=
  bool_decide (m = MODE_SERVER) || bool_decide (m = MODE_MINER).

(** The part of [Initialize] after the daemon step: the global flags, the
    log, the container, the modules. *)
Definition Initialize_modules (env : Env) (w : World) : Outcome * World :=
  let cfg := config env in
  let genesis := if nChainId cfg =? 0 then DEF_GENESIS_CHAINID else nChainId cfg in
  let netid := if nNetId cfg =? 0 then genesis else nNetId cfg in
  let w := set_globals w (mkGlobals (fTestNet cfg) (fFastTest cfg) (fTestMainnet cfg)
                            genesis netid) in
  if is_server_or_miner (mode env) && SetLogFilePath_ok env && negb (InitLog_ok env) then
    (Returned false,
     print Cerr ("Failed to open log file : " +:+ path_append (pathData cfg) "metabasenet.log") w)
  else
    let w := print Log "malloc_trim" w in
    let '(ok, d) := docker_Initialize (docker w) cfg in
    let w := set_docker w d in
    if negb ok then (Returned false, print Cerr "Failed to initialize docker" w)
    else
      let w := print Log ("Initialize: metabasenet version is v" +:+ VERSION_STR
                          +:+ ", git commit id: " +:+ GetGitVersion) w in
      let '(ok, w) := InitializeModules cfg (mode env) w in
      (Returned ok, w).

(** The daemon step of [Initialize]. *)
Definition Initialize_daemon (env : Env) (w : World) : Outcome * World :=
  let cfg := config env in
  if fDaemon cfg && is_server_or_miner (mode env) then
    match RunInBackground env w with
    | (Returned true, w) =>
        Initialize_modules env
          (print Cout ("metabasenet server starting, version is v" +:+ VERSION_STR
                       +:+ ", git commit id is " +:+ GetGitVersion) w)
    | (Returned false, w) => (Returned false, w)
    | (Exited code, w) => (Exited code, w)
    | (Thrown e, w) => (Thrown e, w)
    end
  else Initialize_modules env w.

(** The data-directory step of [Initialize]: create the directory when it is
    missing, require a directory, require the free space.  There is no
    handler around [create_directories], so its exception leaves
    [Initialize]. *)
Definition Initialize_path (env : Env) (w : World) : Outcome * World :=
  let cfg := config env in
  let '(created, w) :=
    if path_exists w then (inl true, w) else create_directories env w in
  match created with
  | inr e => (Thrown e, w)
  | inl created =>
      if negb created then
        (Returned false, print Cerr ("Failed create directory : " +:+ pathData cfg) w)
      else if negb (is_directory w) then
        (Returned false, print Cerr ("Failed to access data directory : " +:+ pathData cfg) w)
      else if space_available env <? MINIMUM_HARD_DISK_AVAILABLE then
        (Returned false, print Cerr "Warning: hard disk available < 100M" w)
      else Initialize_daemon env w
  end.

(** [bool CBbEntry::Initialize(int argc, char* argv[])] *)
Definition Initialize (env : Env) (w : World) : Outcome * World :=
  let cfg := config env in
  if negb (config_Load env) || negb (config_PostLoad env) then
    (Returned false, print Cerr "Failed to load/parse arguments and config file" w)
  else if fHelp cfg then (Returned false, print Cout config_Help w)
  else if fVersion cfg then
    (Returned false,
     print Cout ("MetabaseNet version is v" +:+ VERSION_STR
                 +:+ ", git commit id is " +:+ GetGitVersion) w)
  else if fPurge cfg then (Returned false, PurgeStorage env w)
  else
    let w := if fDebug cfg then print Cout config_ListConfig w else w in
    if (nLogFileSize cfg <? 1) || (2048 <? nLogFileSize cfg) then
      (Returned false, print Cerr "Log file size beyond range(range: 1 ~ 2048), value: " w)
    else if (nLogHistorySize cfg <? 2) || (0x7FFFFFFF <? nLogHistorySize cfg) then
      (Returned false,
       print Cerr "Log history size beyond range(range: 2 ~ 2147483647), value: " w)
    else Initialize_path env w.

(** *** What the claims speak of *)

(** The data directory and the locks of other processes are what they were. *)
Definition fs_stable (w w' : World) : Prop :=
  locked_by_others (fs w') = locked_by_others (fs w)
  /\ data_dir (fs w') = data_dir (fs w).

(** [Initialize] gets as far as the data directory. *)
Definition reaches_path (env : Env) : Prop :=
  config_Load env = true /\ config_PostLoad env = true
  /\ fHelp (config env) = false /\ fVersion (config env) = false
  /\ fPurge (config env) = false
  /\ 1 <= nLogFileSize (config env) <= 2048
  /\ 2 <= nLogHistorySize (config env) <= 0x7FFFFFFF.

(** The directory is missing and cannot be created. *)
Definition creation_failure (env : Env) (w : World) : Prop :=
  data_dir (fs w) = Missing /\ create_directories_ok env = false.

(** The directory cannot be created, the path is no directory, or the disk
    is short of space. *)
Definition directory_failure (env : Env) (w : World) : Prop :=
  (data_dir (fs w) = Missing /\ create_directories_ok env = false)
  \/ data_dir (fs w) = OtherFile
  \/ space_available env < MINIMUM_HARD_DISK_AVAILABLE.

Definition list_config (env : Env) (w : World) : World :=
  if fDebug (config env) then print Cout config_ListConfig w else w.

(** The world with the data directory in place. *)
Definition with_data_dir (w : World) : World :=
  set_fs w (mkFS Directory (locked_by_others (fs w)) (locked_by_us (fs w)) (pid_file (fs w))).

(** The environment with another answer of [InitLog]. *)
Definition with_InitLog (env : Env) (b : bool) : Env :=
  mkEnv (config_Load env) (config_PostLoad env) (config env) (mode env)
    (create_directories_ok env) (space_available env) (purger_ok env) (fork_pid env)
    (setsid_sid env) (fopen_ok env) (SetLogFilePath_ok env) b.

(** The daemon step lets the child through: no daemon is asked for, or
    [fork] answers 0 and [setsid] succeeds. *)
Definition daemon_child (env : Env) : Prop :=
  fDaemon (config env) && is_server_or_miner (mode env) = true ->
  fork_pid env = 0 /\ 0 <= setsid_sid env.

(** The globals that [Initialize] sets from the configuration. *)
Definition configured_globals (env : Env) : Globals :=
  let genesis := if nChainId (config env) =? 0 then DEF_GENESIS_CHAINID
                 else nChainId (config env) in
  mkGlobals (fTestNet (config env)) (fFastTest (config env)) (fTestMainnet (config env))
    genesis (if nNetId (config env) =? 0 then genesis else nNetId (config env)).

(** *** AttachModule *)

Lemma AttachModule_frame (pBase : option IBase) (w : World) :
  let w' := snd (AttachModule pBase w) in
  fs w' = fs w /\ objects w' = objects w /\ http_hosts w' = http_hosts w
  /\ output w' = output w /\ globals w' = globals w.
Proof.
  destruct pBase as [obj|]; cbn [AttachModule delete_object snd]; [|auto].
  destruct (docker_Attach (docker w) obj) as [[] d]; cbn; auto.
Qed.

Section AttachContract.

(** The container's contract, from the specification: [Attach] rejects a
    name that is already registered, and an accepted instance is the one
    [GetObject] then finds under its name. *)
Hypothesis Attach_rejects_duplicate :
  forall (d : Docker) (obj : IBase),
    is_Some (docker_GetObject d (GetOwnKey obj)) -> fst (docker_Attach d obj) = false.
Hypothesis Attach_registers :
  forall (d d' : Docker) (obj : IBase),
    docker_Attach d obj = (true, d') -> docker_GetObject d' (GetOwnKey obj) = Some obj.

(** C8. [AttachModule] returns false for a null instance; when the
    container's [Attach] rejects the instance, as it does for a name that is
    already registered, the instance is deleted and the result is false;
    otherwise the result is true, nothing is deleted, and the container
    holds the instance under its name. *)
Theorem AttachModule_spec (pBase : option IBase) (w : World) :
  match pBase with
  | None => AttachModule pBase w = (false, w)
  | Some obj =>
      (fst (docker_Attach (docker w) obj) = false ->
       fst (AttachModule pBase w) = false
       /\ deleted (snd (AttachModule pBase w)) = obj :: deleted w)
      /\ (is_Some (docker_GetObject (docker w) (GetOwnKey obj)) ->
          fst (AttachModule pBase w) = false
          /\ deleted (snd (AttachModule pBase w)) = obj :: deleted w)
      /\ (fst (docker_Attach (docker w) obj) = true ->
          fst (AttachModule pBase w) = true
          /\ deleted (snd (AttachModule pBase w)) = deleted w
          /\ docker_GetObject (docker (snd (AttachModule pBase w))) (GetOwnKey obj) = Some obj)
  end.
Proof.
  destruct pBase as [obj|]; [|reflexivity].
  assert (Hrej : fst (docker_Attach (docker w) obj) = false ->
                 fst (AttachModule (Some obj) w) = false
                 /\ deleted (snd (AttachModule (Some obj) w)) = obj :: deleted w).
  { cbn [AttachModule]. destruct (docker_Attach (docker w) obj) as [ok d]. cbn [fst].
    intros ->. cbn. auto. }
  split; [exact Hrej|]. split.
  - intros Hdup. apply Hrej. now apply Attach_rejects_duplicate.
  - cbn [AttachModule]. destruct (docker_Attach (docker w) obj) as [ok d] eqn:E. cbn [fst].
    intros ->. cbn. split; [reflexivity|]. split; [reflexivity|]. eauto.
Qed.

End AttachContract.

(** *** InitializeModules *)

Lemma TryLockFile_frame (path : string) (w : World) :
  let w' := snd (TryLockFile path w) in
  locked_by_others (fs w') = locked_by_others (fs w)
  /\ data_dir (fs w') = data_dir (fs w)
  /\ docker w' = docker w /\ objects w' = objects w /\ deleted w' = deleted w.
Proof. unfold TryLockFile. destruct (decide _); cbn; auto. Qed.

Lemma TryLockFile_contended (path : string) (w : World) :
  path ∈ locked_by_others (fs w) -> TryLockFile path w = (false, w).
Proof. intros H. unfold TryLockFile. now rewrite decide_True. Qed.

Lemma attach_new_fs (cls : IBaseClass) (w : World) :
  fs (snd (attach_new cls w)) = fs w.
Proof.
  unfold attach_new, new_object. cbv zeta.
  destruct (AttachModule_frame
              (Some (mkIBase (length (objects w)) cls))
              (set_objects w (objects w ++ [mkIBase (length (objects w)) cls]))) as [H _].
  exact H.
Qed.

Lemma fs_stable_refl (w : World) : fs_stable w w.
Proof. split; reflexivity. Qed.

Lemma fs_stable_trans (w1 w2 w3 : World) :
  fs_stable w1 w2 -> fs_stable w2 w3 -> fs_stable w1 w3.
Proof. unfold fs_stable. intros [H1 H2] [H3 H4]. split; congruence. Qed.

Lemma fs_stable_same_fs (w w' : World) : fs w' = fs w -> fs_stable w w'.
Proof. unfold fs_stable. intros ->. auto. Qed.

Lemma InitializeModule_stable (cfg : Config) (m : EModuleType) (w : World) :
  fs_stable w (snd (InitializeModule cfg m w)).
Proof.
  destruct m; cbn [InitializeModule]; try (apply fs_stable_same_fs, attach_new_fs).
  - pose proof (TryLockFile_frame (path_append (pathData cfg) ".lock") w) as (H1 & H2 & _).
    destruct (TryLockFile _ w) as [[] w']; cbn in *; split; assumption.
  - destruct (docker_GetObject (docker w) "httpserver"); [|apply fs_stable_refl].
    destruct (GetRPCHostConfig cfg w); [|apply fs_stable_refl].
    apply fs_stable_same_fs. now rewrite attach_new_fs.
  - split; reflexivity.
Qed.

Lemma InitializeModules_loop_stable (cfg : Config) (modules : list EModuleType) :
  forall w, fs_stable w (snd (InitializeModules_loop cfg modules w)).
Proof.
  induction modules as [|m modules IH]; intros w; cbn [InitializeModules_loop];
    [apply fs_stable_refl|].
  pose proof (InitializeModule_stable cfg m w) as H.
  destruct (InitializeModule cfg m w) as [[] w']; cbn [snd] in *; [|exact H].
  eapply fs_stable_trans; [exact H|apply IH].
Qed.

Lemma InitializeModules_loop_app (cfg : Config) (pre post : list EModuleType) :
  forall w,
    InitializeModules_loop cfg (pre ++ post) w
    = let '(ok, w1) := InitializeModules_loop cfg pre w in
      if ok then InitializeModules_loop cfg post w1 else (false, w1).
Proof.
  induction pre as [|m pre IH]; intros w; cbn [app InitializeModules_loop]; [reflexivity|].
  destruct (InitializeModule cfg m w) as [[] w']; [apply IH|reflexivity].
Qed.

(** With the lock held by another process, the loop stops at [LOCK] at the
    latest: its state is the one the modules before [LOCK] leave, plus the
    message. *)
Lemma InitializeModules_loop_contended (cfg : Config) (pre post : list EModuleType) (w : World) :
  path_append (pathData cfg) ".lock" ∈ locked_by_others (fs w) ->
  InitializeModules_loop cfg (pre ++ LOCK :: post) w
  = let '(ok, w1) := InitializeModules_loop cfg pre w in
    (false, if ok then print Cerr (lock_message cfg) w1 else w1).
Proof.
  intros Hlock. rewrite InitializeModules_loop_app.
  pose proof (InitializeModules_loop_stable cfg pre w) as [Hl _].
  destruct (InitializeModules_loop cfg pre w) as [[] w1]; cbn [snd] in Hl; [|reflexivity].
  cbn [InitializeModules_loop InitializeModule].
  rewrite TryLockFile_contended by (now rewrite Hl). reflexivity.
Qed.

Lemma InitializeModules_contended_false (cfg : Config) (m : EModeType) (w : World) :
  LOCK ∈ GetModules m ->
  path_append (pathData cfg) ".lock" ∈ locked_by_others (fs w) ->
  fst (InitializeModules cfg m w) = false.
Proof.
  intros Hin Hlock. apply list_elem_of_split in Hin as (pre & post & E).
  unfold InitializeModules. rewrite E, InitializeModules_loop_contended by exact Hlock.
  now destruct (InitializeModules_loop cfg pre w).
Qed.

Lemma Initialize_modules_contended (env : Env) (w : World) :
  LOCK ∈ GetModules (mode env) ->
  path_append (pathData (config env)) ".lock" ∈ locked_by_others (fs w) ->
  fst (Initialize_modules env w) = Returned false.
Proof.
  intros Hin Hlock. unfold Initialize_modules. cbv zeta.
  destruct (is_server_or_miner (mode env) && SetLogFilePath_ok env && negb (InitLog_ok env));
    [reflexivity|].
  destruct (docker_Initialize _ _) as [[] d]; cbn [negb]; [|reflexivity].
  pose proof (InitializeModules_contended_false (config env) (mode env)) as H.
  match goal with |- context [InitializeModules _ _ ?w1] => specialize (H w1 Hin Hlock) end.
  destruct (InitializeModules _ _ _) as [ok w']. cbn [fst] in *. now rewrite H.
Qed.

Lemma Initialize_modules_stable (env : Env) (w : World) :
  fs_stable w (snd (Initialize_modules env w)).
Proof.
  unfold Initialize_modules. cbv zeta.
  destruct (is_server_or_miner (mode env) && SetLogFilePath_ok env && negb (InitLog_ok env));
    [split; reflexivity|].
  destruct (docker_Initialize _ _) as [[] d]; cbn [negb]; [|split; reflexivity].
  match goal with
  | |- context [InitializeModules ?cfg ?m ?w1] =>
      pose proof (InitializeModules_loop_stable cfg (GetModules m) w1) as [H1 H2];
      fold (InitializeModules cfg m w1) in H1, H2;
      destruct (InitializeModules cfg m w1) as [ok w']
  end.
  cbn [snd] in *. split; [rewrite H1|rewrite H2]; reflexivity.
Qed.

Lemma RunInBackground_stable (env : Env) (w : World) :
  fs_stable w (snd (RunInBackground env w)).
Proof.
  unfold RunInBackground. cbv zeta.
  destruct (fork_pid env <? 0); [split; reflexivity|].
  destruct (0 <? fork_pid env).
  - destruct (fopen_ok env); split; reflexivity.
  - destruct (setsid_sid env <? 0); split; reflexivity.
Qed.

Lemma Initialize_daemon_stable (env : Env) (w : World) :
  fs_stable w (snd (Initialize_daemon env w)).
Proof.
  unfold Initialize_daemon. cbv zeta.
  destruct (fDaemon (config env) && is_server_or_miner (mode env));
    [|apply Initialize_modules_stable].
  pose proof (RunInBackground_stable env w) as H.
  destruct (RunInBackground env w) as [[[]|code|e] w']; cbn [snd] in *; try exact H.
  eapply fs_stable_trans; [exact H|].
  match goal with
  | |- fs_stable _ (snd (Initialize_modules _ ?w1)) =>
      destruct (Initialize_modules_stable env w1) as [H1 H2]
  end.
  split; [rewrite H1|rewrite H2]; reflexivity.
Qed.

Lemma RunInBackground_child (env : Env) (w w' : World) :
  RunInBackground env w = (Returned true, w') -> w' = w.
Proof.
  unfold RunInBackground. cbv zeta.
  destruct (fork_pid env <? 0); [discriminate|].
  destruct (0 <? fork_pid env); [discriminate|].
  destruct (setsid_sid env <? 0); [discriminate|]. now intros [= <-].
Qed.

Lemma Initialize_daemon_contended (env : Env) (w : World) :
  LOCK ∈ GetModules (mode env) ->
  path_append (pathData (config env)) ".lock" ∈ locked_by_others (fs w) ->
  fst (Initialize_daemon env w) <> Returned true.
Proof.
  intros Hin Hlock. unfold Initialize_daemon. cbv zeta.
  destruct (fDaemon (config env) && is_server_or_miner (mode env)).
  - destruct (RunInBackground env w) as [[[]|code|e] w'] eqn:E; cbn [fst]; try discriminate.
    apply RunInBackground_child in E. subst w'.
    rewrite Initialize_modules_contended; [discriminate|exact Hin|exact Hlock].
  - rewrite Initialize_modules_contended; [discriminate|exact Hin|exact Hlock].
Qed.

Lemma Initialize_path_contended (env : Env) (w : World) :
  LOCK ∈ GetModules (mode env) ->
  path_append (pathData (config env)) ".lock" ∈ locked_by_others (fs w) ->
  fst (Initialize_path env w) <> Returned true.
Proof.
  intros Hin Hlock. unfold Initialize_path, create_directories, path_exists. cbv zeta.
  destruct (data_dir (fs w)) eqn:Ek.
  - destruct (create_directories_ok env); cbn [negb]; [|discriminate].
    match goal with |- context [is_directory ?w1] => destruct (negb (is_directory w1)) end;
      [discriminate|].
    destruct (space_available env <? _); [discriminate|].
    now apply Initialize_daemon_contended.
  - cbn [negb]. destruct (negb (is_directory w)); [discriminate|].
    destruct (space_available env <? _); [discriminate|].
    now apply Initialize_daemon_contended.
  - cbn [negb]. destruct (negb (is_directory w)); [discriminate|].
    destruct (space_available env <? _); [discriminate|].
    now apply Initialize_daemon_contended.
Qed.

Lemma Initialize_contended (env : Env) (w : World) :
  LOCK ∈ GetModules (mode env) ->
  path_append (pathData (config env)) ".lock" ∈ locked_by_others (fs w) ->
  fst (Initialize env w) <> Returned true.
Proof.
  intros Hin Hlock. unfold Initialize. cbv zeta.
  destruct (negb (config_Load env) || negb (config_PostLoad env)); [discriminate|].
  destruct (fHelp (config env)); [discriminate|].
  destruct (fVersion (config env)); [discriminate|].
  destruct (fPurge (config env)); [discriminate|].
  destruct ((nLogFileSize (config env) <? 1) || _); [discriminate|].
  destruct ((nLogHistorySize (config env) <? 2) || _); [discriminate|].
  apply Initialize_path_contended; [exact Hin|].
  now destruct (fDebug (config env)).
Qed.

(** C6. When the module list of the mode contains [LOCK] and another process
    holds the lock on [<data>/.lock], [InitializeModules] returns false, and
    the objects instantiated, attached and deleted are those of the modules
    listed before [LOCK]: nothing listed after it is touched.  [Initialize]
    then never reports success. *)
Theorem InitializeModules_lock_contended
  (env : Env) (w : World) (pre post : list EModuleType) :
  GetModules (mode env) = pre ++ LOCK :: post ->
  path_append (pathData (config env)) ".lock" ∈ locked_by_others (fs w) ->
  let result := InitializeModules (config env) (mode env) w in
  let before := snd (InitializeModules_loop (config env) pre w) in
  fst result = false
  /\ objects (snd result) = objects before
  /\ docker (snd result) = docker before
  /\ deleted (snd result) = deleted before
  /\ fst (Initialize env w) <> Returned true.
Proof.
  intros Hmods Hlock result before. subst result before.
  unfold InitializeModules.
  rewrite Hmods, InitializeModules_loop_contended by exact Hlock.
  split; [now destruct (InitializeModules_loop (config env) pre w)|].
  assert (Hin : LOCK ∈ GetModules (mode env)) by (rewrite Hmods; set_solver).
  destruct (InitializeModules_loop (config env) pre w) as [[] w1]; cbn [snd];
    repeat split; auto using Initialize_contended.
Qed.

(** *** The data-directory step of Initialize *)

Lemma Initialize_reaches_path (env : Env) (w : World) :
  reaches_path env -> Initialize env w = Initialize_path env (list_config env w).
Proof.
  intros (H1 & H2 & H3 & H4 & H5 & H6 & H7). unfold Initialize. cbv zeta.
  rewrite H1, H2, H3, H4, H5. cbn [negb orb].
  replace (nLogFileSize (config env) <? 1) with false by (symmetry; apply Z.ltb_ge; lia).
  replace (2048 <? nLogFileSize (config env)) with false by (symmetry; apply Z.ltb_ge; lia).
  replace (nLogHistorySize (config env) <? 2) with false by (symmetry; apply Z.ltb_ge; lia).
  replace (0x7FFFFFFF <? nLogHistorySize (config env)) with false
    by (symmetry; apply Z.ltb_ge; lia).
  reflexivity.
Qed.

Lemma with_data_dir_id (w : World) : data_dir (fs w) = Directory -> with_data_dir w = w.
Proof.
  destruct w as [[k lo lu pf] d o del h out g]. cbn. now intros ->.
Qed.

Lemma Initialize_path_throws (env : Env) (w : World) :
  creation_failure env w -> Initialize_path env w = (Thrown filesystem_error, w).
Proof.
  intros [Hm Hc]. unfold Initialize_path, create_directories, path_exists. cbv zeta.
  now rewrite Hm, Hc.
Qed.

Lemma Initialize_path_false (env : Env) (w : World) :
  ~ creation_failure env w ->
  data_dir (fs w) = OtherFile \/ space_available env < MINIMUM_HARD_DISK_AVAILABLE ->
  exists msg : string,
    Initialize_path env w
    = (Returned false,
       print Cerr msg (match data_dir (fs w) with Missing => with_data_dir w | _ => w end)).
Proof.
  unfold Initialize_path, create_directories, path_exists, is_directory, creation_failure.
  cbv zeta. intros Hcan Hfail.
  destruct (data_dir (fs w)) eqn:Ek.
  - destruct (create_directories_ok env) eqn:Ec; [|tauto].
    cbn. destruct Hfail as [Hfail|Hfail]; [discriminate Hfail|].
    apply Z.ltb_lt in Hfail. rewrite Hfail. eauto.
  - cbn. rewrite Ek. cbn. destruct Hfail as [Hfail|Hfail]; [discriminate Hfail|].
    apply Z.ltb_lt in Hfail. rewrite Hfail. eauto.
  - cbn. rewrite Ek. cbn. eauto.
Qed.

Lemma creation_failure_dec (env : Env) (w : World) :
  creation_failure env w \/ ~ creation_failure env w.
Proof.
  unfold creation_failure.
  destruct (data_dir (fs w)); [|right; intros [H _]; discriminate H..].
  destruct (create_directories_ok env); [right; intros [_ H]; discriminate H|auto].
Qed.

(** A failure at the data directory ends [Initialize_path] with the
    exception or with false, never with true or an exit. *)
Lemma Initialize_path_failure (env : Env) (w : World) :
  directory_failure env w ->
  fst (Initialize_path env w) = Thrown filesystem_error
  \/ fst (Initialize_path env w) = Returned false.
Proof.
  intros Hfail. destruct (creation_failure_dec env w) as [Hc|Hc].
  - left. now rewrite Initialize_path_throws.
  - right. destruct (Initialize_path_false env w Hc) as [msg ->]; [|reflexivity].
    destruct Hfail as [H|[H|H]]; [contradiction|now left|now right].
Qed.

Lemma Initialize_path_success (env : Env) (w : World) :
  ~ directory_failure env w ->
  Initialize_path env w = Initialize_daemon env (with_data_dir w).
Proof.
  unfold directory_failure. intros Hok.
  assert (Hs : (space_available env <? MINIMUM_HARD_DISK_AVAILABLE) = false)
    by (apply Z.ltb_ge; lia).
  unfold Initialize_path, create_directories, path_exists, is_directory. cbv zeta.
  destruct (data_dir (fs w)) eqn:Ek.
  - destruct (create_directories_ok env) eqn:Ec; [|tauto]. cbn. now rewrite Hs.
  - cbn. rewrite Ek, Hs. cbn. now rewrite with_data_dir_id.
  - tauto.
Qed.


(** *** Further facts about entry.cpp *)

(** X5. When the configuration does not load, or help, version or purge is
    requested, or a log size is out of range, [Initialize] returns false and
    no module is instantiated, attached or deleted. *)
Theorem Initialize_early_exit (env : Env) (w : World) :
  ~ reaches_path env ->
  fst (Initialize env w) = Returned false
  /\ objects (snd (Initialize env w)) = objects w
  /\ docker (snd (Initialize env w)) = docker w
  /\ deleted (snd (Initialize env w)) = deleted w.
Proof.
  intros Hno. unfold Initialize. cbv zeta.
  destruct (config_Load env) eqn:E1; cbn [negb orb]; [|cbn; auto].
  destruct (config_PostLoad env) eqn:E2; cbn [negb orb]; [|cbn; auto].
  destruct (fHelp (config env)) eqn:E3; [cbn; auto|].
  destruct (fVersion (config env)) eqn:E4; [cbn; auto|].
  destruct (fPurge (config env)) eqn:E5.
  { unfold PurgeStorage, TryLockFile. cbv zeta.
    destruct (decide _); [cbn; auto|]. destruct (purger_ok env); cbn; auto. }
  assert (Hlist : forall w0, w0 = (if fDebug (config env) then print Cout config_ListConfig w else w) ->
                  objects w0 = objects w /\ docker w0 = docker w /\ deleted w0 = deleted w)
    by (intros w0 ->; now destruct (fDebug (config env))).
  specialize (Hlist _ eq_refl). destruct Hlist as (L1 & L2 & L3).
  destruct (nLogFileSize (config env) <? 1) eqn:E6; cbn [orb]; [cbn; auto|].
  destruct (2048 <? nLogFileSize (config env)) eqn:E7; [cbn; auto|].
  destruct (nLogHistorySize (config env) <? 2) eqn:E8; cbn [orb]; [cbn; auto|].
  destruct (0x7FFFFFFF <? nLogHistorySize (config env)) eqn:E9; [cbn; auto|].
  exfalso. apply Hno. unfold reaches_path.
  apply Z.ltb_ge in E6, E7, E8, E9. repeat split; auto.
Qed.

(** X6. [GetRPCHostConfig] fails without an RPC configuration; with one, the
    first host serves the genesis chain on the RPC endpoint, and every
    further host serves another chain on the same address, all through
    "rpcmod". *)
Theorem GetRPCHostConfig_hosts (cfg : Config) (w : World) :
  match rpc_server cfg with
  | None => GetRPCHostConfig cfg w = None
  | Some pConfig =>
      exists (first : CHttpHostConfig) (rest : list CHttpHostConfig),
        GetRPCHostConfig cfg w = Some (first :: rest)
        /\ nLinkChainId first = GENESIS_CHAINID (globals w)
        /\ epHost first = epRPC pConfig
        /\ strIOModule first = "rpcmod"%string
        /\ Forall (fun h => nLinkChainId h <> GENESIS_CHAINID (globals w)
                            /\ ep_address (epHost h) = ep_address (epRPC pConfig)
                            /\ strIOModule h = "rpcmod"%string) rest
        /\ (length rest <= length (vecChainIdRpcPort pConfig))%nat
  end.
Proof.
  unfold GetRPCHostConfig. destruct (rpc_server cfg) as [pConfig|]; [|reflexivity].
  cbv zeta. eexists _, _. split; [reflexivity|]. cbn [nLinkChainId epHost strIOModule].
  repeat split.
  - apply List.Forall_map, Forall_forall. intros vd Hvd.
    apply list_elem_of_filter in Hvd as [Hne _]. cbn. auto.
  - rewrite length_map. apply length_filter.
Qed.

(** X22. When the log file path cannot be set, or the mode is neither server
    nor miner, [InitLog] is never consulted: [Initialize] does the same
    whatever [InitLog] would answer. *)
Theorem Initialize_log_failure_ignored (env : Env) (w : World) (b : bool) :
  is_server_or_miner (mode env) && SetLogFilePath_ok env = false ->
  Initialize (with_InitLog env b) w = Initialize env w.
Proof.
  intros H.
  unfold Initialize, Initialize_path, Initialize_daemon, Initialize_modules, RunInBackground,
    PurgeStorage, create_directories, with_InitLog.
  cbn [config_Load config_PostLoad config mode create_directories_ok space_available
       purger_ok fork_pid setsid_sid fopen_ok SetLogFilePath_ok InitLog_ok].
  rewrite H. reflexivity.
Qed.

Lemma reaches_path_dec (env : Env) : reaches_path env \/ ~ reaches_path env.
Proof.
  unfold reaches_path.
  destruct (config_Load env); [|right; intros (H & _); discriminate H].
  destruct (config_PostLoad env); [|right; intros (_ & H & _); discriminate H].
  destruct (fHelp (config env)); [right; intros (_ & _ & H & _); discriminate H|].
  destruct (fVersion (config env)); [right; intros (_ & _ & _ & H & _); discriminate H|].
  destruct (fPurge (config env)); [right; intros (_ & _ & _ & _ & H & _); discriminate H|].
  destruct (Z_le_dec 1 (nLogFileSize (config env))); [|right; lia].
  destruct (Z_le_dec (nLogFileSize (config env)) 2048); [|right; lia].
  destruct (Z_le_dec 2 (nLogHistorySize (config env))); [|right; lia].
  destruct (Z_le_dec (nLogHistorySize (config env)) 0x7FFFFFFF); [|right; lia].
  left. repeat split; auto.
Qed.


Lemma Initialize_not_reaching (env : Env) (w : World) :
  ~ reaches_path env -> fst (Initialize env w) = Returned false.
Proof.
  intros Hno. unfold Initialize. cbv zeta.
  destruct (config_Load env) eqn:E1; cbn [negb orb]; [|reflexivity].
  destruct (config_PostLoad env) eqn:E2; cbn [negb orb]; [|reflexivity].
  destruct (fHelp (config env)) eqn:E3; [reflexivity|].
  destruct (fVersion (config env)) eqn:E4; [reflexivity|].
  destruct (fPurge (config env)) eqn:E5; [reflexivity|].
  destruct (nLogFileSize (config env) <? 1) eqn:E6; cbn [orb]; [reflexivity|].
  destruct (2048 <? nLogFileSize (config env)) eqn:E7; [reflexivity|].
  destruct (nLogHistorySize (config env) <? 2) eqn:E8; cbn [orb]; [reflexivity|].
  destruct (0x7FFFFFFF <? nLogHistorySize (config env)) eqn:E9; [reflexivity|].
  exfalso. apply Hno. unfold reaches_path.
  apply Z.ltb_ge in E6, E7, E8, E9. repeat split; auto.
Qed.

Lemma list_config_frame (env : Env) (w : World) :
  fs (list_config env w) = fs w /\ docker (list_config env w) = docker w
  /\ objects (list_config env w) = objects w /\ deleted (list_config env w) = deleted w.
Proof. unfold list_config. now destruct (fDebug (config env)). Qed.

Lemma directory_failure_list_config (env : Env) (w : World) :
  directory_failure env (list_config env w) <-> directory_failure env w.
Proof.
  unfold directory_failure. now destruct (list_config_frame env w) as (-> & _).
Qed.


(** The daemon step, case by case. *)
Lemma Initialize_daemon_cases (env : Env) (w : World) :
  Initialize_daemon env w
  = if fDaemon (config env) && is_server_or_miner (mode env) then
      if fork_pid env <? 0 then (Returned false, print Cerr "Error: fork() returned" w)
      else if 0 <? fork_pid env then
        (Exited 0,
         if fopen_ok env
         then set_fs w (mkFS (data_dir (fs w)) (locked_by_others (fs w))
                          (locked_by_us (fs w)) (Some (fork_pid env)))
         else w)
      else if setsid_sid env <? 0 then
        (Returned false, print Cerr "Error: setsid) returned" w)
      else
        Initialize_modules env
          (print Cout ("metabasenet server starting, version is v" +:+ VERSION_STR
                       +:+ ", git commit id is " +:+ GetGitVersion) w)
    else Initialize_modules env w.
Proof.
  unfold Initialize_daemon, RunInBackground. cbv zeta.
  destruct (fDaemon (config env) && is_server_or_miner (mode env)); [|reflexivity].
  destruct (fork_pid env <? 0); [reflexivity|].
  destruct (0 <? fork_pid env); [reflexivity|].
  destruct (setsid_sid env <? 0); reflexivity.
Qed.


(** What a module instantiated and offered to the container leaves behind. *)
Lemma attach_new_frame (cls : IBaseClass) (w : World) :
  let obj := mkIBase (length (objects w)) cls in
  let r := attach_new cls w in
  objects (snd r) = objects w ++ [obj]
  /\ deleted (snd r) = (if fst r then deleted w else obj :: deleted w)
  /\ globals (snd r) = globals w
  /\ http_hosts (snd r) = http_hosts w.
Proof.
  unfold attach_new, new_object. cbv zeta. cbn [AttachModule].
  destruct (docker_Attach _ _) as [[] d]; cbn; auto.
Qed.

Lemma InitializeModule_frame (cfg : Config) (m : EModuleType) (w : World) :
  let r := InitializeModule cfg m w in
  globals (snd r) = globals w
  /\ (exists news, objects (snd r) = objects w ++ news /\ (length news <= 1)%nat)
  /\ (fst r = true -> deleted (snd r) = deleted w)
  /\ (fst r = false ->
      deleted (snd r) = deleted w
      \/ exists obj, deleted (snd r) = obj :: deleted w /\ last (objects (snd r)) = Some obj).
Proof.
  assert (Hattach : forall cls w0,
            globals w0 = globals w -> objects w0 = objects w -> deleted w0 = deleted w ->
            let r := attach_new cls w0 in
            globals (snd r) = globals w
            /\ (exists news, objects (snd r) = objects w ++ news /\ (length news <= 1)%nat)
            /\ (fst r = true -> deleted (snd r) = deleted w)
            /\ (fst r = false ->
                deleted (snd r) = deleted w
                \/ exists obj, deleted (snd r) = obj :: deleted w
                               /\ last (objects (snd r)) = Some obj)).
  { intros cls w0 Hg Ho Hd. cbv zeta.
    destruct (attach_new_frame cls w0) as (A1 & A2 & A3 & _).
    rewrite A1, A2, A3, Hg, Ho, Hd. split; [reflexivity|]. split; [eexists; split; [reflexivity|cbn; lia]|].
    split; [now intros ->|]. intros ->. right. eexists. split; [reflexivity|apply last_snoc]. }
  assert (Hnone : forall (b : bool) w0,
            globals w0 = globals w -> objects w0 = objects w -> deleted w0 = deleted w ->
            globals (snd (b, w0)) = globals w
            /\ (exists news, objects (snd (b, w0)) = objects w ++ news /\ (length news <= 1)%nat)
            /\ (fst (b, w0) = true -> deleted (snd (b, w0)) = deleted w)
            /\ (fst (b, w0) = false ->
                deleted (snd (b, w0)) = deleted w
                \/ exists obj, deleted (snd (b, w0)) = obj :: deleted w
                               /\ last (objects (snd (b, w0))) = Some obj)).
  { intros b w0 Hg Ho Hd. cbn [fst snd]. rewrite Hg, Ho, Hd.
    split; [reflexivity|]. split; [exists []; split; [now rewrite app_nil_r|cbn; lia]|]. auto. }
  destruct m; cbn [InitializeModule]; try (apply Hattach; reflexivity).
  - unfold TryLockFile. destruct (decide _); apply Hnone; reflexivity.
  - destruct (docker_GetObject (docker w) "httpserver"); [|apply Hnone; reflexivity].
    destruct (GetRPCHostConfig cfg w); [|apply Hnone; reflexivity].
    apply Hattach; reflexivity.
  - apply Hnone; reflexivity.
Qed.

Lemma InitializeModules_loop_frame (cfg : Config) (modules : list EModuleType) :
  forall w,
    let r := InitializeModules_loop cfg modules w in
    globals (snd r) = globals w
    /\ (exists news, objects (snd r) = objects w ++ news
                     /\ (length news <= length modules)%nat)
    /\ (fst r = true -> deleted (snd r) = deleted w)
    /\ (fst r = false ->
        deleted (snd r) = deleted w
        \/ exists obj, deleted (snd r) = obj :: deleted w
                       /\ last (objects (snd r)) = Some obj).
Proof.
  induction modules as [|m modules IH]; intros w; cbv zeta; cbn [InitializeModules_loop].
  - cbn [fst snd]. split; [reflexivity|].
    split; [exists []; split; [now rewrite app_nil_r|cbn; lia]|].
    split; [reflexivity|discriminate].
  - destruct (InitializeModule_frame cfg m w) as (G & (n1 & O1 & L1) & D1 & D2).
    destruct (InitializeModule cfg m w) as [[] w1]; cbn [fst snd] in *.
    + destruct (IH w1) as (G' & (n2 & O2 & L2) & D1' & D2').
      rewrite G', O2, O1, <- (D1 eq_refl), <- G. split; [reflexivity|].
      split; [exists (n1 ++ n2); rewrite app_assoc, length_app; split; [reflexivity|cbn; lia]|].
      rewrite O2 in D2'. split; [exact D1'|]. intros Hf. destruct (D2' Hf) as [Hd|(obj & Hd & Hl)].
      * left. exact Hd.
      * right. exists obj. split; [exact Hd|]. rewrite <- O1. exact Hl.
    + split; [exact G|]. split; [exists n1; split; [exact O1|cbn; lia]|].
      split; [discriminate|]. intros _. apply D2. reflexivity.
Qed.

(** X24. [InitializeModules] does not roll back: the objects it has
    instantiated stay, at most one per listed module; when it returns true
    nothing has been deleted, and when it returns false at most one object
    has been deleted, the one instantiated last, whose attach failed. *)
Theorem InitializeModules_no_rollback (cfg : Config) (m : EModeType) (w : World) :
  let r := InitializeModules cfg m w in
  (exists news, objects (snd r) = objects w ++ news
                /\ (length news <= length (GetModules m))%nat)
  /\ (fst r = true -> deleted (snd r) = deleted w)
  /\ (fst r = false ->
      deleted (snd r) = deleted w
      \/ exists obj, deleted (snd r) = obj :: deleted w
                     /\ last (objects (snd r)) = Some obj).
Proof.
  cbv zeta. unfold InitializeModules.
  destruct (InitializeModules_loop_frame cfg (GetModules m) w) as (_ & H). exact H.
Qed.

Lemma Initialize_modules_true (env : Env) (w : World) :
  fst (Initialize_modules env w) = Returned true ->
  (is_server_or_miner (mode env) && SetLogFilePath_ok env = true -> InitLog_ok env = true)
  /\ fst (docker_Initialize (docker w) (config env)) = true
  /\ globals (snd (Initialize_modules env w)) = configured_globals env
  /\ deleted (snd (Initialize_modules env w)) = deleted w.
Proof.
  unfold Initialize_modules. cbv zeta.
  assert (Hlog : is_server_or_miner (mode env) && SetLogFilePath_ok env && negb (InitLog_ok env)
                 = false ->
                 is_server_or_miner (mode env) && SetLogFilePath_ok env = true ->
                 InitLog_ok env = true).
  { intros H E. rewrite E in H. now destruct (InitLog_ok env). }
  destruct (is_server_or_miner (mode env) && SetLogFilePath_ok env && negb (InitLog_ok env));
    [discriminate|].
  specialize (Hlog eq_refl).
  match goal with
  | |- context [docker_Initialize (docker ?x) _] => change (docker x) with (docker w)
  end.
  destruct (docker_Initialize (docker w) (config env)) as [[] d]; cbn [negb fst];
    [|discriminate].
  match goal with |- context [InitializeModules ?cfg ?md ?w1] =>
    destruct (InitializeModules_loop_frame cfg (GetModules md) w1) as (G & _ & D & _);
    fold (InitializeModules cfg md w1) in G, D;
    destruct (InitializeModules cfg md w1) as [ok w'] end.
  cbn [fst snd] in *. intros [= ->]. rewrite G, (D eq_refl). auto.
Qed.

(** X25. What a successful [Initialize] implies: the configuration loaded
    and asked for no help, version or purge, the log sizes are in range, the
    data directory is in place with room on the disk, the process is not the
    parent of a daemon, the log opened if its path could be set, the
    container initialised, and the lock on the data directory was free.
    The chain and network ids are then set, with their defaults for zero,
    and nothing has been deleted. *)
Theorem Initialize_true (env : Env) (w : World) :
  fst (Initialize env w) = Returned true ->
  reaches_path env
  /\ ~ directory_failure env w
  /\ daemon_child env
  /\ (is_server_or_miner (mode env) && SetLogFilePath_ok env = true -> InitLog_ok env = true)
  /\ fst (docker_Initialize (docker w) (config env)) = true
  /\ (LOCK ∈ GetModules (mode env) ->
      path_append (pathData (config env)) ".lock" ∉ locked_by_others (fs w))
  /\ globals (snd (Initialize env w)) = configured_globals env
  /\ data_dir (fs (snd (Initialize env w))) = Directory
  /\ deleted (snd (Initialize env w)) = deleted w.
Proof.
  intros Htrue.
  assert (Hr : reaches_path env).
  { destruct (reaches_path_dec env) as [Hr|Hn]; [exact Hr|].
    rewrite (Initialize_not_reaching env w Hn) in Htrue. discriminate Htrue. }
  assert (Hlock : LOCK ∈ GetModules (mode env) ->
                  path_append (pathData (config env)) ".lock" ∉ locked_by_others (fs w)).
  { intros Hin Hl. now apply (Initialize_contended env w Hin Hl). }
  split; [exact Hr|]. rewrite (Initialize_reaches_path env w Hr) in *.
  destruct (list_config_frame env w) as (Lf & Ld & Lo & Lx).
  assert (Hok : ~ directory_failure env w).
  { intros Hf. destruct (Initialize_path_failure env (list_config env w)) as [E|E];
      [now apply directory_failure_list_config|rewrite E in Htrue; discriminate Htrue..]. }
  split; [exact Hok|].
  rewrite Initialize_path_success in * by (now rewrite directory_failure_list_config).
  set (w1 := with_data_dir (list_config env w)) in *.
  assert (Hw1 : docker w1 = docker w /\ deleted w1 = deleted w /\ data_dir (fs w1) = Directory).
  { unfold w1, with_data_dir. cbn. auto. }
  destruct Hw1 as (W1 & W2 & W3).
  assert (Hdir : data_dir (fs (snd (Initialize_daemon env w1))) = Directory)
    by (destruct (Initialize_daemon_stable env w1) as [_ ->]; exact W3).
  rewrite Initialize_daemon_cases in Htrue |- *. unfold daemon_child.
  rewrite Initialize_daemon_cases in Hdir.
  destruct (fDaemon (config env) && is_server_or_miner (mode env)) eqn:Ed.
  - destruct (Z.ltb_spec (fork_pid env) 0) as [Hneg|Hnn]; [discriminate Htrue|].
    destruct (Z.ltb_spec 0 (fork_pid env)) as [Hpos|Hz]; [discriminate Htrue|].
    destruct (Z.ltb_spec (setsid_sid env) 0) as [Hs|Hs]; [discriminate Htrue|].
    destruct (Initialize_modules_true env _ Htrue) as (H1 & H2 & H3 & H4).
    cbn [print set_output docker deleted] in H2, H4.
    rewrite W1 in H2. rewrite W2 in H4.
    repeat split; auto; lia.
  - destruct (Initialize_modules_true env _ Htrue) as (H1 & H2 & H3 & H4).
    rewrite W1 in H2. rewrite W2 in H4.
    repeat split; auto; discriminate.
Qed.

Lemma GetRPCHostConfig_rpcmod (cfg : Config) (w : World) (hosts : list CHttpHostConfig) :
  GetRPCHostConfig cfg w = Some hosts ->
  Forall (fun h => strIOModule h = "rpcmod"%string) hosts /\ rpc_server cfg <> None.
Proof.
  unfold GetRPCHostConfig. destruct (rpc_server cfg) as [pConfig|]; [|discriminate].
  cbv zeta. intros [= <-]. split; [|discriminate].
  constructor; [reflexivity|]. apply List.Forall_map, Forall_forall. reflexivity.
Qed.

Lemma InitializeModule_hosts (cfg : Config) (m : EModuleType) (w : World) :
  let r := InitializeModule cfg m w in
  (exists added, http_hosts (snd r) = http_hosts w ++ added
                 /\ Forall (fun h => strIOModule h = "rpcmod"%string) added
                 /\ (m <> RPCMODE \/ rpc_server cfg = None -> added = []))
  /\ (m = RPCMODE -> rpc_server cfg = None -> fst r = false).
Proof.
  assert (Hsame : forall (r : bool * World),
            http_hosts (snd r) = http_hosts w ->
            exists added, http_hosts (snd r) = http_hosts w ++ added
                          /\ Forall (fun h => strIOModule h = "rpcmod"%string) added
                          /\ (m <> RPCMODE \/ rpc_server cfg = None -> added = [])).
  { intros r ->. exists []. rewrite app_nil_r. auto. }
  assert (Hattach : forall cls, http_hosts (snd (attach_new cls w)) = http_hosts w).
  { intros cls. now destruct (attach_new_frame cls w) as (_ & _ & _ & ->). }
  destruct m; cbn [InitializeModule];
    try (split; [apply Hsame, Hattach|discriminate]).
  - split; [|discriminate]. apply Hsame. unfold TryLockFile. now destruct (decide _).
  - destruct (docker_GetObject (docker w) "httpserver"); [|split; [now apply Hsame|reflexivity]].
    destruct (GetRPCHostConfig cfg w) as [hosts|] eqn:E; [|split; [now apply Hsame|reflexivity]].
    destruct (GetRPCHostConfig_rpcmod cfg w hosts E) as [Hall Hsome].
    split; [|intros _ Hnone; now destruct Hsome].
    exists hosts.
    destruct (attach_new_frame CRPCMod (set_http_hosts w (http_hosts w ++ hosts)))
      as (_ & _ & _ & ->).
    split; [reflexivity|]. split; [exact Hall|]. intros [H|H]; [now destruct H|now destruct Hsome].
  - split; [now apply Hsame|discriminate].
Qed.

(** X26. [InitializeModules] adds hosts to the HTTP server only for
    [RPCMODE], and only hosts served by "rpcmod"; a mode that lists
    [RPCMODE] does not initialise without an RPC server configuration. *)
Theorem InitializeModules_hosts (cfg : Config) (m : EModeType) (w : World) :
  let r := InitializeModules cfg m w in
  (exists added, http_hosts (snd r) = http_hosts w ++ added
                 /\ Forall (fun h => strIOModule h = "rpcmod"%string) added
                 /\ (RPCMODE ∉ GetModules m \/ rpc_server cfg = None -> added = []))
  /\ (RPCMODE ∈ GetModules m -> rpc_server cfg = None -> fst r = false).
Proof.
  cbv zeta. unfold InitializeModules. generalize (GetModules m) as modules.
  intros modules. revert w.
  induction modules as [|x modules IH]; intros w; cbn [InitializeModules_loop].
  - split; [exists []; rewrite app_nil_r; auto|]. intros H. now apply elem_of_nil in H.
  - destruct (InitializeModule_hosts cfg x w) as ((a1 & H1 & F1 & N1) & R1).
    destruct (InitializeModule cfg x w) as [[] w1]; cbn [fst snd] in *.
    + destruct (IH w1) as ((a2 & H2 & F2 & N2) & R2). split.
      * exists (a1 ++ a2). rewrite H2, H1, app_assoc. split; [reflexivity|].
        split; [now apply Forall_app|].
        intros Hno. rewrite N1, N2; [reflexivity| |].
        -- destruct Hno as [Hno|Hno]; [left|now right]. intros Hin. apply Hno. now right.
        -- destruct Hno as [Hno|Hno]; [left|now right]. intros ->. apply Hno. now left.
      * intros Hin Hnone. apply elem_of_cons in Hin as [<-|Hin]; [|now apply R2].
        now specialize (R1 eq_refl Hnone).
    + split; [|reflexivity].
      exists a1. split; [exact H1|]. split; [exact F1|].
      intros Hno. apply N1. destruct Hno as [Hno|Hno]; [left|now right].
      intros ->. apply Hno. now left.
Qed.

End Sequencer.

(** *** A container to run the sequencer with *)

(** Modelled from the spec: the module container keeps the attached
    instances in attach order, finds them by the name each module declares,
    and rejects a second instance of a name.  The names are set by the module
    classes, outside entry.cpp; only "httpserver" is named there. *)
Definition module_name (obj : IBase) : string :=
  match obj_class obj with
  | CBlockMaker => "blockmaker"
  | CTestNetCoreProtocol | CCoreProtocol => "coreprotocol"
  | CDispatcher => "dispatcher"
  | CHttpGet => "httpget"
  | CHttpServer => "httpserver"
  | CNetChannel => "netchannel"
  | CBlockChannel => "blockchannel"
  | CCertTxChannel => "certtxchannel"
  | CUserTxChannel => "usertxchannel"
  | CDelegatedChannel => "delegatedchannel"
  | CNetwork => "peernet"
  | CRPCClient _ => "rpcclient"
  | CRPCMod => "rpcmod"
  | CService => "service"
  | CTxPool => "txpool"
  | CWallet | CDummyWallet => "wallet"
  | CBlockChain => "blockchain"
  | CForkManager => "forkmanager"
  | CConsensus => "consensus"
  | CDataStat => "datastat"
  | CRecovery => "recovery"
  end.

(** Modelled from the spec: [GetObject] by exact name, [Attach] and the
    container's [Initialize]. *)
Definition registry_GetObject (d : list IBase) (name : string) : option IBase :=
  snd <$> list_find (fun obj => module_name obj = name) d.

Definition registry_Attach (d : list IBase) (obj : IBase) : bool * list IBase :=
  match registry_GetObject d (module_name obj) with
  | Some _ => (false, d)
  | None => (true, d ++ [obj])
  end.

Definition registry_Initialize (d : list IBase) (cfg : Config) : bool * list IBase := (true, d).

Lemma registry_rejects_duplicate (d : list IBase) (obj : IBase) :
  is_Some (registry_GetObject d (module_name obj)) -> fst (registry_Attach d obj) = false.
Proof. intros [o H]. unfold registry_Attach. now rewrite H. Qed.

Lemma registry_GetObject_app (d : list IBase) (obj : IBase) :
  registry_GetObject d (module_name obj) = None ->
  registry_GetObject (d ++ [obj]) (module_name obj) = Some obj.
Proof.
  unfold registry_GetObject. induction d as [|o d IH]; cbn [app list_find].
  - intros _. now rewrite decide_True.
  - destruct (decide (module_name o = module_name obj)); [discriminate|].
    intros H. destruct (list_find _ d) as [[i x]|] eqn:E; [discriminate|].
    specialize (IH eq_refl). destruct (list_find _ (d ++ [obj])) as [[j y]|]; [|discriminate].
    cbn in *. exact IH.
Qed.

Lemma registry_registers (d d' : list IBase) (obj : IBase) :
  registry_Attach d obj = (true, d') -> registry_GetObject d' (module_name obj) = Some obj.
Proof.
  unfold registry_Attach. destruct (registry_GetObject d (module_name obj)) eqn:E; [discriminate|].
  intros [= <-]. now apply registry_GetObject_app.
Qed.

(** A server that locks the data directory after its first module. *)
Definition example_modules (m : EModeType) : list EModuleType :=
  [COREPROTOCOL; LOCK; BLOCKCHAIN; TXPOOL; HTTPSERVER; RPCMODE].

Definition example_config : Config :=
  mkConfig false false false false false false false false true false
           200 10 0 0 "/data" [] None.

Definition example_env : Env :=
  mkEnv true true example_config MODE_SERVER true 209715200 true 0 1 true true true.

Definition empty_world (k : PathKind) (others : list string) : @World (list IBase) :=
  mkWorld (mkFS k others [] None) [] [] [] [] [] (mkGlobals false false false 0 0).

Definition run_Initialize : Env -> World -> Outcome * World :=
  Initialize registry_Attach registry_GetObject registry_Initialize example_modules
    "1.0.0" "0000000" 201 "usage" "config".

Definition rpc_config : CRPCServerConfig :=
  mkRPCServerConfig false false "" "" "" "" "user" "pass"
    (mkEndpoint "127.0.0.1" 8812) 30 [] [(201, 8812); (202, 8813)].

(** A server whose configuration carries the RPC settings starts up. *)
Example Initialize_server_starts :
  let cfg := mkConfig false false false false false false false false true false
               200 10 0 0 "/data" [] (Some rpc_config) in
  let env := mkEnv true true cfg MODE_SERVER true 209715200 true 0 1 true true true in
  let '(result, w) := run_Initialize env (empty_world Directory []) in
  result = Returned true
  /\ map obj_class (docker w)
     = [CCoreProtocol; CBlockChain; CTxPool; CHttpServer; CRPCMod]
  /\ map nLinkChainId (http_hosts w) = [201; 202]
  /\ deleted w = [].
Proof. vm_compute. auto. Qed.

(** A second wallet offered to a container that holds one already. *)
Definition first_wallet : IBase := mkIBase 0 CWallet.
Definition second_wallet : IBase := mkIBase 1 CDummyWallet.
Definition wallet_world : @World (list IBase) :=
  mkWorld (mkFS Directory [] [] None) [first_wallet] [first_wallet; second_wallet] [] [] []
    (mkGlobals false false false 0 0).

Lemma AttachModule_spec_witness :
  fst (AttachModule registry_Attach (Some second_wallet) wallet_world) = false
  /\ deleted (snd (AttachModule registry_Attach (Some second_wallet) wallet_world))
     = [second_wallet].
Proof.
  apply (AttachModule_spec registry_Attach registry_GetObject module_name
           registry_rejects_duplicate registry_registers (Some second_wallet) wallet_world).
  exists first_wallet. reflexivity.
Defined.

(** The data directory is locked by another process. *)
Definition contended_world : @World (list IBase) :=
  empty_world Directory ["/data/.lock"%string].

Lemma InitializeModules_lock_contended_witness :
  fst (InitializeModules registry_Attach registry_GetObject example_modules
         example_config MODE_SERVER contended_world) = false
  /\ map obj_class
       (objects (snd (InitializeModules registry_Attach registry_GetObject example_modules
                        example_config MODE_SERVER contended_world)))
     = [CCoreProtocol]
  /\ map obj_class
       (docker (snd (InitializeModules registry_Attach registry_GetObject example_modules
                       example_config MODE_SERVER contended_world)))
     = [CCoreProtocol]
  /\ fst (run_Initialize example_env contended_world) <> Returned true.
Proof.
  destruct (InitializeModules_lock_contended registry_Attach registry_GetObject
              registry_Initialize example_modules "1.0.0" "0000000" 201 "usage" "config"
              example_env contended_world
              [COREPROTOCOL] [BLOCKCHAIN; TXPOOL; HTTPSERVER; RPCMODE]
              eq_refl ltac:(vm_compute; left))
    as (H1 & H2 & H3 & _ & H5).
  split; [exact H1|].
  split; [exact (f_equal (map obj_class) H2)|].
  split; [exact (f_equal (map obj_class) H3)|exact H5].
Defined.





(** A run with [--help]. *)
Definition help_env : Env :=
  mkEnv true true
    (mkConfig true false false false false false false false true false
       200 10 0 0 "/data" [] None)
    MODE_SERVER true 209715200 true 0 1 true true true.


Lemma Initialize_early_exit_witness :
  fst (run_Initialize help_env (empty_world Directory [])) = Returned false
  /\ objects (snd (run_Initialize help_env (empty_world Directory []))) = []
  /\ docker (snd (run_Initialize help_env (empty_world Directory []))) = []
  /\ deleted (snd (run_Initialize help_env (empty_world Directory []))) = [].
Proof.
  apply (Initialize_early_exit registry_Attach registry_GetObject registry_Initialize
           example_modules "1.0.0" "0000000" 201 "usage" "config"
           help_env (empty_world Directory [])).
  intros (_ & _ & H & _). discriminate H.
Defined.

Example Initialize_fresh_directory :
  let '(result, w) := run_Initialize example_env (empty_world Missing []) in
  result = Returned false
  /\ data_dir (fs w) = Directory
  /\ locked_by_us (fs w) = ["/data/.lock"%string]
  /\ map obj_class (docker w) = [CCoreProtocol; CBlockChain; CTxPool; CHttpServer].
Proof. vm_compute. auto. Qed.

(** A server whose log file path cannot be set. *)
Definition nolog_env : Env :=
  mkEnv true true example_config MODE_SERVER true 209715200 true 0 1 true false false.

Lemma Initialize_log_failure_ignored_witness :
  run_Initialize (with_InitLog nolog_env true) (empty_world Directory [])
  = run_Initialize nolog_env (empty_world Directory []).
Proof.
  apply (Initialize_log_failure_ignored registry_Attach registry_GetObject registry_Initialize
           example_modules "1.0.0" "0000000" 201 "usage" "config"
           nolog_env (empty_world Directory []) true).
  reflexivity.
Defined.

(** A server with its RPC settings. *)
Definition rpc_env : Env :=
  mkEnv true true
    (mkConfig false false false false false false false false true false
       200 10 0 0 "/data" [] (Some rpc_config))
    MODE_SERVER true 209715200 true 0 1 true true true.

Lemma Initialize_true_witness :
  reaches_path rpc_env
  /\ globals (snd (run_Initialize rpc_env (empty_world Directory [])))
     = mkGlobals false false false 201 201
  /\ deleted (snd (run_Initialize rpc_env (empty_world Directory []))) = [].
Proof.
  destruct (Initialize_true registry_Attach registry_GetObject registry_Initialize
              example_modules "1.0.0" "0000000" 201 "usage" "config"
              rpc_env (empty_world Directory []) eq_refl)
    as (H1 & _ & _ & _ & _ & _ & H7 & _ & H9).
  split; [exact H1|]. split; [exact H7|exact H9].
Defined.

End Entry.
